(** * Token cover: polygon iteration, terrain-wall combination and
      cover-type classification

    A shallow embedding of the geometry helpers added to [PIXI.Polygon]
    (iteratePoints, iterateEdges), of [WallPoints3d.combineTerrainWalls]
    and of the [CoverType] catalog and classification rules, followed by
    the properties established about them.

    Conventions.  JavaScript numbers are modelled by [Z] (coordinates,
    priorities) or [Q] (cover percentages), and a sum of coordinates is
    given only where doubles add integers exactly; a JavaScript [Set] or [Map]
    keeps insertion order and is modelled by a list; a generator is
    modelled by the list of the values it yields; mutable static state is
    passed explicitly. *)

From Stdlib Require Import List ZArith Lia Bool String Permutation Sorted QArith.
From Equations Require Import Equations.
Import ListNotations.
Open Scope Z_scope.

(** ** JavaScript values and truthiness *)

Module JS.

Inductive value : Type :=
| VUndefined
| VNull
| VBool (b : bool)
| VNum (n : Z)
| VNaN
| VStr (s : string)
| VObject.                       (* an object or a function *)

(** ToBoolean. *)
Definition truthy (v : value) : bool :=
  match v with
  | VUndefined | VNull | VNaN => false
  | VBool b => b
  | VNum n => negb (n =? 0)
  | VStr s => negb (String.eqb s EmptyString)
  | VObject => true
  end.

(** [a || b] on values: the first operand when it is truthy. *)
Definition or (a b : value) : value := if truthy a then a else b.

(** [a ?? b]: the second operand only for [null] and [undefined]. *)
Definition nullish (a b : value) : value :=
  match a with
  | VUndefined | VNull => b
  | _ => a
  end.

(** [arr[i]] on an array of numbers: [undefined] out of range. *)
Definition index (a : list Z) (i : Z) : option Z :=
  if i <? 0 then None else nth_error a (Z.to_nat i).

End JS.

(** ** PIXI.Polygon iteration (iteratePoints, iterateEdges) *)

Module Polygon.

Record Point : Type := mkPoint { x : Z; y : Z }.

(** [new PIXI.Point(x, y)]: the constructor's parameters default to 0,
    so an [undefined] argument gives the coordinate 0. *)
Definition PIXI_Point (px py : option Z) : Point :=
  mkPoint (match px with Some v => v | None => 0 end)
          (match py with Some v => v | None => 0 end).

Record Edge : Type := mkEdge { A : Point; B : Point }.

(** A polygon holds the flat coordinate array [x0, y0, x1, y1, ...]. *)
Record PIXIPolygon : Type := mkPolygon { points : list Z }.

(** [for (let i = start; i < ln; i += 2) yield new PIXI.Point(points[i], points[i + 1])] *)
Equations? iteratePoints_from (pts : list Z) (ln i : Z) : list Point
  by wf (Z.to_nat (ln - i)) lt :=
  iteratePoints_from pts ln i with Z_lt_dec i ln := {
    | left _ := PIXI_Point (JS.index pts i) (JS.index pts (i + 1))
                :: iteratePoints_from pts ln (i + 2);
    | right _ := [] }.
Proof. lia. Qed.

(** The edge loop of [iterateEdges]: yields [{A, B}] for every vertex
    from index [i] on and returns, with the edges, the last value of [A]. *)
Equations? iterateEdges_from (pts : list Z) (ln i : Z) (a : Point) : list Edge * Point
  by wf (Z.to_nat (ln - i)) lt :=
  iterateEdges_from pts ln i a with Z_lt_dec i ln := {
    | left _ :=
        let b := PIXI_Point (JS.index pts i) (JS.index pts (i + 1)) in
        let r := iterateEdges_from pts ln (i + 2) b in
        (mkEdge a b :: fst r, snd r);
    | right _ := ([], a) }.
Proof. lia. Qed.

Section Iterators.

(** [isClosed] is a getter of the host's polygon class; it is a
    parameter of the iterators. *)
Variable isClosed : PIXIPolygon -> bool.

Definition iteratePoints (P : PIXIPolygon) (close : bool) : list Point :=
  let dropped := if negb (isClosed P) || close then 0 else 2 in
  let ln := Z.of_nat (List.length (points P)) - dropped in
  iteratePoints_from (points P) ln 0.

Definition iterateEdges (P : PIXIPolygon) (close : bool) : list Edge :=
  let dropped := if isClosed P then 2 else 0 in
  let ln := Z.of_nat (List.length (points P)) in
  let iter := ln - dropped in
  if ln <? 4 then []
  else
    let firstA := PIXI_Point (JS.index (points P) 0) (JS.index (points P) 1) in
    let r := iterateEdges_from (points P) ln 2 firstA in
    fst r ++ (if close then [mkEdge (snd r) firstA] else []).

End Iterators.

(** The vertex sequence of a coordinate array, and back. *)
Fixpoint vertices (pts : list Z) : list Point :=
  match pts with
  | px :: py :: rest => mkPoint px py :: vertices rest
  | [px] => [mkPoint px 0]
  | [] => []
  end.

Fixpoint coordinates (vs : list Point) : list Z :=
  match vs with
  | [] => []
  | v :: rest => x v :: y v :: coordinates rest
  end.

(** Re-closing a collected point sequence: append its first point. *)
Definition reclose (vs : list Point) : list Point :=
  match vs with
  | [] => []
  | v :: _ => vs ++ [v]
  end.

(** The host's test for a closed polygon, used to run the iterators on
    concrete polygons: at least two vertices, first equal to last. *)
Definition firstEqualsLast (P : PIXIPolygon) : bool :=
  let vs := vertices (points P) in
  match vs with
  | v0 :: _ :: _ =>
      let vl := last vs v0 in (x v0 =? x vl) && (y v0 =? y vl)
  | _ => false
  end.

End Polygon.

(** ** WallPoints3d.combineTerrainWalls *)

Module WallPoints3d.
Import Polygon.

Record Point3d : Type := mkPoint3d { x3 : Z; y3 : Z; z3 : Z }.

(** The wall a [WallPoints3d] is built from: ground endpoints [A], [B]
    and the elevations, [None] when not finite. *)
Record WallObject : Type := mkWallObject {
  wallA : Point;
  wallB : Point;
  topZ : option Z;
  bottomZ : option Z
}.

Definition Matrix : Type := list Z.

Record WallPoints3d : Type := mkWallPoints3d {
  object : WallObject;
  points3d : list Point3d;
  M : option Matrix
}.

(** A clipper path is a list of integer points. *)
Record ClipperPaths : Type := mkClipperPaths { paths : list (list Point) }.

(** [new ClipperPaths()] *)
Definition newClipperPaths : ClipperPaths := mkClipperPaths [].

(** [paths.length] used as a condition. *)
Definition hasPaths (c : ClipperPaths) : bool :=
  match paths c with
  | [] => false
  | _ :: _ => true
  end.

(** [w.points[k].x = ix.x; w.points[k].y = ix.y] *)
Fixpoint setXY (k : nat) (ix : Point) (pts : list Point3d) : list Point3d :=
  match pts, k with
  | [], _ => []
  | p :: rest, O => mkPoint3d (x ix) (y ix) (z3 p) :: rest
  | p :: rest, S k' => p :: setXY k' ix rest
  end.

Definition cutAt (k1 k2 : nat) (ix : Point) (w : WallPoints3d) : WallPoints3d :=
  mkWallPoints3d (object w) (setXY k2 ix (setXY k1 ix (points3d w))) (M w).

Definition setViewMatrix (m : option Matrix) (w : WallPoints3d) : WallPoints3d :=
  mkWallPoints3d (object w) (points3d w) m.

Definition warnNoIntersection : string :=
  "combineTerrainWalls: walls cross but intersection not found.".

(** Loop state: the accumulated paths and the console warnings. *)
Definition State : Type := (ClipperPaths * list string)%type.

(** What the host platform and the sibling classes ([ClipperPaths],
    [PlanePoints3d]) provide to this one. *)
Class Host : Type := {
  maxR : Z;
  orient2dFast : Point -> Point -> Point -> Z;
  lineLineIntersection : Point -> Point -> Point -> Point -> option Point;
  perspectiveTransform : WallPoints3d -> PIXIPolygon;
  fromPolygons : list PIXIPolygon -> ClipperPaths;
  intersectPaths : ClipperPaths -> ClipperPaths -> ClipperPaths;
  add : ClipperPaths -> ClipperPaths -> ClipperPaths;
  combine : ClipperPaths -> ClipperPaths;
  clean : ClipperPaths -> ClipperPaths
}.

Section Code.

Context `{Host}.

(** The constructor. *)
Definition construct (o : WallObject) : WallPoints3d :=
  let top := match topZ o with Some t => t | None => maxR end in
  let bottom := match bottomZ o with Some b => b | None => - maxR end in
  let a := wallA o in
  let b := wallB o in
  mkWallPoints3d o
    [ mkPoint3d (x a) (y a) top; mkPoint3d (x b) (y b) top;
      mkPoint3d (x b) (y b) bottom; mkPoint3d (x a) (y a) bottom ]
    None.

Definition ccw (a b c : Point) : Z := Z.sgn (orient2dFast a b c).

Definition silhouette (w : WallPoints3d) : ClipperPaths :=
  fromPolygons [perspectiveTransform w].

Definition handleTerrainWallsCross (wi wj : WallPoints3d) (ccwABV ccwCDV : Z)
  : option (ClipperPaths * ClipperPaths) * list string :=
  let a := wallA (object wi) in
  let b := wallB (object wi) in
  let c := wallA (object wj) in
  let d := wallB (object wj) in
  match lineLineIntersection a b c d with
  | None => (None, [warnNoIntersection])
  | Some ix =>
      let wiA := cutAt 1 2 ix (construct (object wi)) in
      let wiB := cutAt 0 3 ix (construct (object wi)) in
      let wjC := cutAt 1 2 ix (construct (object wj)) in
      let wjD := cutAt 0 3 ix (construct (object wj)) in
      let '(wiFront, wiBack, wjFront, wjBack) :=
        if ccwABV =? -1
        then if ccwCDV =? -1 then (wiA, wiB, wjD, wjC) else (wiB, wiA, wjD, wjC)
        else if ccwCDV =? -1 then (wiA, wiB, wjC, wjD) else (wiB, wiA, wjC, wjD) in
      let wiFront := setViewMatrix (M wi) wiFront in
      let wiBack := setViewMatrix (M wi) wiBack in
      let wjFront := setViewMatrix (M wj) wjFront in
      let wjBack := setViewMatrix (M wj) wjBack in
      let cpWiIntersect := intersectPaths (silhouette wjFront) (silhouette wiBack) in
      let cpWjIntersect := intersectPaths (silhouette wiFront) (silhouette wjBack) in
      (Some (cpWiIntersect, cpWjIntersect), [])
  end.

(** The choice of [wFront] and [wBack]; [None] when both stay undefined. *)
Definition frontBack (wi wj : WallPoints3d)
    (ccwABV ccwCDV ccwABC ccwABD ccwCDA ccwCDB : Z)
  : option (WallPoints3d * WallPoints3d) :=
  if (ccwABC =? ccwABD) || (ccwABD =? 0) || (ccwABC =? 0) then
    let endpointCCW := if ccwABC =? 0 then ccwABD else ccwABC in
    if endpointCCW =? ccwABV then Some (wj, wi) else Some (wi, wj)
  else if (ccwCDA =? ccwCDB) || (ccwCDA =? 0) || (ccwCDB =? 0) then
    let endpointCCW := if ccwCDA =? 0 then ccwCDB else ccwCDA in
    if endpointCCW =? ccwCDV then Some (wi, wj) else Some (wj, wi)
  else None.

(** Body of the inner loop, for wall [wi] (with [ccwABV] already
    computed and non-zero) and wall [wj]. *)
Definition innerBody (viewerLoc : Point) (wi : WallPoints3d) (ccwABV : Z)
    (st : State) (wj : WallPoints3d) : State :=
  let '(combined, log) := st in
  let a := wallA (object wi) in
  let b := wallB (object wi) in
  let c := wallA (object wj) in
  let d := wallB (object wj) in
  let ccwCDV := ccw c d viewerLoc in
  if ccwCDV =? 0 then st
  else
    let ccwABC := ccw a b c in
    let ccwABD := ccw a b d in
    if negb (negb (ccwABC =? 0) || negb (ccwABD =? 0)) then st
    else
      let ccwCDA := ccw c d a in
      let ccwCDB := ccw c d b in
      match frontBack wi wj ccwABV ccwCDV ccwABC ccwABD ccwCDA ccwCDB with
      | Some (wFront, wBack) =>
          let cpIntersect := intersectPaths (silhouette wFront) (silhouette wBack) in
          if hasPaths cpIntersect then (add combined cpIntersect, log) else st
      | None =>
          match handleTerrainWallsCross wi wj ccwABV ccwCDV with
          | (None, warned) => (combined, log ++ warned)
          | (Some (wiPath, wjPath), warned) =>
              let combined1 := if hasPaths wiPath then add combined wiPath else combined in
              let combined2 := if hasPaths wjPath then add combined1 wjPath else combined1 in
              (combined2, log ++ warned)
          end
      end.

(** The outer loop runs while [i < nWalls - 1]: the last wall opens
    no iteration. *)
Fixpoint outerLoop (viewerLoc : Point) (walls : list WallPoints3d) (st : State) : State :=
  match walls with
  | [] => st
  | wi :: rest =>
      match rest with
      | [] => st
      | _ :: _ =>
          let ccwABV := ccw (wallA (object wi)) (wallB (object wi)) viewerLoc in
          outerLoop viewerLoc rest
            (if ccwABV =? 0 then st
             else fold_left (innerBody viewerLoc wi ccwABV) rest st)
      end
  end.

(** The result ([None] for [null]) and the warnings logged. *)
Definition combineTerrainWalls (walls : list WallPoints3d) (viewerLoc : Point3d)
  : option ClipperPaths * list string :=
  let v := mkPoint (x3 viewerLoc) (y3 viewerLoc) in
  let '(combined, log) := outerLoop v walls (newClipperPaths, []) in
  if negb (hasPaths combined) then (None, log)
  else (Some (clean (combine combined)), log).

(** *** Vocabulary of the statements *)

(** The pairs [(walls[i], walls[j])], [i < j], in the order of the loops. *)
Fixpoint pairs (walls : list WallPoints3d) : list (WallPoints3d * WallPoints3d) :=
  match walls with
  | [] => []
  | wi :: rest => map (fun wj => (wi, wj)) rest ++ pairs rest
  end.

(** What one pair does to the state. *)
Definition pairStep (viewerLoc : Point) (st : State)
    (p : WallPoints3d * WallPoints3d) : State :=
  let ccwABV := ccw (wallA (object (fst p))) (wallB (object (fst p))) viewerLoc in
  if ccwABV =? 0 then st else innerBody viewerLoc (fst p) ccwABV st (snd p).

(** Two ground segments cross strictly: the ends of each lie strictly
    on opposite sides of the other. *)
Definition strictlyCross (a b c d : Point) : Prop :=
  ccw a b c <> 0 /\ ccw a b d <> 0 /\ ccw a b c <> ccw a b d
  /\ ccw c d a <> 0 /\ ccw c d b <> 0 /\ ccw c d a <> ccw c d b.

(** The clipped regions a pair computes. *)
Definition clippedRegions (viewerLoc : Point) (wi wj : WallPoints3d) : list ClipperPaths :=
  let a := wallA (object wi) in
  let b := wallB (object wi) in
  let c := wallA (object wj) in
  let d := wallB (object wj) in
  let ccwABV := ccw a b viewerLoc in
  let ccwCDV := ccw c d viewerLoc in
  if (ccwABV =? 0) || (ccwCDV =? 0) then []
  else if (ccw a b c =? 0) && (ccw a b d =? 0) then []
  else
    match frontBack wi wj ccwABV ccwCDV (ccw a b c) (ccw a b d) (ccw c d a) (ccw c d b) with
    | Some (wFront, wBack) => [intersectPaths (silhouette wFront) (silhouette wBack)]
    | None =>
        match fst (handleTerrainWallsCross wi wj ccwABV ccwCDV) with
        | Some (wiPath, wjPath) => [wiPath; wjPath]
        | None => []
        end
    end.

End Code.

(** Adding to [combined] each region that has paths. *)
Definition addRegions `{Host} (combined : ClipperPaths) (regions : list ClipperPaths)
  : ClipperPaths :=
  fold_left (fun c r => if hasPaths r then add c r else c) regions combined.

(** *** Concrete hosts, to run the combination

    [orient2dFast] is the host's formula.  The projection is the ground
    plan of the wall; the clipper intersects two silhouettes to the
    paths of the first when [overlap] holds and to nothing otherwise. *)
Definition orient2dFast_host (a b c : Point) : Z :=
  (y a - y c) * (x b - x c) - (x a - x c) * (y b - y c).

Definition groundPlan (w : WallPoints3d) : PIXIPolygon :=
  mkPolygon (flat_map (fun p => [x3 p; y3 p]) (points3d w)).

Definition testHost (overlap : bool) (ix : option Point) : Host := {|
  maxR := 1000;
  orient2dFast := orient2dFast_host;
  lineLineIntersection := fun _ _ _ _ => ix;
  perspectiveTransform := groundPlan;
  fromPolygons := fun ps => mkClipperPaths (map (fun p => vertices (points p)) ps);
  intersectPaths := fun c1 c2 => if overlap then c1 else newClipperPaths;
  add := fun c1 c2 => mkClipperPaths (paths c1 ++ paths c2);
  combine := fun c => c;
  clean := fun c => c
|}.

Definition wallOf (ax ay bx by_ : Z) : WallPoints3d :=
  @construct (testHost false None)
    (mkWallObject (mkPoint ax ay) (mkPoint bx by_) (Some 10) (Some 0)).

End WallPoints3d.

(** ** CoverType: the catalog and the classification rules *)

Module CoverType.

(** [CoverTypeData], the document of a cover type ([priority] is a
    number or [null]). *)
Record CoverTypeData : Type := mkCoverTypeData {
  name : string;
  percentThreshold : Q;
  icon : string;
  canOverlap : bool;
  priority : option Z;
  includeWalls : bool;
  includeTokens : bool
}.

(** A cover type object: its [id], the key under which the catalog
    holds it, and its document. *)
Record CoverType : Type := mkCoverType { id : string; document : CoverTypeData }.

Definition Q_eq_dec (a b : Q) : {a = b} + {a <> b}.
Proof. decide equality; [apply Pos.eq_dec | apply Z.eq_dec]. Defined.

Definition CoverTypeData_eq_dec (a b : CoverTypeData) : {a = b} + {a <> b}.
Proof.
  decide equality;
    try apply Bool.bool_dec; try apply string_dec; try apply Q_eq_dec.
  decide equality. apply Z.eq_dec.
Defined.

Definition CoverType_eq_dec (a b : CoverType) : {a = b} + {a <> b}.
Proof. decide equality; [apply CoverTypeData_eq_dec | apply string_dec]. Defined.

Record Token : Type := mkToken {
  tokenName : string;
  effects : list string;       (* token.document.effects, icon paths *)
  sizeValue : string           (* token.system.traits.size.value *)
}.

(** What the cover calculator provides. *)
Class Calculator : Type := {
  percentCover : Token -> Token -> bool -> bool -> Q;
  blockingTokens : Token -> list Token
}.

(** Membership in a [Set] compares objects; two cover types with the
    same id and document are one object. *)
Definition same (a b : CoverType) : bool :=
  if CoverType_eq_dec a b then true else false.

(** *** Sets and maps, in insertion order *)

Definition Set_has (s : list CoverType) (ct : CoverType) : bool := existsb (same ct) s.

Definition Set_add (ct : CoverType) (s : list CoverType) : list CoverType :=
  if Set_has s ct then s else s ++ [ct].

Definition Set_delete (ct : CoverType) (s : list CoverType) : list CoverType :=
  filter (fun c => negb (same ct c)) s.

Definition Set_union (s1 s2 : list CoverType) : list CoverType :=
  fold_left (fun acc ct => Set_add ct acc) s2 s1.

Definition Set_intersection (s1 s2 : list CoverType) : list CoverType :=
  filter (Set_has s2) s1.

(** A [Set] has a [size] and no [length] property. *)
Definition Set_length (s : list CoverType) : JS.value := JS.VUndefined.

Definition Map_get (key : string) (m : list CoverType) : option CoverType :=
  find (fun ct => String.eqb (id ct) key) m.

(** [Map.prototype.set]: an existing key keeps its place. *)
Fixpoint Map_set (ct : CoverType) (m : list CoverType) : list CoverType :=
  match m with
  | [] => [ct]
  | c :: rest =>
      if String.eqb (id c) (id ct) then ct :: rest else c :: Map_set ct rest
  end.

Definition Map_delete (key : string) (m : list CoverType) : list CoverType :=
  filter (fun ct => negb (String.eqb (id ct) key)) m.

(** Sets of icon strings. *)
Definition icons_has (s : list string) (e : string) : bool := existsb (String.eqb e) s.

Definition icons_add (e : string) (s : list string) : list string :=
  if icons_has s e then s else s ++ [e].

Definition iconSet (l : list string) : list string :=
  fold_left (fun acc e => icons_add e acc) l [].

(** [Array.prototype.sort(cmp)], which is stable: [x] goes before the
    first element it does not have to follow. *)
Fixpoint sortInsert {T : Type} (cmp : T -> T -> Z) (x : T) (l : list T) : list T :=
  match l with
  | [] => [x]
  | y :: rest => if cmp x y <=? 0 then x :: y :: rest else y :: sortInsert cmp x rest
  end.

Fixpoint Array_sort {T : Type} (cmp : T -> T -> Z) (l : list T) : list T :=
  match l with
  | [] => []
  | x :: rest => sortInsert cmp x (Array_sort cmp rest)
  end.

(** *** Priority *)

Definition priorityValue (ct : CoverType) : JS.value :=
  match priority (document ct) with
  | Some n => JS.VNum n
  | None => JS.VNull
  end.

(** [priority] in arithmetic: [null] counts as 0. *)
Definition priorityNumber (ct : CoverType) : Z :=
  match priority (document ct) with
  | Some n => n
  | None => 0
  end.

Definition prioritized (ct : CoverType) : bool := JS.truthy (priorityValue ct).

(** *** The catalog and its derived lists *)

Record Catalog : Type := mkCatalog {
  coverObjectsMap : list CoverType;
  coverTypesOrdered_ : list CoverType;       (* #coverTypesOrdered *)
  coverTypesUnordered_ : list CoverType;     (* #coverTypesUnordered *)
  coverTypesModified : bool                  (* #coverTypesModified *)
}.

(** The static fields as the class declares them. *)
Definition initial : Catalog := mkCatalog [] [] [] true.

Definition coverTypesUpdated (s : Catalog) : Catalog :=
  mkCatalog (coverObjectsMap s) (coverTypesOrdered_ s) (coverTypesUnordered_ s)
            (coverTypesModified s || true).

(** [#updateCoverTypesOrder] *)
Definition updateCoverTypesOrder (s : Catalog) : Catalog :=
  let '(ordered, unordered) :=
    fold_left
      (fun (acc : list CoverType * list CoverType) coverType =>
         if negb (JS.truthy (priorityValue coverType))
         then (fst acc, snd acc ++ [coverType])
         else (fst acc ++ [coverType], snd acc))
      (coverObjectsMap s) ([], []) in
  let ordered := Array_sort (fun a b => priorityNumber b - priorityNumber a) ordered in
  mkCatalog (coverObjectsMap s) ordered unordered false.

(** The getters return the list and leave the state they rebuilt. *)
Definition coverTypesOrdered (s : Catalog) : list CoverType * Catalog :=
  let s' := if coverTypesModified s then updateCoverTypesOrder s else s in
  (coverTypesOrdered_ s', s').

Definition coverTypesUnordered (s : Catalog) : list CoverType * Catalog :=
  let s' := if coverTypesModified s then updateCoverTypesOrder s else s in
  (coverTypesUnordered_ s', s').

(** *** Catalog mutations *)

(** The fields a call to [update(config)] may carry. *)
Record Config : Type := mkConfig {
  cfgThreshold : option Q;
  cfgIcon : option string;
  cfgCanOverlap : option bool;
  cfgPriority : option (option Z);
  cfgIncludeWalls : option bool;
  cfgIncludeTokens : option bool
}.

Definition orElse {T : Type} (o : option T) (d : T) : T :=
  match o with Some v => v | None => d end.

(** [foundry.utils.mergeObject(doc, config)] *)
Definition mergeObject (doc : CoverTypeData) (config : Config) : CoverTypeData :=
  mkCoverTypeData (name doc)
    (orElse (cfgThreshold config) (percentThreshold doc))
    (orElse (cfgIcon config) (icon doc))
    (orElse (cfgCanOverlap config) (canOverlap doc))
    (orElse (cfgPriority config) (priority doc))
    (orElse (cfgIncludeWalls config) (includeWalls doc))
    (orElse (cfgIncludeTokens config) (includeTokens doc)).

Definition setMap (m : list CoverType) (s : Catalog) : Catalog :=
  mkCatalog m (coverTypesOrdered_ s) (coverTypesUnordered_ s) (coverTypesModified s).

(** Modelled from the spec: the class that inserts a cover object into
    [coverObjectsMap] and removes it (AbstractCoverObject) is not among
    the sources; the spec has add, update and remove as the catalog's
    mutations.  Each goes through a method of CoverType that calls
    [coverTypesUpdated] first ([_createStorageDocument] or
    [_findStorageDocument], [update], [_deleteStorageDocument]). *)
Definition addCoverType (ct : CoverType) (s : Catalog) : Catalog :=
  let s := coverTypesUpdated s in
  setMap (Map_set ct (coverObjectsMap s)) s.

Definition updateCoverType (key : string) (config : Config) (s : Catalog) : Catalog :=
  let s := coverTypesUpdated s in
  setMap (map (fun ct => if String.eqb (id ct) key
                         then mkCoverType (id ct) (mergeObject (document ct) config)
                         else ct)
              (coverObjectsMap s)) s.

Definition removeCoverType (key : string) (s : Catalog) : Catalog :=
  let s := coverTypesUpdated s in
  setMap (Map_delete key (coverObjectsMap s)) s.

(** The states the catalog goes through. *)
Inductive reachable : Catalog -> Prop :=
| reach_initial : reachable initial
| reach_add ct s : reachable s -> reachable (addCoverType ct s)
| reach_update key config s : reachable s -> reachable (updateCoverType key config s)
| reach_remove key s : reachable s -> reachable (removeCoverType key s)
| reach_readOrdered s : reachable s -> reachable (snd (coverTypesOrdered s))
| reach_readUnordered s : reachable s -> reachable (snd (coverTypesUnordered s)).

(** Descending by priority value. *)
Definition descending (l : list CoverType) : Prop :=
  StronglySorted (fun a b => priorityNumber b <= priorityNumber a) l.

(** *** Classification *)

(** How a call ends: with a value, or with an exception. *)
Inductive outcome (T : Type) : Type :=
| Returned (v : T)
| Threw (e : string).
Arguments Returned {T} v.
Arguments Threw {T} e.

Section Classification.

Context `{Calculator}.

Definition coverTypeApplies (ct : CoverType) (attackingToken targetToken : Token) : bool :=
  Qle_bool (percentThreshold (document ct))
           (percentCover attackingToken targetToken
              (includeWalls (document ct)) (includeTokens (document ct))).

(** The loop over [coverTypesOrdered]: it returns the set and the
    types whose [coverTypeApplies] it has called, in order. *)
Fixpoint orderedLoop (l : list CoverType) (attackingToken targetToken : Token)
    (types : list CoverType) : list CoverType * list CoverType :=
  match l with
  | [] => (types, [])
  | type :: rest =>
      if coverTypeApplies type attackingToken targetToken
      then (Set_add type types, [type])
      else
        let r := orderedLoop rest attackingToken targetToken types in
        (fst r, type :: snd r)
  end.

(** The loop over [coverTypesUnordered], likewise. *)
Fixpoint unorderedLoop (l : list CoverType) (attackingToken targetToken : Token)
    (types : list CoverType) : list CoverType * list CoverType :=
  match l with
  | [] => (types, [])
  | type :: rest =>
      if negb (canOverlap (document type)) && JS.truthy (Set_length types)
      then unorderedLoop rest attackingToken targetToken types
      else
        let types' :=
          if coverTypeApplies type attackingToken targetToken
          then Set_add type types else types in
        let r := unorderedLoop rest attackingToken targetToken types' in
        (fst r, type :: snd r)
  end.

Record Run : Type := mkRun {
  result : list CoverType;
  testedOrdered : list CoverType;
  testedUnordered : list CoverType;
  after : Catalog
}.

Definition coverTypesForToken_run (s : Catalog) (attackingToken targetToken : Token) : Run :=
  let types := [] in
  let '(ordered, s1) := coverTypesOrdered s in
  let '(types, tested1) := orderedLoop ordered attackingToken targetToken types in
  let '(unordered, s2) := coverTypesUnordered s1 in
  let '(types, tested2) := unorderedLoop unordered attackingToken targetToken types in
  mkRun types tested1 tested2 s2.

Definition coverTypesForToken (s : Catalog) (attackingToken targetToken : Token)
  : list CoverType :=
  result (coverTypesForToken_run s attackingToken targetToken).

(** Modelled from the spec: [targetToken.tokencover.coverTypesFromAttacker]
    is not among the sources; by the spec it gives the attacker's own
    [coverTypesForToken] result for the pair. *)
Definition coverTypesFromAttacker (s : Catalog) (targetToken attackingToken : Token)
  : list CoverType * Catalog :=
  let r := coverTypesForToken_run s attackingToken targetToken in
  (result r, after r).

Definition NULL_SET : list CoverType := [].

(** The [forEach] over one attacker's cover types. *)
Definition splitCoverTypes (coverTypes : list CoverType) (minCoverType : option CoverType)
  : option CoverType * list CoverType :=
  fold_left
    (fun (acc : option CoverType * list CoverType) ct =>
       let '(minCoverType, otherTypes) := acc in
       if negb (JS.truthy (priorityValue ct)) then (minCoverType, Set_add ct otherTypes)
       else
         match minCoverType with
         | None => (Some ct, otherTypes)
         | Some m =>
             if priorityNumber m >? priorityNumber ct
             then (Some ct, otherTypes) else (minCoverType, otherTypes)
         end)
    coverTypes (minCoverType, []).

Fixpoint attackersLoop (s : Catalog) (targetToken : Token) (attackingTokens : list Token)
    (minCoverType : option CoverType) (otherCoverTypes : option (list CoverType))
  : option CoverType * option (list CoverType) * Catalog :=
  match attackingTokens with
  | [] => (minCoverType, otherCoverTypes, s)
  | attackingToken :: rest =>
      let '(coverTypes, s1) := coverTypesFromAttacker s targetToken attackingToken in
      let '(minCoverType, otherTypes) := splitCoverTypes coverTypes minCoverType in
      let otherCoverTypes :=
        match otherCoverTypes with
        | None => otherTypes
        | Some o => Set_intersection o otherTypes
        end in
      attackersLoop s1 targetToken rest minCoverType (Some otherCoverTypes)
  end.

Definition minimumCoverFromAttackers (s : Catalog) (targetToken : Token)
    (attackingTokens : list Token) : outcome (list CoverType) :=
  match attackingTokens with
  | [] => Returned NULL_SET
  | _ :: _ =>
      let '(minCoverType, otherCoverTypes, _) :=
        attackersLoop s targetToken attackingTokens None None in
      let minCoverType :=
        match minCoverType with Some m => [m] | None => [] end in
      (* otherCoverTypes ||= Set.NULL_SET, and Set has no NULL_SET *)
      match otherCoverTypes with
      | Some o => Returned (Set_union minCoverType o)
      | None => Threw "TypeError"
      end
  end.

(** *** Icons on a token *)

Definition setEffects (token : Token) (e : list string) : Token :=
  mkToken (tokenName token) e (sizeValue token).

(** Modelled from the spec: [findSpliceAll] (util.js) is not among the
    sources; it removes from the array every element the test accepts. *)
Definition findSpliceAll (arr : list string) (test : string -> bool) : list string :=
  filter (fun e => negb (test e)) arr.

Definition removeFromToken (ct : CoverType) (token : Token) : bool * Token :=
  let change := existsb (String.eqb (icon (document ct))) (effects token) in
  if change
  then (change, setEffects token
                  (findSpliceAll (effects token) (String.eqb (icon (document ct)))))
  else (change, token).

Definition addToToken (catalog : list CoverType) (ct : CoverType) (token : Token)
  : bool * Token :=
  let icon_ := icon (document ct) in
  if existsb (String.eqb icon_) (effects token) then (false, token)
  else if canOverlap (document ct)
  then (true, setEffects token (effects token ++ [icon_]))
  else
    let tokenEffectIcons := iconSet (effects token) in
    let otherCoverTypes :=
      filter (fun c => negb (String.eqb (icon (document c)) icon_)
                       && negb (canOverlap (document c))) catalog in
    let token :=
      fold_left
        (fun tk otherCoverType =>
           if icons_has tokenEffectIcons (icon (document otherCoverType))
           then snd (removeFromToken otherCoverType tk) else tk)
        otherCoverTypes token in
    (true, setEffects token (effects token ++ [icon_])).

(** [replaceCoverTypes]: the value returned ([res || changed] is a
    boolean or the number of icons removed) and the token afterwards. *)
Definition replaceCoverTypes (catalog : list CoverType) (token : Token)
    (coverTypes : list CoverType) : JS.value * Token :=
  let coverTypes := Set_union [] coverTypes in
  match coverTypes with
  | [] =>
      match effects token with
      | [] => (JS.VBool false, token)
      | _ :: _ => (JS.VBool true, setEffects token [])
      end
  | _ :: _ =>
      let tokenEffectIcons := iconSet (effects token) in
      let toKeep := iconSet (map (fun ct => icon (document ct)) coverTypes) in
      let toRemove := filter (fun e => negb (icons_has toKeep e)) tokenEffectIcons in
      let changed := JS.VNum (Z.of_nat (List.length toRemove)) in
      let token :=
        if JS.truthy changed
        then setEffects token (findSpliceAll (effects token) (icons_has toRemove))
        else token in
      let '(res, token) :=
        fold_left
          (fun (acc : bool * Token) ct =>
             let out := addToToken catalog ct (snd acc) in
             (fst acc || fst out, snd out))
          coverTypes (false, token) in
      (JS.or (JS.VBool res) changed, token)
  end.

(** *** The pf2e specialization *)

(** The names every plain object inherits from [Object.prototype]:
    functions, and under [__proto__] the prototype itself. *)
Definition inheritedKeys : list string :=
  ["constructor"; "hasOwnProperty"; "isPrototypeOf"; "propertyIsEnumerable";
   "toLocaleString"; "toString"; "valueOf"; "__defineGetter__"; "__defineSetter__";
   "__lookupGetter__"; "__lookupSetter__"; "__proto__"]%string.

(** [ACTOR_SIZES[key]], after the loop that adds the reverse entries;
    the table is an object literal, so a key it does not hold is looked
    up on [Object.prototype]. *)
Definition ACTOR_SIZES (key : string) : JS.value :=
  if String.eqb key "tiny" then JS.VNum 1
  else if String.eqb key "sm" then JS.VNum 2
  else if String.eqb key "med" then JS.VNum 3
  else if String.eqb key "lg" then JS.VNum 4
  else if String.eqb key "huge" then JS.VNum 5
  else if String.eqb key "grg" then JS.VNum 6
  else if String.eqb key "1" then JS.VStr "tiny"
  else if String.eqb key "2" then JS.VStr "sm"
  else if String.eqb key "3" then JS.VStr "med"
  else if String.eqb key "4" then JS.VStr "lg"
  else if String.eqb key "5" then JS.VStr "huge"
  else if String.eqb key "6" then JS.VStr "grg"
  else if existsb (String.eqb key) inheritedKeys then JS.VObject
  else JS.VUndefined.

(** ToNumber on a value of the table: its strings are size labels,
    which are not numerals, and a function or the prototype object
    converts to NaN; [None] is NaN. *)
Definition toNumber (v : JS.value) : option Z :=
  match v with
  | JS.VNum n => Some n
  | JS.VBool b => Some (if b then 1 else 0)
  | JS.VNull => Some 0
  | _ => None
  end.

Definition sizeOf (token : Token) : JS.value :=
  JS.nullish (ACTOR_SIZES (sizeValue token)) (ACTOR_SIZES "med").

(** [Math.max(a, b) + 1] *)
Definition upgradeSizeOf (targetSize attackerSize : JS.value) : option Z :=
  match toNumber targetSize, toNumber attackerSize with
  | Some t, Some a => Some (Z.max t a + 1)
  | _, _ => None
  end.

(** [a > b], false when either side is NaN. *)
Definition greater (a : JS.value) (b : option Z) : bool :=
  match toNumber a, b with
  | Some m, Some n => m >? n
  | _, _ => false
  end.

Definition standardKey : string := "[MODULE_ID].pf2e.standard".
Definition lesserKey : string := "[MODULE_ID].pf2e.lesser".

Fixpoint upgradeLoop (tokens : list Token) (upgradeSize : option Z)
    (lesserCover standardCover : CoverType) (types : list CoverType) : list CoverType :=
  match tokens with
  | [] => types
  | token :: rest =>
      let blockingTokenSize := sizeOf token in
      if greater blockingTokenSize upgradeSize
      then Set_add standardCover (Set_delete lesserCover types)
      else upgradeLoop rest upgradeSize lesserCover standardCover types
  end.

Definition coverTypesForToken_PF2E (s : Catalog) (attackingToken targetToken : Token)
  : list CoverType :=
  let types := coverTypesForToken s attackingToken targetToken in
  match types with
  | [] => types
  | _ :: _ =>
      match Map_get standardKey (coverObjectsMap s), Map_get lesserKey (coverObjectsMap s) with
      | Some standardCover, Some lesserCover =>
          if negb (Set_has types lesserCover) then types
          else
            let targetSize := sizeOf targetToken in
            let attackerSize := sizeOf attackingToken in
            let upgradeSize := upgradeSizeOf targetSize attackerSize in
            upgradeLoop (blockingTokens attackingToken) upgradeSize
                        lesserCover standardCover types
      | _, _ => types
      end
  end.

End Classification.

(** *** Vocabulary of the statements *)

Definition unprioritized (ct : CoverType) : bool := negb (prioritized ct).

Definition byPriority (a b : CoverType) : Z := priorityNumber b - priorityNumber a.

(** What a rebuild leaves in the two lists. *)
Definition rebuiltOrdered (m : list CoverType) : list CoverType :=
  Array_sort byPriority (filter prioritized m).

Definition rebuiltUnordered (m : list CoverType) : list CoverType :=
  filter unprioritized m.

(** The lists of a clean state are those of a rebuild. *)
Definition consistent (s : Catalog) : Prop :=
  coverTypesModified s = false ->
  coverTypesOrdered_ s = rebuiltOrdered (coverObjectsMap s)
  /\ coverTypesUnordered_ s = rebuiltUnordered (coverObjectsMap s).

(** The icons of a collection of cover types. *)
Definition iconsOf (coverTypes : list CoverType) : list string :=
  map (fun ct => icon (document ct)) coverTypes.

End CoverType.

(** ** Sample catalogs, tokens and calculators *)

Module Samples.
Import CoverType.

Definition coverType (key : string) (threshold : Q) (prio : option Z) (overlap : bool)
  : CoverType :=
  mkCoverType key
    (mkCoverTypeData key threshold (String.append key ".svg") overlap prio true true).

(** The catalog of the spec's worked example, and a non-overlapping
    category without priority. *)
Definition coverA : CoverType := coverType "A" (3 # 4) (Some 10) false.
Definition coverB : CoverType := coverType "B" (1 # 2) (Some 5) false.
Definition coverC : CoverType := coverType "C" (1 # 4) None true.
Definition coverD : CoverType := coverType "D" (1 # 4) None false.

Definition catalogOf (l : list CoverType) : Catalog :=
  fold_left (fun s ct => addCoverType ct s) l initial.

Definition catalogABC : Catalog := catalogOf [coverB; coverC; coverA].
Definition catalogAD : Catalog := catalogOf [coverA; coverD].

Definition tokenOf (label size : string) (icons : list string) : Token :=
  mkToken label icons size.

Definition attacker : Token := tokenOf "attacker" "med" [].
Definition target : Token := tokenOf "target" "med" [].

(** A calculator that reports the same cover for every pair, and the
    given blocking tokens. *)
Definition flat (percent : Q) (blocking : list Token) : Calculator := {|
  percentCover := fun _ _ _ _ => percent;
  blockingTokens := fun _ => blocking
|}.

(** pf2e catalogs: with the ids the module gives its pf2e cover types,
    and with the keys [coverTypesForToken] looks up. *)
Definition pf2eCatalog (lesserId standardId : string) : Catalog :=
  catalogOf [coverType lesserId (1 # 4) (Some 1) false;
             coverType standardId (1 # 2) (Some 2) false].

End Samples.

(** ** PIXI.Polygon: edges, orientation, translation, convex hull, visibility *)

Module PolygonOps.
Import Polygon.

(** A polygon object with what the methods cache on it:
    [_isClockwise] and [bounds], [None] while undefined. *)
Record PolygonObject : Type := mkPolygonObject {
  shape : PIXIPolygon;
  _isClockwise : option bool;
  bounds : option (list Z)
}.

(** A coordinate of the array [translate] builds.  The model holds
    integers.  The sum of two of them, added as doubles, is their
    integer sum whenever that sum is at most 2^53 in absolute value,
    where every integer is a double; beyond, the double may be rounded
    and the model does not give it.  With an operand undefined the sum
    is NaN. *)
Inductive Coordinate : Type :=
| Exact (v : Z)
| Inexact
| NotANumber.

(** 2^53 *)
Definition maxExact : Z := 9007199254740992.

(** What the host provides: the orientation Clipper gives for the
    polygon's coordinates ([toClipperPoints] then [Clipper.Orientation]),
    [getBounds], and the two segment tests. *)
Class Geometry : Type := {
  clipperOrientation : list Z -> bool;
  getBounds : list Coordinate -> list Z;
  lineSegmentCrosses : Point -> Point -> Point -> Point -> bool;
  lineSegmentIntersects : Point -> Point -> Point -> Point -> bool
}.

(** The getter [isClockwise]: the value and the object afterwards. *)
Definition isClockwise `{Geometry} (P : PolygonObject) : bool * PolygonObject :=
  match _isClockwise P with
  | None =>
      let v := clipperOrientation (points (shape P)) in
      (v, mkPolygonObject (shape P) (Some v) (bounds P))
  | Some v => (v, P)
  end.

(** [for (let i = ln; i >= 0; i -= 2) reversed_pts.push(pts[i], pts[i + 1])];
    a read out of range does not occur, the model pushes nothing for it. *)
Equations? reverse_from (pts : list Z) (i : Z) : list Z by wf (Z.to_nat (i + 2)) lt :=
  reverse_from pts i with Z_le_dec 0 i := {
    | left _ :=
        (match JS.index pts i with Some v => [v] | None => [] end)
        ++ (match JS.index pts (i + 1) with Some v => [v] | None => [] end)
        ++ reverse_from pts (i - 2);
    | right _ := [] }.
Proof. lia. Qed.

Definition reverseOrientation (P : PolygonObject) : PolygonObject :=
  let pts := points (shape P) in
  let ln := Z.of_nat (List.length pts) - 2 in
  mkPolygonObject (mkPolygon (reverse_from pts ln))
                  (match _isClockwise P with Some v => Some (negb v) | None => None end)
                  (bounds P).

(** [points[i] + dx], with [points[i]] undefined out of range. *)
Definition plus (a : option Z) (d : Z) : Coordinate :=
  match a with
  | Some v => if Z.abs (v + d) <=? maxExact then Exact (v + d) else Inexact
  | None => NotANumber
  end.

(** [for (let i = 0; i < ln; i += 2) pts.push(points[i] + dx, points[i + 1] + dy)] *)
Equations? translate_from (pts : list Z) (dx dy : Z) (ln i : Z) : list Coordinate
  by wf (Z.to_nat (ln - i)) lt :=
  translate_from pts dx dy ln i with Z_lt_dec i ln := {
    | left _ := plus (JS.index pts i) dx :: plus (JS.index pts (i + 1)) dy
                :: translate_from pts dx dy ln (i + 2);
    | right _ := [] }.
Proof. lia. Qed.

(** The object [translate] returns; its coordinates may hold NaN or a
    sum the model does not give. *)
Record Translated : Type := mkTranslated {
  newPoints : list Coordinate;
  newIsClockwise : option bool;
  newBounds : option (list Z)
}.

(** The integers of an array that holds nothing else. *)
Fixpoint numbers (l : list Coordinate) : option (list Z) :=
  match l with
  | [] => Some []
  | Exact v :: rest => match numbers rest with Some r => Some (v :: r) | None => None end
  | _ :: _ => None
  end.

Definition translate `{Geometry} (P : PolygonObject) (dx dy : Z) : Translated :=
  let pts := points (shape P) in
  let ln := Z.of_nat (List.length pts) in
  let out := translate_from pts dx dy ln 0 in
  mkTranslated out (_isClockwise P)
    (match bounds P with
     | Some _ => Some (getBounds out)
     | None => None
     end).

(** The translated polygon as a polygon object, when all its
    coordinates are integers the model gives. *)
Definition asObject (t : Translated) : option PolygonObject :=
  match numbers (newPoints t) with
  | Some l => Some (mkPolygonObject (mkPolygon l) (newIsClockwise t) (newBounds t))
  | None => None
  end.

(** *** linesCross *)

Fixpoint anyLine `{Geometry} (edge : Edge) (lines : list Edge) : bool :=
  match lines with
  | [] => false
  | line :: rest =>
      if lineSegmentCrosses (A edge) (B edge) (A line) (B line) then true
      else anyLine edge rest
  end.

Fixpoint anyEdge `{Geometry} (edges lines : list Edge) : bool :=
  match edges with
  | [] => false
  | edge :: rest => if anyLine edge lines then true else anyEdge rest lines
  end.

Definition linesCross `{Geometry} (isClosed : PIXIPolygon -> bool) (P : PIXIPolygon)
    (lines : list Edge) : bool :=
  anyEdge (iterateEdges isClosed P true) lines.

(** *** convexhull *)

Definition convexHullCmpFn (a b : Point) : Z :=
  let dx := x a - x b in
  if negb (dx =? 0) then dx else y a - y b.

(** The loop of [testHullPoint] on the hull as a stack, top first. *)
Fixpoint popWhile (stack : list Point) (p : Point) : list Point :=
  match stack with
  | q :: (r :: _) as below =>
      if (x q - x r) * (y p - y r) >=? (y q - y r) * (x p - x r)
      then popWhile below p
      else stack
  | _ => stack
  end.

(** [testHullPoint(hull, p)], the hull array in its own order. *)
Definition testHullPoint (hull : list Point) (p : Point) : list Point :=
  rev (p :: popWhile (rev hull) p).

(** [upperHull] and [lowerHull] after their [pop()]. *)
Definition upperHull (sorted : list Point) : list Point :=
  removelast (fold_left testHullPoint sorted []).

Definition lowerHull (sorted : list Point) : list Point :=
  removelast (fold_left testHullPoint (rev sorted) []).

(** [convexhull] returns its argument for at most one point and a
    polygon otherwise. *)
Inductive HullResult : Type :=
| HullPoints (pts : list Point)
| HullPolygon (P : PIXIPolygon).

(** [new PIXI.Polygon(points)] on an array of points. *)
Definition polygonOf (pts : list Point) : PIXIPolygon := mkPolygon (coordinates pts).

Definition convexhull (pts : list Point) : HullResult :=
  let ln := Z.of_nat (List.length pts) in
  if ln <=? 1 then HullPoints pts
  else
    let sorted := CoverType.Array_sort convexHullCmpFn pts in
    let upper := upperHull sorted in
    let lower := lowerHull sorted in
    match upper, lower with
    | [u], [l] =>
        if (x u =? x l) && (y u =? y l) then HullPolygon (polygonOf upper)
        else HullPolygon (polygonOf (upper ++ lower))
    | _, _ => HullPolygon (polygonOf (upper ++ lower))
    end.

(** *** viewablePoints *)

(** [edge.A.x === pt.x && edge.A.y === pt.y] *)
Definition samePoint (a b : Point) : bool := (x a =? x b) && (y a =? y b).

(** The loop over the edges that decides [isKey] for the point [pt]. *)
Fixpoint isKeyLoop `{Geometry} (origin pt : Point) (edges : list Edge) : bool :=
  match edges with
  | [] => true
  | edge :: rest =>
      if samePoint (A edge) pt || samePoint (B edge) pt
      then isKeyLoop origin pt rest
      else if lineSegmentIntersects origin pt (A edge) (B edge) then false
      else isKeyLoop origin pt rest
  end.

Record KeyState : Type := mkKeyState {
  startKeys : list nat;
  endKeys : list nat;
  foundNonKeyFirst : bool;
  foundNonKeyAfter : bool;
  foundKey : bool
}.

(** The loop over the points, from index [i]; [isKey] is the test above
    for the polygon's edges. *)
Fixpoint keyLoop (isKey : Point -> bool) (i : nat) (pts : list Point) (st : KeyState)
  : KeyState :=
  match pts with
  | [] => st
  | pt :: rest =>
      if isKey pt then
        keyLoop isKey (S i) rest
          (mkKeyState
             (if negb (foundNonKeyAfter st) then startKeys st ++ [i] else startKeys st)
             (if foundNonKeyAfter st then endKeys st ++ [i] else endKeys st)
             (foundNonKeyFirst st) (foundNonKeyAfter st) true)
      else
        let st' :=
          mkKeyState (startKeys st) (endKeys st)
            (foundNonKeyFirst st || negb (foundKey st))
            (foundNonKeyAfter st || foundKey st)
            (foundKey st) in
        if foundNonKeyFirst st' && foundKey st' then st'
        else keyLoop isKey (S i) rest st'
  end.

(** [keys], before [outermostOnly] is looked at. *)
Definition viewableKeys `{Geometry} (isClosed : PIXIPolygon -> bool) (P : PIXIPolygon)
    (origin : Point) : list nat :=
  let pts := iteratePoints isClosed P false in
  let edges := iterateEdges isClosed P true in
  let st := keyLoop (fun pt => isKeyLoop origin pt edges) 0 pts
              (mkKeyState [] [] false false false) in
  endKeys st ++ startKeys st.

(** Modelled from the spec: [elementsByIndex] (util.js) is not among the
    sources; it gives, for each index, the element of the array there. *)
Definition elementsByIndex (pts : list Point) (keys : list (option nat))
  : list (option Point) :=
  map (fun k => match k with Some i => nth_error pts i | None => None end) keys.

Inductive Viewable : Type :=
| ViewKeys (keys : list (option nat))
| ViewPoints (pts : list (option Point)).

(** [viewablePoints(origin, { returnKeys, outermostOnly })]; an entry is
    [None] where the array holds undefined. *)
Definition viewablePoints `{Geometry} (isClosed : PIXIPolygon -> bool) (P : PIXIPolygon)
    (origin : Point) (returnKeys outermostOnly : bool) : Viewable :=
  let pts := iteratePoints isClosed P false in
  let keys := viewableKeys isClosed P origin in
  let keys :=
    if outermostOnly
    then [nth_error keys 0;
          match List.length keys with
          | O => None
          | S m => nth_error keys m
          end]
    else map Some keys in
  if returnKeys then ViewKeys keys else ViewPoints (elementsByIndex pts keys).

(** *** Vocabulary of the statements *)

(** The indices, counted from [i], of the points a test accepts. *)
Fixpoint indicesOf (test : Point -> bool) (i : nat) (pts : list Point) : list nat :=
  match pts with
  | [] => []
  | pt :: rest => if test pt then i :: indicesOf test (S i) rest else indicesOf test (S i) rest
  end.

(** The indices of the first run of accepted points. *)
Fixpoint runOf (test : Point -> bool) (i : nat) (pts : list Point) : list nat :=
  match pts with
  | [] => []
  | pt :: rest => if test pt then i :: runOf test (S i) rest else []
  end.

(** The indices, counted from [i], of the first run of accepted points
    after the points refused at the start. *)
Fixpoint firstRunOf (test : Point -> bool) (i : nat) (pts : list Point) : list nat :=
  match pts with
  | [] => []
  | pt :: rest => if test pt then runOf test i pts else firstRunOf test (S i) rest
  end.

(** The edges between consecutive vertices. *)
Fixpoint edgesBetween (vs : list Point) : list Edge :=
  match vs with
  | a :: (b :: _) as rest => mkEdge a b :: edgesBetween rest
  | _ => []
  end.

Definition shift (dx dy : Z) (v : Point) : Point := mkPoint (x v + dx) (y v + dy).

(** At most 2^51 in absolute value: three such numbers add up, in any
    order, without leaving the integers that doubles hold exactly. *)
Definition small (z : Z) : Prop := Z.abs z <= 2251799813685248.

(** Lexicographic order on points, by [x] then [y]. *)
Definition lexLe (a b : Point) : Prop := x a < x b \/ (x a = x b /\ y a <= y b).

(** The turn the hull loop keeps: at [q], coming from [r] and going to
    [p], the cross product is strictly negative. *)
Definition strictTurn (r q p : Point) : Prop :=
  (x q - x r) * (y p - y r) < (y q - y r) * (x p - x r).

(** Every three consecutive points of a chain make that turn. *)
Fixpoint turning (chain : list Point) : Prop :=
  match chain with
  | r :: (q :: (p :: _) as t2) as t1 => strictTurn r q p /\ turning t1
  | _ => True
  end.

(** What building a chain keeps true of it. *)
Definition chainOf (input hull : list Point) : Prop :=
  turning hull
  /\ incl hull input
  /\ (forall a rest, input = a :: rest -> exists more, hull = a :: more)
  /\ (forall front z, input = front ++ [z] -> exists most, hull = most ++ [z])
  /\ (2 <= List.length input -> 2 <= List.length hull)%nat.

(** A square seen from the left, with a test that lets a sight line
    cross no edge it does not end on: corners 0 and 3 face the viewer. *)
Definition sampleGeometry : Geometry := {|
  clipperOrientation := fun _ => true;
  getBounds := fun _ => [];
  lineSegmentCrosses := fun a b c d =>
    (WallPoints3d.orient2dFast_host a b c * WallPoints3d.orient2dFast_host a b d <? 0)
    && (WallPoints3d.orient2dFast_host c d a * WallPoints3d.orient2dFast_host c d b <? 0);
  lineSegmentIntersects := fun a b c d =>
    (WallPoints3d.orient2dFast_host a b c * WallPoints3d.orient2dFast_host a b d <=? 0)
    && (WallPoints3d.orient2dFast_host c d a * WallPoints3d.orient2dFast_host c d b <=? 0)
|}.

End PolygonOps.

(** ** CoverTypeDND5E *)

Module Dnd5e.
Import CoverType.

(** [attackingToken.tokencover.ignoresCover?.[key]]: a number, or
    [None] for undefined (no [ignoresCover], or no entry under the key). *)
Class IgnoresCover : Type := {
  ignoresCover : Token -> string -> option Q
}.

(** [ignoresCover?.[opts.actionType ?? "all"]] *)
Definition ignoreLevel `{IgnoresCover} (attackingToken : Token) (actionType : option string)
  : option Q :=
  ignoresCover attackingToken (match actionType with Some a => a | None => "all"%string end).

(** A number used as a condition: true unless 0 or undefined. *)
Definition isSet (level : option Q) : bool :=
  match level with
  | Some q => negb (Qeq_bool q 0)
  | None => false
  end.

(** [threshold <= level] against a level that may be undefined. *)
Definition atMost (threshold : Q) (level : option Q) : bool :=
  match level with
  | Some q => Qle_bool threshold q
  | None => false
  end.

(** The instance method [coverTypeApplies] of CoverTypeDND5E. *)
Definition coverTypeApplies_DND5E `{Calculator} `{IgnoresCover} (ct : CoverType)
    (attackingToken targetToken : Token) (actionType : option string) : bool :=
  let level := ignoreLevel attackingToken actionType in
  if isSet level && atMost (percentThreshold (document ct)) level then false
  else coverTypeApplies ct attackingToken targetToken.

Section Dispatch.

(** [type.coverTypeApplies(attackingToken, targetToken, opts)], the
    method of the class the catalog's objects belong to. *)
Variable applies : CoverType -> bool.

(** The two loops of the inherited [coverTypesForToken]. *)
Fixpoint orderedLoopWith (l types : list CoverType) : list CoverType :=
  match l with
  | [] => types
  | type :: rest =>
      if applies type then Set_add type types else orderedLoopWith rest types
  end.

Fixpoint unorderedLoopWith (l types : list CoverType) : list CoverType :=
  match l with
  | [] => types
  | type :: rest =>
      if negb (canOverlap (document type)) && JS.truthy (Set_length types)
      then unorderedLoopWith rest types
      else unorderedLoopWith rest (if applies type then Set_add type types else types)
  end.

Definition coverTypesForTokenWith (s : Catalog) : list CoverType * Catalog :=
  let '(ordered, s1) := coverTypesOrdered s in
  let types := orderedLoopWith ordered [] in
  let '(unordered, s2) := coverTypesUnordered s1 in
  (unorderedLoopWith unordered types, s2).

(** The static [coverTypesForToken] of CoverTypeDND5E. *)
Definition coverTypesForToken_DND5E `{IgnoresCover} (s : Catalog)
    (attackingToken : Token) (actionType : option string) : list CoverType :=
  let coverTypes := fst (coverTypesForTokenWith s) in
  match coverTypes with
  | [] => coverTypes
  | _ :: _ =>
      let level := ignoreLevel attackingToken actionType in
      if negb (isSet level) then coverTypes
      else filter (fun coverType =>
                     negb (atMost (percentThreshold (document coverType)) level))
                  coverTypes
  end.

End Dispatch.

(** An attacker that ignores cover up to [level] for ranged weapon
    attacks only. *)
Definition sharpshooter (level : Q) : IgnoresCover := {|
  ignoresCover := fun _ key => if String.eqb key "rwak" then Some level else None
|}.

End Dnd5e.

(** ** Vocabulary for the cover type operations *)

Module CoverTypeOps.
Import CoverType Samples.
Local Open Scope string_scope.
Local Open Scope list_scope.
Local Open Scope Z_scope.

(** The update of [minCoverType] by one cover type. *)
Definition pickMin (minCoverType : option CoverType) (ct : CoverType) : option CoverType :=
  if negb (JS.truthy (priorityValue ct)) then minCoverType
  else
    match minCoverType with
    | None => Some ct
    | Some m => if priorityNumber m >? priorityNumber ct then Some ct else minCoverType
    end.

(** The update of [otherTypes] by one cover type. *)
Definition pickOther (otherTypes : list CoverType) (ct : CoverType) : list CoverType :=
  if negb (JS.truthy (priorityValue ct)) then Set_add ct otherTypes else otherTypes.

(** The loop over the attackers, on the sets the attackers give. *)
Fixpoint resultsLoop (results : list (list CoverType)) (minCoverType : option CoverType)
    (otherCoverTypes : option (list CoverType))
  : option CoverType * option (list CoverType) :=
  match results with
  | [] => (minCoverType, otherCoverTypes)
  | coverTypes :: rest =>
      resultsLoop rest
        (fold_left pickMin coverTypes minCoverType)
        (Some match otherCoverTypes with
              | None => fold_left pickOther coverTypes []
              | Some o => Set_intersection o (fold_left pickOther coverTypes [])
              end)
  end.

(** [m] is a prioritized member of [seen] of least priority, or [seen]
    has no prioritized member. *)
Definition leastOf (m : option CoverType) (seen : list CoverType) : Prop :=
  match m with
  | None => forall q, In q seen -> prioritized q = false
  | Some p =>
      In p seen /\ prioritized p = true
      /\ forall q, In q seen -> prioritized q = true -> priorityNumber p <= priorityNumber q
  end.

(** An attacker that sees the target behind 80% cover and one that
    sees it behind 60%. *)
Definition twoViews : Calculator := {|
  percentCover := fun a _ _ _ =>
                    if String.eqb (tokenName a) "attacker" then 4 # 5 else 3 # 5;
  blockingTokens := fun _ => []
|}.

(** An icon some non-overlapping category of the catalog uses. *)
Definition exclusiveIcon (catalog : list CoverType) (e : string) : bool :=
  existsb (fun c => negb (canOverlap (document c)) && String.eqb (icon (document c)) e)
          catalog.

(** The icons on the token that a desired set of cover types keeps. *)
Definition kept (coverTypes : list CoverType) (token : Token) : list string :=
  filter (icons_has (iconsOf coverTypes)) (effects token).

(** The condition under which the pf2e classification upgrades: both
    lookups succeed, the inherited result holds the lesser entry, and a
    blocking token is two size steps above the larger of attacker and
    target, the three sizes being numbers. *)
Definition upgradable `{Calculator} (s : Catalog) (attackingToken targetToken : Token)
    (standardCover lesserCover : CoverType) : Prop :=
  Map_get standardKey (coverObjectsMap s) = Some standardCover
  /\ Map_get lesserKey (coverObjectsMap s) = Some lesserCover
  /\ In lesserCover (coverTypesForToken s attackingToken targetToken)
  /\ exists blocking t a b,
       In blocking (blockingTokens attackingToken)
       /\ toNumber (sizeOf targetToken) = Some t
       /\ toNumber (sizeOf attackingToken) = Some a
       /\ toNumber (sizeOf blocking) = Some b
       /\ Z.max t a + 2 <= b.

End CoverTypeOps.

(** ** Properties of the polygon iterators *)

Module PolygonProofs.
Import Polygon.

Lemma iteratePoints_from_unfold pts ln i :
  iteratePoints_from pts ln i =
  if i <? ln
  then PIXI_Point (JS.index pts i) (JS.index pts (i + 1))
       :: iteratePoints_from pts ln (i + 2)
  else [].
Proof.
  rewrite iteratePoints_from_equation_1.
  destruct (Z_lt_dec i ln) as [Hlt | Hge]; simpl;
    destruct (Z.ltb_spec i ln); try lia; reflexivity.
Qed.

Lemma index_after (pre rest : list Z) (k : nat) :
  JS.index (pre ++ rest) (Z.of_nat (List.length pre) + Z.of_nat k) = nth_error rest k.
Proof.
  unfold JS.index.
  destruct (Z.ltb_spec (Z.of_nat (List.length pre) + Z.of_nat k) 0); [lia |].
  replace (Z.to_nat (Z.of_nat (List.length pre) + Z.of_nat k))
    with (List.length pre + k)%nat by lia.
  rewrite nth_error_app2 by lia. f_equal. lia.
Qed.

Lemma index_first pre a rest :
  JS.index (pre ++ a :: rest) (Z.of_nat (List.length pre)) = Some a.
Proof.
  replace (Z.of_nat (List.length pre)) with (Z.of_nat (List.length pre) + Z.of_nat 0) by lia.
  rewrite index_after. reflexivity.
Qed.

Lemma index_second pre a rest :
  JS.index (pre ++ a :: rest) (Z.of_nat (List.length pre) + 1) = nth_error rest 0.
Proof.
  replace (Z.of_nat (List.length pre) + 1) with (Z.of_nat (List.length pre) + Z.of_nat 1) by lia.
  rewrite index_after. reflexivity.
Qed.

(** With the whole array as the bound, the loop yields the vertex
    sequence of what lies after the start index. *)
Lemma iteratePoints_from_all (n : nat) :
  forall pre rest, (List.length rest <= n)%nat ->
    iteratePoints_from (pre ++ rest)
      (Z.of_nat (List.length pre) + Z.of_nat (List.length rest))
      (Z.of_nat (List.length pre))
    = vertices rest.
Proof.
  induction n as [| n IH]; intros pre rest Hn.
  - destruct rest; [| simpl in Hn; lia].
    rewrite iteratePoints_from_unfold. simpl.
    destruct (Z.ltb_spec (Z.of_nat (List.length pre)) (Z.of_nat (List.length pre) + 0));
      [lia | reflexivity].
  - destruct rest as [| a [| b rest]].
    + rewrite iteratePoints_from_unfold. simpl.
      destruct (Z.ltb_spec (Z.of_nat (List.length pre)) (Z.of_nat (List.length pre) + 0));
        [lia | reflexivity].
    + rewrite iteratePoints_from_unfold.
      destruct (Z.ltb_spec (Z.of_nat (List.length pre))
                  (Z.of_nat (List.length pre) + Z.of_nat (List.length [a]))) as [_ | Hc];
        [| simpl in Hc; lia].
      rewrite index_first, index_second. simpl nth_error. cbn [PIXI_Point vertices].
      f_equal.
      rewrite iteratePoints_from_unfold.
      destruct (Z.ltb_spec (Z.of_nat (List.length pre) + 2)
                  (Z.of_nat (List.length pre) + Z.of_nat (List.length [a])));
        [simpl in *; lia | reflexivity].
    + rewrite iteratePoints_from_unfold.
      destruct (Z.ltb_spec (Z.of_nat (List.length pre))
                  (Z.of_nat (List.length pre) + Z.of_nat (List.length (a :: b :: rest))))
        as [_ | Hc]; [| simpl in Hc; lia].
      rewrite index_first, index_second. simpl nth_error. cbn [PIXI_Point vertices].
      f_equal.
      specialize (IH (pre ++ [a; b]) rest).
      rewrite <- app_assoc in IH. simpl app in IH.
      rewrite length_app in IH. simpl List.length in IH.
      replace (Z.of_nat (List.length pre) + 2)
        with (Z.of_nat (List.length pre + 2)) by lia.
      replace (Z.of_nat (List.length pre) + Z.of_nat (List.length (a :: b :: rest)))
        with (Z.of_nat (List.length pre + 2) + Z.of_nat (List.length rest))
        by (simpl List.length; lia).
      apply IH. simpl in Hn. lia.
Qed.

(** With the bound two short of the array's end, the last vertex is
    not yielded. *)
Lemma iteratePoints_from_dropped (n : nat) :
  forall pre rest, (List.length rest <= n)%nat ->
    iteratePoints_from (pre ++ rest)
      (Z.of_nat (List.length pre) + Z.of_nat (List.length rest) - 2)
      (Z.of_nat (List.length pre))
    = removelast (vertices rest).
Proof.
  induction n as [| n IH]; intros pre rest Hn.
  - destruct rest; [| simpl in Hn; lia].
    rewrite iteratePoints_from_unfold. simpl.
    destruct (Z.ltb_spec (Z.of_nat (List.length pre)) (Z.of_nat (List.length pre) + 0 - 2));
      [lia | reflexivity].
  - destruct rest as [| a [| b rest]].
    + rewrite iteratePoints_from_unfold. simpl.
      destruct (Z.ltb_spec (Z.of_nat (List.length pre)) (Z.of_nat (List.length pre) + 0 - 2));
        [lia | reflexivity].
    + rewrite iteratePoints_from_unfold.
      destruct (Z.ltb_spec (Z.of_nat (List.length pre))
                  (Z.of_nat (List.length pre) + Z.of_nat (List.length [a]) - 2)) as [Hc | _];
        [simpl in Hc; lia | reflexivity].
    + destruct rest as [| c rest].
      * rewrite iteratePoints_from_unfold.
        destruct (Z.ltb_spec (Z.of_nat (List.length pre))
                    (Z.of_nat (List.length pre) + Z.of_nat (List.length [a; b]) - 2))
          as [Hc | _]; [simpl in Hc; lia | reflexivity].
      * rewrite iteratePoints_from_unfold.
        destruct (Z.ltb_spec (Z.of_nat (List.length pre))
                    (Z.of_nat (List.length pre)
                     + Z.of_nat (List.length (a :: b :: c :: rest)) - 2))
          as [_ | Hc]; [| simpl List.length in Hc; lia].
        rewrite index_first, index_second. simpl nth_error. cbn [PIXI_Point].
        change (vertices (a :: b :: c :: rest))
          with (mkPoint a b :: vertices (c :: rest)).
        assert (Hne : vertices (c :: rest) <> []) by (destruct rest; discriminate).
        destruct (vertices (c :: rest)) as [| v vs] eqn:Ev; [congruence |].
        change (removelast (mkPoint a b :: v :: vs))
          with (mkPoint a b :: removelast (v :: vs)).
        f_equal. rewrite <- Ev.
        specialize (IH (pre ++ [a; b]) (c :: rest)).
        rewrite <- app_assoc in IH. simpl app in IH.
        rewrite length_app in IH. simpl List.length in IH.
        replace (Z.of_nat (List.length pre) + 2)
          with (Z.of_nat (List.length pre + 2)) by lia.
        replace (Z.of_nat (List.length pre)
                 + Z.of_nat (List.length (a :: b :: c :: rest)) - 2)
          with (Z.of_nat (List.length pre + 2) + Z.of_nat (S (List.length rest)) - 2)
          by (simpl List.length; lia).
        apply IH. simpl in Hn. simpl. lia.
Qed.

Lemma iteratePoints_close isClosed P :
  iteratePoints isClosed P true = vertices (points P).
Proof.
  unfold iteratePoints. rewrite orb_true_r.
  pose proof (iteratePoints_from_all (List.length (points P)) [] (points P) (le_n _)) as H.
  simpl in H. rewrite Z.sub_0_r. exact H.
Qed.

Lemma iteratePoints_open isClosed P :
  isClosed P = false -> iteratePoints isClosed P false = vertices (points P).
Proof.
  intros Hc. unfold iteratePoints. rewrite Hc. simpl.
  pose proof (iteratePoints_from_all (List.length (points P)) [] (points P) (le_n _)) as H.
  simpl in H. rewrite Z.sub_0_r. exact H.
Qed.

Lemma iteratePoints_no_close isClosed P :
  isClosed P = true -> iteratePoints isClosed P false = removelast (vertices (points P)).
Proof.
  intros Hc. unfold iteratePoints. rewrite Hc. simpl.
  pose proof (iteratePoints_from_dropped (List.length (points P)) [] (points P) (le_n _)) as H.
  simpl in H. exact H.
Qed.

Lemma coordinates_vertices (n : nat) :
  forall pts, (List.length pts <= n)%nat -> Nat.even (List.length pts) = true ->
    coordinates (vertices pts) = pts.
Proof.
  induction n as [| n IH]; intros pts Hn Hev.
  - destruct pts; [reflexivity | simpl in Hn; lia].
  - destruct pts as [| a [| b rest]]; [reflexivity | discriminate |].
    simpl. do 2 f_equal. apply IH; [simpl in Hn; lia | exact Hev].
Qed.

Example iteratePoints_triangle :
  iteratePoints firstEqualsLast (mkPolygon [0; 0; 4; 0; 4; 3; 0; 0]) false
  = [mkPoint 0 0; mkPoint 4 0; mkPoint 4 3].
Proof. reflexivity. Qed.

Example iterateEdges_triangle :
  iterateEdges firstEqualsLast (mkPolygon [0; 0; 4; 0; 4; 3]) true
  = [mkEdge (mkPoint 0 0) (mkPoint 4 0); mkEdge (mkPoint 4 0) (mkPoint 4 3);
     mkEdge (mkPoint 4 3) (mkPoint 0 0)].
Proof. reflexivity. Qed.

(** C9, as stated, fails: with [close = true] every vertex is yielded,
    the closing one included, so appending the first point again gives
    one point more than the polygon has, for a closed triangle and for
    an open one. *)
Lemma iteratePoints_reclose_counterexample :
  reclose (iteratePoints firstEqualsLast (mkPolygon [0; 0; 4; 0; 4; 3; 0; 0]) true)
    <> vertices [0; 0; 4; 0; 4; 3; 0; 0]
  /\ reclose (iteratePoints firstEqualsLast (mkPolygon [0; 0; 4; 0; 4; 3]) true)
    <> vertices [0; 0; 4; 0; 4; 3].
Proof. split; vm_compute; discriminate. Qed.

(** C9, amended: with [close = true] the points yielded by
    [iteratePoints] are already the polygon's vertex sequence, with no
    re-closing (and their coordinates are the polygon's coordinate array
    when it has an even number of values); with [close = false] on a
    closed polygon whose last vertex repeats the first, exactly that
    closing vertex is dropped, and appending the first point again gives
    the vertex sequence back. *)
Theorem iteratePoints_roundtrip (isClosed : PIXIPolygon -> bool) (P : PIXIPolygon) :
  iteratePoints isClosed P true = vertices (points P)
  /\ (Nat.even (List.length (points P)) = true ->
      coordinates (iteratePoints isClosed P true) = points P)
  /\ (forall (v0 : Point) (mid : list Point),
        isClosed P = true ->
        vertices (points P) = v0 :: mid ++ [v0] ->
        iteratePoints isClosed P false = v0 :: mid
        /\ reclose (iteratePoints isClosed P false) = vertices (points P)).
Proof.
  split; [apply iteratePoints_close | split].
  - intros Hev. rewrite iteratePoints_close.
    apply (coordinates_vertices (List.length (points P))); [lia | exact Hev].
  - intros v0 mid Hclosed Hvs.
    assert (Hdrop : iteratePoints isClosed P false = v0 :: mid).
    { rewrite iteratePoints_no_close by exact Hclosed. rewrite Hvs.
      change (v0 :: mid ++ [v0]) with ((v0 :: mid) ++ [v0]).
      apply removelast_last. }
    split; [exact Hdrop |].
    rewrite Hdrop, Hvs. reflexivity.
Qed.

Lemma iteratePoints_roundtrip_witness :
  let P := mkPolygon [0; 0; 4; 0; 4; 3; 0; 0] in
  iteratePoints firstEqualsLast P true = vertices (points P)
  /\ coordinates (iteratePoints firstEqualsLast P true) = points P
  /\ iteratePoints firstEqualsLast P false = [mkPoint 0 0; mkPoint 4 0; mkPoint 4 3]
  /\ reclose (iteratePoints firstEqualsLast P false) = vertices (points P).
Proof.
  intros P.
  destruct (iteratePoints_roundtrip firstEqualsLast P) as [H1 [H2 H3]].
  split; [exact H1 | split; [apply H2; reflexivity |]].
  apply (H3 (mkPoint 0 0) [mkPoint 4 0; mkPoint 4 3]); reflexivity.
Defined.

(** C10: a polygon whose coordinate array holds fewer than four values
    yields no edge, whatever [close] and whatever the host says about
    its being closed. *)
Theorem iterateEdges_short_empty (isClosed : PIXIPolygon -> bool) (P : PIXIPolygon)
    (close : bool) :
  (List.length (points P) < 4)%nat ->
  iterateEdges isClosed P close = [].
Proof.
  intros Hlen. unfold iterateEdges.
  destruct (Z.ltb_spec (Z.of_nat (List.length (points P))) 4); [reflexivity | lia].
Qed.

Lemma iterateEdges_short_empty_witness :
  iterateEdges firstEqualsLast (mkPolygon [7; 9]) true = []
  /\ iterateEdges firstEqualsLast (mkPolygon [7; 9]) false = [].
Proof.
  split; apply iterateEdges_short_empty; simpl; lia.
Defined.

End PolygonProofs.

(** ** Properties of combineTerrainWalls *)

Module WallProofs.
Import Polygon WallPoints3d.

Section Combination.

Context `{Host}.

Lemma fold_pairStep_row (v : Point) (wi : WallPoints3d) (rest : list WallPoints3d) :
  forall st,
    fold_left (pairStep v) (map (fun wj => (wi, wj)) rest) st
    = if ccw (wallA (object wi)) (wallB (object wi)) v =? 0 then st
      else fold_left
             (innerBody v wi (ccw (wallA (object wi)) (wallB (object wi)) v)) rest st.
Proof.
  induction rest as [| wj rest IH]; intros st; simpl.
  - destruct (_ =? 0); reflexivity.
  - rewrite IH. unfold pairStep at 1 2. simpl fst. simpl snd.
    destruct (ccw (wallA (object wi)) (wallB (object wi)) v =? 0); reflexivity.
Qed.

(** The two nested loops visit every pair once, in order. *)
Lemma outerLoop_pairs (v : Point) (walls : list WallPoints3d) :
  forall st, outerLoop v walls st = fold_left (pairStep v) (pairs walls) st.
Proof.
  induction walls as [| wi rest IH]; intros st; [reflexivity |].
  destruct rest as [| wj rest']; [reflexivity |].
  change (pairs (wi :: wj :: rest'))
    with (map (fun w => (wi, w)) (wj :: rest') ++ pairs (wj :: rest')).
  rewrite fold_left_app, fold_pairStep_row, <- IH.
  reflexivity.
Qed.

Lemma pairStep_regions (v : Point) (wi wj : WallPoints3d) (c : ClipperPaths)
    (log : list string) :
  fst (pairStep v (c, log) (wi, wj)) = addRegions c (clippedRegions v wi wj).
Proof.
  unfold pairStep, innerBody, clippedRegions, addRegions. simpl fst. simpl snd.
  destruct (ccw (wallA (object wi)) (wallB (object wi)) v =? 0); [reflexivity |].
  destruct (ccw (wallA (object wj)) (wallB (object wj)) v =? 0); [reflexivity |].
  simpl orb.
  destruct (ccw (wallA (object wi)) (wallB (object wi)) (wallA (object wj)) =? 0);
    destruct (ccw (wallA (object wi)) (wallB (object wi)) (wallB (object wj)) =? 0);
    simpl; try reflexivity;
    (destruct (frontBack _ _ _ _ _ _ _ _) as [[wFront wBack] |];
     [ simpl; destruct (hasPaths _); reflexivity
     | destruct (handleTerrainWallsCross _ _ _ _) as [[[wiPath wjPath] |] warned];
       simpl; reflexivity ]).
Qed.

Lemma addRegions_empty (c : ClipperPaths) (regions : list ClipperPaths) :
  (forall r, In r regions -> paths r = []) -> addRegions c regions = c.
Proof.
  unfold addRegions. revert c.
  induction regions as [| r regions IH]; intros c Hall; [reflexivity |].
  simpl.
  assert (Hr : hasPaths r = false)
    by (unfold hasPaths; rewrite (Hall r (or_introl eq_refl)); reflexivity).
  rewrite Hr.
  apply IH. intros r' Hr'. apply Hall. right. exact Hr'.
Qed.

Lemma fold_pairStep_empty (v : Point) (ps : list (WallPoints3d * WallPoints3d)) :
  (forall wi wj r, In (wi, wj) ps -> In r (clippedRegions v wi wj) -> paths r = []) ->
  forall st, fst (fold_left (pairStep v) ps st) = fst st.
Proof.
  induction ps as [| [wi wj] ps IH]; intros Hall st; [reflexivity |].
  simpl. rewrite IH.
  - destruct st as [c log]. rewrite pairStep_regions.
    apply addRegions_empty. intros r Hr.
    apply (Hall wi wj r); [left; reflexivity | exact Hr].
  - intros wi' wj' r Hin Hr. apply (Hall wi' wj' r); [right; exact Hin | exact Hr].
Qed.

Lemma combineTerrainWalls_unchanged (walls : list WallPoints3d) (viewerLoc : Point3d) :
  fst (outerLoop (mkPoint (x3 viewerLoc) (y3 viewerLoc)) walls (newClipperPaths, []))
    = newClipperPaths ->
  fst (combineTerrainWalls walls viewerLoc) = None.
Proof.
  unfold combineTerrainWalls.
  destruct (outerLoop _ walls _) as [combined log]. simpl.
  intros ->. reflexivity.
Qed.

(** Away from the X configuration a front and a back wall are chosen. *)
Lemma frontBack_not_crossing (wi wj : WallPoints3d) (ccwABV ccwCDV : Z) :
  let a := wallA (object wi) in
  let b := wallB (object wi) in
  let c := wallA (object wj) in
  let d := wallB (object wj) in
  ~ strictlyCross a b c d ->
  frontBack wi wj ccwABV ccwCDV (ccw a b c) (ccw a b d) (ccw c d a) (ccw c d b) = None ->
  False.
Proof.
  intros a b c d Hnc. unfold frontBack, strictlyCross in *.
  destruct (Z.eqb_spec (ccw a b c) (ccw a b d));
    destruct (Z.eqb_spec (ccw a b d) 0);
    destruct (Z.eqb_spec (ccw a b c) 0); simpl;
    try (destruct (_ =? ccwABV); discriminate).
  destruct (Z.eqb_spec (ccw c d a) (ccw c d b));
    destruct (Z.eqb_spec (ccw c d a) 0);
    destruct (Z.eqb_spec (ccw c d b) 0); simpl;
    try (destruct (_ =? ccwCDV); discriminate).
  intros _. apply Hnc. repeat split; assumption.
Qed.


Lemma frontBack_cases (wi wj f b : WallPoints3d) (k1 k2 k3 k4 k5 k6 : Z) :
  frontBack wi wj k1 k2 k3 k4 k5 k6 = Some (f, b) ->
  (f, b) = (wi, wj) \/ (f, b) = (wj, wi).
Proof.
  unfold frontBack.
  repeat match goal with
         | |- context [if ?c then _ else _] => destruct c
         end; intros Heq; inversion Heq; auto.
Qed.

(** C4: [combineTerrainWalls] returns [null] for no wall, for a single
    wall, and whenever no pair of walls computes a clipped region that
    has paths; in particular for two walls whose ground segments do
    not cross strictly and whose silhouettes do not intersect, seen by
    a viewer collinear with neither. *)
Theorem combineTerrainWalls_none (viewerLoc : Point3d) :
  let v := mkPoint (x3 viewerLoc) (y3 viewerLoc) in
  fst (combineTerrainWalls [] viewerLoc) = None
  /\ (forall w, fst (combineTerrainWalls [w] viewerLoc) = None)
  /\ (forall walls,
        (forall wi wj r, In (wi, wj) (pairs walls) ->
                         In r (clippedRegions v wi wj) -> paths r = []) ->
        fst (combineTerrainWalls walls viewerLoc) = None)
  /\ (forall w1 w2,
        ccw (wallA (object w1)) (wallB (object w1)) v <> 0 ->
        ccw (wallA (object w2)) (wallB (object w2)) v <> 0 ->
        ~ strictlyCross (wallA (object w1)) (wallB (object w1))
                        (wallA (object w2)) (wallB (object w2)) ->
        paths (intersectPaths (silhouette w1) (silhouette w2)) = [] ->
        paths (intersectPaths (silhouette w2) (silhouette w1)) = [] ->
        fst (combineTerrainWalls [w1; w2] viewerLoc) = None).
Proof.
  intros v.
  assert (Hgen : forall walls,
             (forall wi wj r, In (wi, wj) (pairs walls) ->
                              In r (clippedRegions v wi wj) -> paths r = []) ->
             fst (combineTerrainWalls walls viewerLoc) = None).
  { intros walls Hall. apply combineTerrainWalls_unchanged. fold v.
    rewrite outerLoop_pairs.
    apply (fold_pairStep_empty v (pairs walls) Hall). }
  split; [reflexivity | split; [intros w; reflexivity | split; [exact Hgen |]]].
  intros w1 w2 HV1 HV2 Hnc H12 H21.
  apply Hgen. simpl. intros wi wj r [Heq | []] Hr.
  inversion Heq; subst wi wj; clear Heq.
  unfold clippedRegions in Hr.
  destruct (_ || _); [destruct Hr |].
  destruct (_ && _); [destruct Hr |].
  destruct (frontBack _ _ _ _ _ _ _ _) as [[f b] |] eqn:Efb.
  - destruct Hr as [<- | []].
    destruct (frontBack_cases _ _ _ _ _ _ _ _ _ _ Efb) as [E | E];
      inversion E; subst; assumption.
  - exfalso. exact (frontBack_not_crossing w1 w2 _ _ Hnc Efb).
Qed.


End Combination.

(** Two parallel walls, viewer in front of both, silhouettes apart. *)
Lemma combineTerrainWalls_none_witness :
  fst (@combineTerrainWalls (testHost false None)
         [wallOf 0 0 4 0; wallOf 0 2 4 2] (mkPoint3d 2 (-3) 5)) = None.
Proof.
  destruct (@combineTerrainWalls_none (testHost false None) (mkPoint3d 2 (-3) 5))
    as (_ & _ & _ & Htwo).
  apply Htwo.
  - vm_compute. discriminate.
  - vm_compute. discriminate.
  - unfold strictlyCross. vm_compute. intros (_ & _ & Hne & _). apply Hne. reflexivity.
  - reflexivity.
  - reflexivity.
Defined.

(** The same walls with silhouettes that do intersect give a result. *)
Example combineTerrainWalls_some :
  fst (@combineTerrainWalls (testHost true None)
         [wallOf 0 0 4 0; wallOf 0 2 4 2] (mkPoint3d 2 (-3) 5))
  = Some (mkClipperPaths
            [[mkPoint 0 0; mkPoint 4 0; mkPoint 4 0; mkPoint 0 0]]).
Proof. vm_compute. reflexivity. Qed.


Example cross_run_result :
  @combineTerrainWalls (testHost true None)
    [wallOf 0 0 4 4; wallOf 0 4 4 0; wallOf 0 6 4 6] (mkPoint3d 2 (-3) 5)
  = (Some (mkClipperPaths
             [[mkPoint 0 0; mkPoint 4 4; mkPoint 4 4; mkPoint 0 0];
              [mkPoint 0 4; mkPoint 4 0; mkPoint 4 0; mkPoint 0 4]]),
     [warnNoIntersection]).
Proof. vm_compute. reflexivity. Qed.

End WallProofs.

(** ** Properties of the catalog and of the classification *)

Module CoverTypeProofs.
Import CoverType.

(** *** The derived lists *)

Lemma partition_loop (m : list CoverType) :
  forall o u,
    fold_left
      (fun (acc : list CoverType * list CoverType) coverType =>
         if negb (JS.truthy (priorityValue coverType))
         then (fst acc, snd acc ++ [coverType])
         else (fst acc ++ [coverType], snd acc))
      m (o, u)
    = (o ++ filter prioritized m, u ++ filter unprioritized m).
Proof.
  induction m as [| ct m IH]; intros o u; simpl.
  - rewrite !app_nil_r. reflexivity.
  - unfold unprioritized, prioritized.
    destruct (JS.truthy (priorityValue ct)); simpl; rewrite IH, <- app_assoc; reflexivity.
Qed.

Lemma updateCoverTypesOrder_eq (s : Catalog) :
  updateCoverTypesOrder s
  = mkCatalog (coverObjectsMap s) (rebuiltOrdered (coverObjectsMap s))
              (rebuiltUnordered (coverObjectsMap s)) false.
Proof.
  unfold updateCoverTypesOrder. rewrite partition_loop. reflexivity.
Qed.

Section Sorting.

Context {T : Type} (cmp : T -> T -> Z).

Lemma sortInsert_perm (x : T) (l : list T) :
  Permutation (sortInsert cmp x l) (x :: l).
Proof.
  induction l as [| y l IH]; simpl; [apply Permutation_refl |].
  destruct (cmp x y <=? 0); [apply Permutation_refl |].
  eapply perm_trans; [apply perm_skip, IH | apply perm_swap].
Qed.

Lemma Array_sort_perm (l : list T) : Permutation (Array_sort cmp l) l.
Proof.
  induction l as [| x l IH]; simpl; [apply perm_nil |].
  eapply perm_trans; [apply sortInsert_perm | apply perm_skip, IH].
Qed.

End Sorting.

Lemma sortInsert_descending (x : CoverType) (l : list CoverType) :
  descending l -> descending (sortInsert byPriority x l).
Proof.
  unfold descending.
  induction l as [| y l IH]; intros Hs; simpl.
  - constructor; constructor.
  - inversion Hs as [| y' l' Hl Hy]; subst.
    destruct (Z.leb_spec (byPriority x y) 0) as [Hle | Hgt]; unfold byPriority in *.
    + constructor; [exact Hs |].
      constructor; [lia |].
      eapply Forall_impl; [| exact Hy]. simpl. intros z Hz. lia.
    + constructor; [apply IH; exact Hl |].
      apply (Permutation_Forall (Permutation_sym (sortInsert_perm byPriority x l))).
      constructor; [lia | exact Hy].
Qed.

Lemma Array_sort_descending (l : list CoverType) : descending (Array_sort byPriority l).
Proof.
  induction l as [| x l IH]; simpl; [constructor | apply sortInsert_descending, IH].
Qed.

Lemma partition_perm (m : list CoverType) :
  Permutation (filter prioritized m ++ filter unprioritized m) m.
Proof.
  induction m as [| ct m IH]; simpl; [apply perm_nil |].
  unfold unprioritized at 1. destruct (prioritized ct); simpl.
  - apply perm_skip, IH.
  - eapply perm_trans; [apply Permutation_sym, Permutation_middle | apply perm_skip, IH].
Qed.

Lemma rebuilt_perm (m : list CoverType) :
  Permutation (rebuiltOrdered m ++ rebuiltUnordered m) m.
Proof.
  eapply perm_trans; [| apply partition_perm].
  apply Permutation_app_tail, Array_sort_perm.
Qed.

Lemma rebuiltOrdered_prioritized (m : list CoverType) :
  Forall (fun ct => prioritized ct = true) (rebuiltOrdered m).
Proof.
  apply (Permutation_Forall (Permutation_sym (Array_sort_perm byPriority _))).
  apply Forall_forall. intros ct Hin. apply filter_In in Hin. apply Hin.
Qed.

Lemma rebuiltUnordered_unprioritized (m : list CoverType) :
  Forall (fun ct => prioritized ct = false) (rebuiltUnordered m).
Proof.
  apply Forall_forall. intros ct Hin. apply filter_In in Hin.
  destruct Hin as [_ Hu]. unfold unprioritized in Hu.
  destruct (prioritized ct); [discriminate | reflexivity].
Qed.

Lemma reachable_consistent (s : Catalog) : reachable s -> consistent s.
Proof.
  induction 1 as [| ct s _ _ | key config s _ _ | key s _ _ | s _ IH | s _ IH];
    unfold consistent; simpl;
    try (rewrite orb_true_r; discriminate); try discriminate.
  - destruct (coverTypesModified s) eqn:Em.
    + rewrite updateCoverTypesOrder_eq. simpl. auto.
    + intros _. apply IH. exact Em.
  - destruct (coverTypesModified s) eqn:Em.
    + rewrite updateCoverTypesOrder_eq. simpl. auto.
    + intros _. apply IH. exact Em.
Qed.

(** Either getter leaves the same state: rebuilt lists, clean flag. *)
Lemma read_state (s : Catalog) :
  consistent s ->
  snd (coverTypesUnordered s) = snd (coverTypesOrdered s)
  /\ snd (coverTypesOrdered s)
     = mkCatalog (coverObjectsMap s) (rebuiltOrdered (coverObjectsMap s))
                 (rebuiltUnordered (coverObjectsMap s)) false.
Proof.
  intros Hc. split; [reflexivity |].
  unfold coverTypesOrdered. simpl.
  destruct (coverTypesModified s) eqn:Em.
  - apply updateCoverTypesOrder_eq.
  - destruct (Hc Em) as [Ho Hu]. destruct s as [m o u md]. simpl in *. subst. reflexivity.
Qed.

(** C3: in every state the catalog reaches by adding, updating and
    removing cover types (and reading), a read of either derived list
    leaves two lists that together are a permutation of the catalog, the
    ordered one holding the entries with a truthy priority, sorted
    descending by priority value, the unordered one holding the others;
    every mutation sets the modified flag, and a read with the flag set
    rebuilds both lists from the catalog and clears it. *)
Theorem derived_lists_partition (s : Catalog) :
  reachable s ->
  let s' := snd (coverTypesOrdered s) in
  snd (coverTypesUnordered s) = s'
  /\ fst (coverTypesOrdered s) = coverTypesOrdered_ s'
  /\ fst (coverTypesUnordered s) = coverTypesUnordered_ s'
  /\ coverObjectsMap s' = coverObjectsMap s
  /\ Permutation (coverTypesOrdered_ s' ++ coverTypesUnordered_ s') (coverObjectsMap s)
  /\ Forall (fun ct => prioritized ct = true) (coverTypesOrdered_ s')
  /\ Forall (fun ct => prioritized ct = false) (coverTypesUnordered_ s')
  /\ descending (coverTypesOrdered_ s')
  /\ coverTypesModified s' = false
  /\ (forall ct, coverTypesModified (addCoverType ct s) = true)
  /\ (forall key config, coverTypesModified (updateCoverType key config s) = true)
  /\ (forall key, coverTypesModified (removeCoverType key s) = true)
  /\ (coverTypesModified s = true -> s' = updateCoverTypesOrder s).
Proof.
  intros Hr s'.
  pose proof (read_state s (reachable_consistent s Hr)) as [Hsame Hs'].
  fold s' in Hs'.
  split; [exact Hsame |].
  split; [reflexivity |].
  split; [reflexivity |].
  rewrite Hs'. simpl.
  split; [reflexivity |].
  split; [apply rebuilt_perm |].
  split; [apply rebuiltOrdered_prioritized |].
  split; [apply rebuiltUnordered_unprioritized |].
  split; [apply Array_sort_descending |].
  split; [reflexivity |].
  split; [intros ct; apply orb_true_r |].
  split; [intros key config; apply orb_true_r |].
  split; [intros key; apply orb_true_r |].
  intros Em. rewrite updateCoverTypesOrder_eq. reflexivity.
Qed.

(** *** Sets hold an object once *)

Lemma same_refl (ct : CoverType) : same ct ct = true.
Proof. unfold same. destruct (CoverType_eq_dec ct ct); [reflexivity | contradiction]. Qed.

Lemma same_eq (a b : CoverType) : same a b = true -> a = b.
Proof. unfold same. destruct (CoverType_eq_dec a b); [trivial | discriminate]. Qed.

Lemma Set_has_In (l : list CoverType) (ct : CoverType) :
  Set_has l ct = true <-> In ct l.
Proof.
  unfold Set_has. rewrite existsb_exists. split.
  - intros [c [Hin Hs]]. apply same_eq in Hs. subst. exact Hin.
  - intros Hin. exists ct. split; [exact Hin | apply same_refl].
Qed.

Lemma Set_has_false (l : list CoverType) (ct : CoverType) :
  Set_has l ct = false -> ~ In ct l.
Proof.
  intros Hf Hin. apply Set_has_In in Hin. congruence.
Qed.

Lemma NoDup_snoc (l : list CoverType) (ct : CoverType) :
  NoDup l -> ~ In ct l -> NoDup (l ++ [ct]).
Proof.
  intros Hd Hn. apply NoDup_app.
  - exact Hd.
  - constructor; [simpl; tauto | constructor].
  - intros c Hc [<- | []]. exact (Hn Hc).
Qed.

Lemma Set_add_NoDup (l : list CoverType) (ct : CoverType) :
  NoDup l -> NoDup (Set_add ct l).
Proof.
  intros Hd. unfold Set_add. destruct (Set_has l ct) eqn:Eh; [exact Hd |].
  apply NoDup_snoc; [exact Hd | apply Set_has_false, Eh].
Qed.

Lemma Set_add_fresh (l : list CoverType) (ct : CoverType) :
  ~ In ct l -> Set_add ct l = l ++ [ct].
Proof.
  intros Hn. unfold Set_add. destruct (Set_has l ct) eqn:Eh; [| reflexivity].
  apply Set_has_In in Eh. contradiction.
Qed.

(** Adding the members of a duplicate-free list appends the list. *)
Lemma fold_Set_add_NoDup (u : list CoverType) :
  forall o, NoDup (o ++ u) ->
    fold_left (fun acc ct => Set_add ct acc) u o = o ++ u.
Proof.
  induction u as [| ct u IH]; intros o Hd; simpl; [rewrite app_nil_r; reflexivity |].
  assert (Hfresh : ~ In ct o).
  { apply NoDup_remove_2 in Hd. intros Hin. apply Hd.
    apply in_or_app. left. exact Hin. }
  rewrite (Set_add_fresh o ct Hfresh).
  rewrite IH; rewrite <- app_assoc; [reflexivity | exact Hd].
Qed.

Lemma descending_prefix (a b : list CoverType) : descending (a ++ b) -> descending a.
Proof.
  unfold descending. induction a as [| x a IH]; simpl; intros Hs; [constructor |].
  inversion Hs as [| x' l' Hl Hx]; subst.
  constructor; [apply IH, Hl |].
  apply Forall_app in Hx. apply Hx.
Qed.

Lemma filter_none {T : Type} (f : T -> bool) (l : list T) :
  Forall (fun v => f v = false) l -> filter f l = [].
Proof.
  induction 1 as [| v l Hv _ IH]; simpl; [reflexivity |]. rewrite Hv. exact IH.
Qed.

Lemma last_match_ends {T : Type} (P : T -> Prop) (pre0 : list T) (c0 : T) :
  Forall (fun v => ~ P v) pre0 ->
  forall pre c post, pre0 ++ [c0] = pre ++ c :: post -> P c -> post = [].
Proof.
  induction 1 as [| v pre0 Hv _ IH]; intros pre c post Heq Hc.
  - destruct pre as [| v' pre]; simpl in Heq.
    + inversion Heq. reflexivity.
    + inversion Heq as [[Hv' Hrest]]. destruct pre; discriminate.
  - destruct pre as [| v' pre]; simpl in Heq.
    + inversion Heq; subst. contradiction.
    + inversion Heq; subst. eapply IH; eauto.
Qed.

(** *** The two loops of coverTypesForToken *)

Section Loops.

Context `{Calculator}.
Variables attackingToken targetToken : Token.

Local Abbreviation applies ct := (coverTypeApplies ct attackingToken targetToken).

(** The ordered loop either finds no match and tests the whole list,
    or stops on the first type that applies. *)
Lemma orderedLoop_cases (l types : list CoverType) :
  (Forall (fun ct => applies ct = false) l
   /\ orderedLoop l attackingToken targetToken types = (types, l))
  \/ (exists pre ct post,
         l = pre ++ ct :: post
         /\ Forall (fun c => applies c = false) pre
         /\ applies ct = true
         /\ orderedLoop l attackingToken targetToken types
            = (Set_add ct types, pre ++ [ct])).
Proof.
  induction l as [| c l IH]; simpl.
  - left. split; [constructor | reflexivity].
  - destruct (applies c) eqn:Ec.
    + right. exists [], c, l. repeat split; [constructor | exact Ec].
    + destruct IH as [[Hall Heq] | (pre & ct & post & Hl & Hpre & Hct & Heq)].
      * left. split; [constructor; assumption |]. rewrite Heq. reflexivity.
      * right. exists (c :: pre), ct, post. rewrite Heq, Hl.
        repeat split; try assumption. constructor; assumption.
Qed.

(** The unordered loop only appends members of its list, and (the
    test on [types.length] never holding) it tests every member. *)
Lemma unorderedLoop_spec (l : list CoverType) :
  forall types,
    snd (unorderedLoop l attackingToken targetToken types) = l
    /\ exists extra,
        fst (unorderedLoop l attackingToken targetToken types) = types ++ extra
        /\ incl extra l
        /\ (forall ct, In ct l -> applies ct = true ->
                       Set_has (types ++ extra) ct = true)
        /\ (NoDup types -> NoDup (types ++ extra)).
Proof.
  induction l as [| c l IH]; intros types; simpl.
  - split; [reflexivity |]. exists []. rewrite app_nil_r.
    repeat split; [apply incl_refl | intros ct [] | tauto].
  - unfold Set_length. simpl. rewrite andb_false_r.
    destruct (applies c) eqn:Ec; simpl.
    + destruct (IH (Set_add c types)) as [Ht (extra & Hf & Hincl & Happ & Hd)].
      split; [rewrite Ht; reflexivity |].
      unfold Set_add in *. destruct (Set_has types c) eqn:Eh.
      * exists extra. rewrite Hf.
        repeat split; [apply incl_tl, Hincl | | exact Hd].
        intros ct [<- | Hin] Hct; [| apply Happ; assumption].
        unfold Set_has in *. rewrite existsb_app, Eh. reflexivity.
      * exists (c :: extra). rewrite Hf, <- app_assoc. simpl.
        repeat split.
        -- apply incl_cons; [left; reflexivity | apply incl_tl, Hincl].
        -- intros ct [<- | Hin] Hct.
           ++ unfold Set_has. rewrite existsb_app. simpl.
              rewrite same_refl, orb_true_r. reflexivity.
           ++ specialize (Happ ct Hin Hct). rewrite <- app_assoc in Happ. exact Happ.
        -- intros Hdt. rewrite <- app_assoc in Hd. apply Hd.
           apply NoDup_snoc; [exact Hdt | apply Set_has_false, Eh].
    + destruct (IH types) as [Ht (extra & Hf & Hincl & Happ & Hd)].
      split; [rewrite Ht; reflexivity |].
      exists extra. rewrite Hf.
      repeat split; [apply incl_tl, Hincl | | exact Hd].
      intros ct [<- | Hin] Hct; [congruence | apply Happ; assumption].
Qed.

End Loops.

(** *** coverTypesForToken *)

Section ForToken.

Context `{Calculator}.
Variables attackingToken targetToken : Token.

Local Abbreviation applies ct := (coverTypeApplies ct attackingToken targetToken).

(** From a consistent catalog, a run is the two loops over the
    rebuilt lists. *)
Lemma coverTypesForToken_run_eq (s : Catalog) :
  consistent s ->
  let m := coverObjectsMap s in
  let o := orderedLoop (rebuiltOrdered m) attackingToken targetToken [] in
  let u := unorderedLoop (rebuiltUnordered m) attackingToken targetToken (fst o) in
  coverTypesForToken_run s attackingToken targetToken
  = mkRun (fst u) (snd o) (snd u)
          (mkCatalog m (rebuiltOrdered m) (rebuiltUnordered m) false).
Proof.
  intros Hc m o u. unfold coverTypesForToken_run.
  pose proof (read_state s Hc) as [_ Hs'].
  destruct (coverTypesOrdered s) as [ordered s1] eqn:Eo.
  assert (Hord : ordered = coverTypesOrdered_ s1).
  { unfold coverTypesOrdered in Eo. inversion Eo. reflexivity. }
  simpl in Hs'. subst s1. simpl in Hord. subst ordered.
  fold m. fold o. destruct o as [types tested1] eqn:Eloop.
  unfold coverTypesUnordered. simpl. fold m. fold u.
  subst u. simpl. destruct (unorderedLoop _ _ _ types) as [types' tested2].
  reflexivity.
Qed.

(** C2: the ordered list holds the prioritized categories of the
    catalog in descending priority.  The first loop tests it from the
    front: when no category of it applies, all of it is tested and the
    result holds no prioritized category; otherwise the categories
    before the first one that applies are tested and do not apply, that
    one is tested last and is the one prioritized category of the
    result, and what follows it in the list is not tested.  No
    prioritized category is tested by the second loop. *)
Theorem prioritized_first_match (s : Catalog) :
  reachable s ->
  let r := coverTypesForToken_run s attackingToken targetToken in
  (exists untested, fst (coverTypesOrdered s) = testedOrdered r ++ untested)
  /\ descending (testedOrdered r)
  /\ Forall (fun ct => prioritized ct = true) (testedOrdered r)
  /\ (forall pre ct post,
        testedOrdered r = pre ++ ct :: post -> applies ct = true ->
        post = [] /\ In ct (result r))
  /\ Forall (fun ct => prioritized ct = false) (testedUnordered r)
  /\ (List.length (filter prioritized (result r)) <= 1)%nat
  /\ descending (fst (coverTypesOrdered s))
  /\ (forall ct, In ct (fst (coverTypesOrdered s))
                 <-> In ct (coverObjectsMap s) /\ prioritized ct = true)
  /\ ((Forall (fun ct => applies ct = false) (fst (coverTypesOrdered s))
       /\ testedOrdered r = fst (coverTypesOrdered s)
       /\ filter prioritized (result r) = [])
      \/ (exists pre ct post,
             fst (coverTypesOrdered s) = pre ++ ct :: post
             /\ Forall (fun c => applies c = false) pre
             /\ applies ct = true
             /\ testedOrdered r = pre ++ [ct]
             /\ filter prioritized (result r) = [ct])).
Proof.
  intros Hr r.
  pose proof (reachable_consistent s Hr) as Hc.
  pose proof (read_state s Hc) as [_ Hs'].
  assert (Hfst : fst (coverTypesOrdered s) = rebuiltOrdered (coverObjectsMap s)).
  { change (fst (coverTypesOrdered s)) with (coverTypesOrdered_ (snd (coverTypesOrdered s))).
    rewrite Hs'. reflexivity. }
  rewrite Hfst. subst r. rewrite (coverTypesForToken_run_eq s Hc). simpl.
  set (ordered := rebuiltOrdered (coverObjectsMap s)).
  set (unordered := rebuiltUnordered (coverObjectsMap s)).
  pose proof (Array_sort_descending (filter prioritized (coverObjectsMap s))) as Hdesc.
  pose proof (rebuiltOrdered_prioritized (coverObjectsMap s)) as Hprio.
  pose proof (rebuiltUnordered_unprioritized (coverObjectsMap s)) as Hunprio.
  fold (rebuiltOrdered (coverObjectsMap s)) in Hdesc.
  fold ordered in Hdesc, Hprio. fold unordered in Hunprio.
  assert (Hmem : forall ct, In ct ordered
                            <-> In ct (coverObjectsMap s) /\ prioritized ct = true).
  { intros ct. rewrite <- filter_In. unfold ordered, rebuiltOrdered. split; intros Hin.
    - eapply Permutation_in; [apply Array_sort_perm | exact Hin].
    - eapply Permutation_in; [apply Permutation_sym, Array_sort_perm | exact Hin]. }
  destruct (orderedLoop_cases attackingToken targetToken ordered [])
    as [[Hnone Heq] | (pre0 & c0 & post0 & Hl & Hpre & Hc0 & Heq)];
    rewrite Heq; simpl;
    destruct (unorderedLoop_spec attackingToken targetToken unordered
                (fst (orderedLoop ordered attackingToken targetToken [])))
      as [Htested (extra & Hres & Hincl & _ & _)];
    rewrite Heq in Htested, Hres; simpl in Htested, Hres;
    rewrite Htested, Hres;
    assert (Hextra : Forall (fun ct => prioritized ct = false) extra)
      by (apply Forall_forall; intros ct Hin;
          exact (proj1 (Forall_forall _ _) Hunprio ct (Hincl ct Hin))).
  - split; [exists []; rewrite app_nil_r; reflexivity |].
    split; [exact Hdesc |].
    split; [exact Hprio |].
    split.
    { intros pre ct post Ht Hct. exfalso.
      assert (Hin : In ct ordered) by (rewrite Ht; apply in_or_app; right; left; reflexivity).
      pose proof (proj1 (Forall_forall _ _) Hnone ct Hin) as Hf. simpl in Hf. congruence. }
    split; [exact Hunprio |].
    split; [simpl; rewrite (filter_none prioritized extra Hextra); simpl; lia |].
    split; [exact Hdesc |].
    split; [exact Hmem |].
    left. split; [exact Hnone |]. split; [reflexivity |].
    simpl. apply filter_none, Hextra.
  - split; [exists post0; rewrite Hl, <- app_assoc; reflexivity |].
    split; [apply (descending_prefix _ post0); rewrite <- app_assoc; simpl; rewrite <- Hl;
            exact Hdesc |].
    split.
    { rewrite Hl in Hprio. apply Forall_app in Hprio. destruct Hprio as [Hp1 Hp2].
      apply Forall_app. split; [exact Hp1 |].
      constructor; [inversion Hp2; assumption | constructor]. }
    split.
    { intros pre ct post Ht Hct.
      assert (Hpost : post = []).
      { apply (last_match_ends (fun c => applies c = true) pre0 c0) with (pre := pre) (c := ct);
          [| exact Ht | exact Hct].
        eapply Forall_impl; [| exact Hpre]. simpl. intros c Hcf. congruence. }
      split; [exact Hpost |].
      subst post. apply app_inj_tail in Ht. destruct Ht as [_ <-].
      unfold Set_add. simpl. left. reflexivity. }
    split; [exact Hunprio |].
    split; [simpl; destruct (prioritized c0); simpl;
            rewrite (filter_none prioritized extra Hextra); simpl; lia |].
    split; [exact Hdesc |].
    split; [exact Hmem |].
    right. exists pre0, c0, post0.
    split; [exact Hl |]. split; [exact Hpre |]. split; [exact Hc0 |].
    split; [reflexivity |].
    assert (Hpc : prioritized c0 = true).
    { apply (proj1 (Hmem c0)). rewrite Hl. apply in_or_app. right. left. reflexivity. }
    unfold Set_add. simpl. rewrite Hpc, (filter_none prioritized extra Hextra).
    reflexivity.
Qed.

(** Every category without priority that applies is in the result,
    whatever its [canOverlap] flag and whatever was added before. *)
Lemma unprioritized_always_added (s : Catalog) (ct : CoverType) :
  reachable s ->
  In ct (coverObjectsMap s) -> prioritized ct = false -> applies ct = true ->
  In ct (coverTypesForToken s attackingToken targetToken).
Proof.
  intros Hr Hin Hun Happ.
  unfold coverTypesForToken.
  rewrite (coverTypesForToken_run_eq s (reachable_consistent s Hr)). simpl.
  destruct (unorderedLoop_spec attackingToken targetToken
              (rebuiltUnordered (coverObjectsMap s))
              (fst (orderedLoop (rebuiltOrdered (coverObjectsMap s))
                      attackingToken targetToken [])))
    as [_ (extra & Hres & _ & Hadd & _)].
  rewrite Hres. apply Set_has_In. apply Hadd; [| exact Happ].
  unfold rebuiltUnordered. apply filter_In. split; [exact Hin |].
  unfold unprioritized. rewrite Hun. reflexivity.
Qed.

(** The result: at most one prioritized category, then categories
    without priority, each object once. *)
Lemma coverTypesForToken_shape (s : Catalog) :
  reachable s ->
  exists first rest,
    coverTypesForToken s attackingToken targetToken = first ++ rest
    /\ (first = [] \/ exists p, first = [p] /\ prioritized p = true)
    /\ Forall (fun ct => prioritized ct = false) rest
    /\ NoDup (first ++ rest).
Proof.
  intros Hr. pose proof (reachable_consistent s Hr) as Hc.
  unfold coverTypesForToken. rewrite (coverTypesForToken_run_eq s Hc). simpl.
  pose proof (rebuiltOrdered_prioritized (coverObjectsMap s)) as Hprio.
  pose proof (rebuiltUnordered_unprioritized (coverObjectsMap s)) as Hunprio.
  set (ordered := rebuiltOrdered (coverObjectsMap s)) in *.
  set (unordered := rebuiltUnordered (coverObjectsMap s)) in *.
  destruct (unorderedLoop_spec attackingToken targetToken unordered
              (fst (orderedLoop ordered attackingToken targetToken [])))
    as [_ (extra & Hres & Hincl & _ & Hnd)].
  exists (fst (orderedLoop ordered attackingToken targetToken [])), extra.
  split; [exact Hres |].
  assert (Hextra : Forall (fun ct => prioritized ct = false) extra)
    by (apply Forall_forall; intros ct Hin;
        exact (proj1 (Forall_forall _ _) Hunprio ct (Hincl ct Hin))).
  destruct (orderedLoop_cases attackingToken targetToken ordered [])
    as [[_ Heq] | (pre0 & c0 & post0 & Hl & _ & _ & Heq)];
    rewrite Heq in *; simpl in *.
  - repeat split; [left; reflexivity | exact Hextra | apply Hnd; constructor].
  - repeat split; [| exact Hextra | apply Hnd; repeat constructor; simpl; tauto].
    right. exists c0. split; [reflexivity |].
    rewrite Hl in Hprio. apply Forall_app in Hprio. destruct Hprio as [_ Hp].
    inversion Hp. assumption.
Qed.

Lemma splitCoverTypes_unprioritized (u : list CoverType) :
  Forall (fun ct => prioritized ct = false) u ->
  forall m o,
    fold_left
      (fun (acc : option CoverType * list CoverType) ct =>
         let '(minCoverType, otherTypes) := acc in
         if negb (JS.truthy (priorityValue ct)) then (minCoverType, Set_add ct otherTypes)
         else
           match minCoverType with
           | None => (Some ct, otherTypes)
           | Some m =>
               if priorityNumber m >? priorityNumber ct
               then (Some ct, otherTypes) else (minCoverType, otherTypes)
           end)
      u (m, o)
    = (m, fold_left (fun acc ct => Set_add ct acc) u o).
Proof.
  induction 1 as [| ct u Hct _ IH]; intros m o; simpl; [reflexivity |].
  unfold prioritized in Hct. rewrite Hct. simpl. apply IH.
Qed.

(** C7: with no attacker the result is the empty set; with one
    attacker it is the set [coverTypesForToken] gives for that
    attacker and the target. *)
Theorem minimumCover_zero_one (s : Catalog) :
  reachable s ->
  minimumCoverFromAttackers s targetToken [] = Returned []
  /\ minimumCoverFromAttackers s targetToken [attackingToken]
     = Returned (coverTypesForToken s attackingToken targetToken).
Proof.
  intros Hr. split; [reflexivity |].
  destruct (coverTypesForToken_shape s Hr) as (first & rest & Hres & Hfirst & Hrest & Hnd).
  unfold minimumCoverFromAttackers, attackersLoop, coverTypesFromAttacker.
  fold (coverTypesForToken s attackingToken targetToken). rewrite Hres.
  unfold splitCoverTypes. rewrite fold_left_app.
  destruct Hfirst as [-> | (p & -> & Hp)]; simpl.
  - rewrite (splitCoverTypes_unprioritized rest Hrest).
    rewrite (fold_Set_add_NoDup rest [] Hnd). simpl.
    unfold Set_union. rewrite (fold_Set_add_NoDup rest [] Hnd). reflexivity.
  - unfold prioritized in Hp. rewrite Hp. simpl.
    rewrite (splitCoverTypes_unprioritized rest Hrest).
    assert (Hnd' : NoDup ([] ++ rest)) by (simpl in Hnd; inversion Hnd; assumption).
    rewrite (fold_Set_add_NoDup rest [] Hnd'). simpl.
    unfold Set_union. rewrite (fold_Set_add_NoDup rest [p] Hnd). reflexivity.
Qed.

End ForToken.

(** *** Icons on a token *)

Lemma icons_has_In (l : list string) (e : string) : icons_has l e = true <-> In e l.
Proof.
  unfold icons_has. rewrite existsb_exists. split.
  - intros [e' [Hin He]]. apply String.eqb_eq in He. subst. exact Hin.
  - intros Hin. exists e. split; [exact Hin | apply String.eqb_refl].
Qed.

Lemma fold_icons_add_In (l : list string) (e : string) :
  forall acc, In e (fold_left (fun a i => icons_add i a) l acc) <-> In e acc \/ In e l.
Proof.
  induction l as [| i l IH]; intros acc; simpl; [tauto |].
  rewrite IH. unfold icons_add. destruct (icons_has acc i) eqn:Eh.
  - apply icons_has_In in Eh. split; [tauto |].
    intros [Ha | [<- | Hl]]; tauto.
  - rewrite in_app_iff. simpl. tauto.
Qed.

Lemma iconSet_In (l : list string) (e : string) : In e (iconSet l) <-> In e l.
Proof. unfold iconSet. rewrite fold_icons_add_In. simpl. tauto. Qed.

Lemma fold_Set_add_In (l : list CoverType) (ct : CoverType) :
  forall acc, In ct (fold_left (fun a c => Set_add c a) l acc) <-> In ct acc \/ In ct l.
Proof.
  induction l as [| c l IH]; intros acc; simpl; [tauto |].
  rewrite IH. unfold Set_add. destruct (Set_has acc c) eqn:Eh.
  - apply Set_has_In in Eh. split; [tauto |].
    intros [Ha | [<- | Hl]]; tauto.
  - rewrite in_app_iff. simpl. tauto.
Qed.

Lemma Set_union_nil_In (l : list CoverType) (ct : CoverType) :
  In ct (Set_union [] l) <-> In ct l.
Proof. unfold Set_union. rewrite fold_Set_add_In. simpl. tauto. Qed.

Lemma iconsOf_union (l : list CoverType) (e : string) :
  In e (iconsOf (Set_union [] l)) <-> In e (iconsOf l).
Proof.
  unfold iconsOf. rewrite !in_map_iff.
  split; intros [ct [He Hin]]; exists ct; (split; [exact He |]);
    apply Set_union_nil_In; exact Hin.
Qed.

Lemma removeFromToken_effects (ct : CoverType) (token : Token) (e : string) :
  In e (effects (snd (removeFromToken ct token))) -> In e (effects token).
Proof.
  unfold removeFromToken.
  destruct (existsb _ _); simpl; [| trivial].
  unfold findSpliceAll. intros Hin. apply filter_In in Hin. apply Hin.
Qed.

Lemma removal_loop_effects (test : CoverType -> bool) (others : list CoverType)
    (e : string) :
  forall token,
    In e (effects (fold_left
                     (fun tk other =>
                        if test other then snd (removeFromToken other tk) else tk)
                     others token)) ->
    In e (effects token).
Proof.
  induction others as [| o others IH]; intros token; simpl; [trivial |].
  intros Hin. apply IH in Hin.
  destruct (test o); [apply (removeFromToken_effects o), Hin | exact Hin].
Qed.

(** [addToToken] adds at most the type's own icon. *)
Lemma addToToken_effects (catalog : list CoverType) (ct : CoverType) (token : Token)
    (e : string) :
  In e (effects (snd (addToToken catalog ct token))) ->
  In e (effects token) \/ e = icon (document ct).
Proof.
  unfold addToToken.
  destruct (existsb _ (effects token)); simpl; [tauto |].
  destruct (canOverlap (document ct)); simpl; rewrite in_app_iff; simpl.
  - intros [Hin | [<- | []]]; tauto.
  - intros [Hin | [<- | []]]; [| tauto].
    left. eapply removal_loop_effects. exact Hin.
Qed.

(** With its icon on the token already, [addToToken] does nothing. *)
Lemma addToToken_present (catalog : list CoverType) (ct : CoverType) (token : Token) :
  In (icon (document ct)) (effects token) ->
  addToToken catalog ct token = (false, token).
Proof.
  intros Hin. unfold addToToken.
  assert (Hex : existsb (String.eqb (icon (document ct))) (effects token) = true)
    by (apply (icons_has_In (effects token)), Hin).
  rewrite Hex. reflexivity.
Qed.

Lemma add_loop_effects (catalog : list CoverType) (wanted : list string)
    (coverTypes : list CoverType) :
  (forall ct, In ct coverTypes -> In (icon (document ct)) wanted) ->
  forall acc,
    (forall e, In e (effects (snd acc)) -> In e wanted) ->
    forall e,
      In e (effects (snd (fold_left
                            (fun (a : bool * Token) ct =>
                               let out := addToToken catalog ct (snd a) in
                               (fst a || fst out, snd out))
                            coverTypes acc))) ->
      In e wanted.
Proof.
  induction coverTypes as [| ct cts IH]; intros Hw acc Hacc e; simpl; [apply Hacc |].
  apply IH.
  - intros c Hc. apply Hw. right. exact Hc.
  - simpl. intros e' He'. apply addToToken_effects in He'.
    destruct He' as [Hin | ->]; [apply Hacc, Hin | apply Hw; left; reflexivity].
Qed.

Lemma add_loop_present (catalog : list CoverType) (token : Token)
    (coverTypes : list CoverType) :
  (forall ct, In ct coverTypes -> In (icon (document ct)) (effects token)) ->
  fold_left
    (fun (a : bool * Token) ct =>
       let out := addToToken catalog ct (snd a) in
       (fst a || fst out, snd out))
    coverTypes (false, token)
  = (false, token).
Proof.
  induction coverTypes as [| ct cts IH]; intros Hall; simpl; [reflexivity |].
  rewrite addToToken_present by (apply Hall; left; reflexivity).
  simpl. apply IH. intros c Hc. apply Hall. right. exact Hc.
Qed.

(** As written, [replaceCoverTypes] leaves on the token only icons of
    the desired cover types, so every other icon is removed, whether
    a cover category owns it or not; when the icons on the token are
    exactly those of the desired cover types the token is unchanged
    and the value returned is falsy. *)
Theorem replaceCoverTypes_reconciles (catalog : list CoverType) (token : Token)
    (coverTypes : list CoverType) :
  (forall e, In e (effects (snd (replaceCoverTypes catalog token coverTypes))) ->
             In e (iconsOf coverTypes))
  /\ ((forall e, In e (effects token) <-> In e (iconsOf coverTypes)) ->
      snd (replaceCoverTypes catalog token coverTypes) = token
      /\ JS.truthy (fst (replaceCoverTypes catalog token coverTypes)) = false).
Proof.
  unfold replaceCoverTypes.
  destruct (Set_union [] coverTypes) as [| c0 cs] eqn:Eu.
  - assert (Hnil : coverTypes = []).
    { destruct coverTypes as [| c l]; [reflexivity |].
      assert (Hin : In c (Set_union [] (c :: l)))
        by (apply Set_union_nil_In; left; reflexivity).
      rewrite Eu in Hin. destruct Hin. }
    subst coverTypes. split.
    + destruct (effects token) as [| e0 es] eqn:Ee; simpl; intros e He;
        [rewrite Ee in He |]; destruct He.
    + intros Hsame. destruct (effects token) as [| e0 es] eqn:Ee.
      * repeat split; congruence.
      * exfalso. apply (Hsame e0). left. reflexivity.
  - set (cts := c0 :: cs) in *.
    set (toKeep := iconSet (map (fun ct => icon (document ct)) cts)).
    set (toRemove := filter (fun e => negb (icons_has toKeep e)) (iconSet (effects token))).
    assert (HtoKeep : forall e, In e toKeep <-> In e (iconsOf coverTypes)).
    { intros e. unfold toKeep. rewrite iconSet_In.
      fold (iconsOf cts). rewrite <- Eu. apply iconsOf_union. }
    assert (Hne : coverTypes <> []).
    { intros ->. unfold cts in Eu. discriminate Eu. }
    split.
    + set (token1 := if JS.truthy (JS.VNum (Z.of_nat (List.length toRemove)))
                     then setEffects token
                            (findSpliceAll (effects token) (icons_has toRemove))
                     else token).
      assert (H1 : forall e, In e (effects token1) -> In e (iconsOf coverTypes)).
      { intros e He. apply HtoKeep.
        assert (Hboth : In e (effects token) /\ ~ In e toRemove).
        { unfold token1 in He. simpl in He.
          destruct (Z.eqb_spec (Z.of_nat (List.length toRemove)) 0) as [Hz | Hnz];
            simpl in He.
          - split; [exact He |].
            destruct toRemove; [tauto | simpl in Hz; lia].
          - unfold findSpliceAll in He. apply filter_In in He.
            destruct He as [Hin Hnot]. split; [exact Hin |].
            intros Hr. apply icons_has_In in Hr. rewrite Hr in Hnot. discriminate. }
        destruct Hboth as [Hin Hnot].
        destruct (icons_has toKeep e) eqn:Ek; [apply icons_has_In, Ek |].
        exfalso. apply Hnot. unfold toRemove. apply filter_In.
        split; [apply iconSet_In, Hin | rewrite Ek; reflexivity]. }
      intros e He.
      destruct (fold_left _ cts (false, token1)) as [res token2] eqn:Ef.
      simpl in He.
      assert (Hw : forall ct, In ct cts -> In (icon (document ct)) (iconsOf coverTypes)).
      { intros ct Hct. unfold iconsOf. apply in_map_iff. exists ct.
        split; [reflexivity |]. apply Set_union_nil_In. rewrite Eu. exact Hct. }
      pose proof (add_loop_effects catalog (iconsOf coverTypes) cts Hw
                    (false, token1) H1 e) as Hfold.
      cbv zeta in Hfold. rewrite Ef in Hfold. apply Hfold. exact He.
    + intros Hsame.
      assert (Hnone : toRemove = []).
      { unfold toRemove. apply filter_none. apply Forall_forall. intros e He.
        apply (proj1 (iconSet_In _ _)) in He. apply (proj1 (Hsame e)) in He.
        apply (proj2 (HtoKeep e)) in He.
        apply (proj2 (icons_has_In _ _)) in He. rewrite He. reflexivity. }
      assert (Hp : forall ct, In ct cts -> In (icon (document ct)) (effects token)).
      { intros ct Hct. apply Hsame. unfold iconsOf. apply in_map_iff.
        exists ct. split; [reflexivity |]. apply Set_union_nil_In. rewrite Eu. exact Hct. }
      pose proof (add_loop_present catalog token cts Hp) as Hfold.
      cbv zeta in Hfold.
      rewrite Hnone. clearbody cts. simpl. rewrite Hfold.
      simpl. repeat split; congruence.
Qed.

(** *** The pf2e specialization *)

Section PF2E.

Context `{Calculator}.

Lemma upgradeLoop_found (tokens : list Token) (upgradeSize : option Z)
    (lesserCover standardCover : CoverType) (types : list CoverType) :
  (exists token, In token tokens /\ greater (sizeOf token) upgradeSize = true) ->
  upgradeLoop tokens upgradeSize lesserCover standardCover types
  = Set_add standardCover (Set_delete lesserCover types).
Proof.
  induction tokens as [| tk tokens IH]; intros (token & Hin & Hg); [destruct Hin |].
  simpl. destruct (greater (sizeOf tk) upgradeSize) eqn:Eg; [reflexivity |].
  apply IH. exists token. split; [| exact Hg].
  destruct Hin as [-> | Hin]; [congruence | exact Hin].
Qed.

(** When both lookups succeed the upgrade is the one described: a
    blocking token two size steps above the larger of attacker and
    target replaces lesser cover by standard cover. *)
Lemma pf2e_upgrade_when_found (s : Catalog) (attackingToken targetToken blocking : Token)
    (standardCover lesserCover : CoverType) (t a b : Z) :
  Map_get standardKey (coverObjectsMap s) = Some standardCover ->
  Map_get lesserKey (coverObjectsMap s) = Some lesserCover ->
  In lesserCover (coverTypesForToken s attackingToken targetToken) ->
  toNumber (sizeOf targetToken) = Some t ->
  toNumber (sizeOf attackingToken) = Some a ->
  In blocking (blockingTokens attackingToken) ->
  toNumber (sizeOf blocking) = Some b ->
  Z.max t a + 2 <= b ->
  coverTypesForToken_PF2E s attackingToken targetToken
  = Set_add standardCover
      (Set_delete lesserCover (coverTypesForToken s attackingToken targetToken)).
Proof.
  intros Hst Hle Hin Ht Ha Hb Hbs Hsize.
  unfold coverTypesForToken_PF2E. rewrite Hst, Hle.
  destruct (coverTypesForToken s attackingToken targetToken) as [| c0 cs] eqn:Et;
    [destruct Hin |].
  rewrite (proj2 (Set_has_In (c0 :: cs) lesserCover) Hin). simpl negb. cbv iota.
  apply upgradeLoop_found. exists blocking. split; [exact Hb |].
  unfold greater, upgradeSizeOf. rewrite Hbs, Ht, Ha.
  apply Z.gtb_lt. lia.
Qed.

(** Without an entry under one of the two keys nothing is upgraded. *)
Lemma pf2e_no_upgrade_without_keys (s : Catalog) (attackingToken targetToken : Token) :
  Map_get standardKey (coverObjectsMap s) = None
  \/ Map_get lesserKey (coverObjectsMap s) = None ->
  coverTypesForToken_PF2E s attackingToken targetToken
  = coverTypesForToken s attackingToken targetToken.
Proof.
  intros Hk. unfold coverTypesForToken_PF2E.
  destruct (coverTypesForToken s attackingToken targetToken); [reflexivity |].
  destruct Hk as [-> | Hk]; [reflexivity |].
  rewrite Hk. destruct (Map_get standardKey _); reflexivity.
Qed.

End PF2E.

End CoverTypeProofs.

(** ** The rules on the sample catalogs *)

Module SampleProofs.
Import CoverType Samples CoverTypeProofs.
Local Open Scope string_scope.
Local Open Scope Z_scope.

Lemma fold_add_reachable (l : list CoverType) :
  forall s, reachable s -> reachable (fold_left (fun s ct => addCoverType ct s) l s).
Proof.
  induction l as [| ct l IH]; intros s Hs; simpl; [exact Hs |].
  apply IH, reach_add, Hs.
Qed.

Lemma catalogOf_reachable (l : list CoverType) : reachable (catalogOf l).
Proof. apply fold_add_reachable, reach_initial. Qed.

(** The worked example of the spec: occlusions 0.8, 0.6, 0.3 and 0.1. *)
Example cover_at_80 :
  @coverTypesForToken (flat (4 # 5) []) catalogABC attacker target = [coverA; coverC].
Proof. vm_compute. reflexivity. Qed.

Example cover_at_60 :
  @coverTypesForToken (flat (3 # 5) []) catalogABC attacker target = [coverB; coverC].
Proof. vm_compute. reflexivity. Qed.

Example cover_at_30 :
  @coverTypesForToken (flat (3 # 10) []) catalogABC attacker target = [coverC].
Proof. vm_compute. reflexivity. Qed.

Example cover_at_10 :
  @coverTypesForToken (flat (1 # 10) []) catalogABC attacker target = [].
Proof. vm_compute. reflexivity. Qed.

Example derived_lists_ABC :
  coverTypesOrdered catalogABC
  = ([coverA; coverB], mkCatalog [coverB; coverC; coverA] [coverA; coverB] [coverC] false).
Proof. vm_compute. reflexivity. Qed.

(** C1: with category A (priority 10, not overlapping) already added,
    category D (no priority, [canOverlap] false) is still tested and
    added: the test [types.length] reads a property a Set does not
    have, so the loop never skips. *)
Theorem nonoverlapping_not_skipped :
  let r := @coverTypesForToken_run (flat (4 # 5) []) catalogAD attacker target in
  canOverlap (document coverD) = false
  /\ prioritized coverD = false
  /\ testedOrdered r = [coverA]
  /\ testedUnordered r = [coverD]
  /\ result r = [coverA; coverD].
Proof. vm_compute. repeat split; reflexivity. Qed.

Lemma prioritized_first_match_witness :
  let r := @coverTypesForToken_run (flat (3 # 5) []) catalogABC attacker target in
  fst (coverTypesOrdered catalogABC) = [coverA; coverB]
  /\ testedOrdered r = [coverA; coverB]
  /\ result r = [coverB; coverC]
  /\ (List.length (filter prioritized (result r)) <= 1)%nat
  /\ descending (fst (coverTypesOrdered catalogABC)).
Proof.
  intros r.
  destruct (@prioritized_first_match (flat (3 # 5) []) attacker target catalogABC
              (catalogOf_reachable _))
    as (_ & _ & _ & _ & _ & Hone & Hdesc & _).
  split; [reflexivity |]. split; [reflexivity |]. split; [reflexivity |].
  split; [exact Hone | exact Hdesc].
Defined.

(** At 30% cover no prioritized category of the sample catalog
    applies: both are tested and the result holds none of them.  At 80%
    the first one applies and the second is not tested. *)
Example first_match_runs :
  let none := @coverTypesForToken_run (flat (3 # 10) []) catalogABC attacker target in
  let first := @coverTypesForToken_run (flat (4 # 5) []) catalogABC attacker target in
  testedOrdered none = [coverA; coverB] /\ result none = [coverC]
  /\ testedOrdered first = [coverA] /\ result first = [coverA; coverC].
Proof. repeat split; reflexivity. Qed.

Lemma derived_lists_partition_witness :
  let s' := snd (coverTypesOrdered catalogABC) in
  Permutation (coverTypesOrdered_ s' ++ coverTypesUnordered_ s') (coverObjectsMap catalogABC)
  /\ descending (coverTypesOrdered_ s')
  /\ coverTypesModified s' = false.
Proof.
  intros s'.
  destruct (derived_lists_partition catalogABC (catalogOf_reachable _))
    as (_ & _ & _ & _ & Hperm & _ & _ & Hdesc & Hclean & _).
  split; [exact Hperm | split; [exact Hdesc | exact Hclean]].
Defined.

Lemma minimumCover_zero_one_witness :
  @minimumCoverFromAttackers (flat (3 # 5) []) catalogABC target [] = Returned []
  /\ @minimumCoverFromAttackers (flat (3 # 5) []) catalogABC target [attacker]
     = Returned [coverB; coverC].
Proof.
  destruct (@minimumCover_zero_one (flat (3 # 5) []) attacker target catalogABC
              (catalogOf_reachable _)) as [H0 H1].
  split; [exact H0 |].
  rewrite H1. reflexivity.
Defined.

(** Two attackers: the smaller priority number wins, the categories
    without priority are intersected. *)
Example minimumCover_two_attackers :
  @minimumCoverFromAttackers
    {| percentCover := fun a _ _ _ =>
                         if String.eqb (tokenName a) "attacker" then 4 # 5 else 3 # 5;
       blockingTokens := fun _ => [] |}
    catalogABC target [attacker; tokenOf "other" "med" []]
  = Returned [coverB; coverC].
Proof. vm_compute. reflexivity. Qed.

(** A non-overlapping type takes the place of another one's icon; an
    overlapping type is added beside it. *)
Example addToToken_replaces_nonoverlapping :
  addToToken (coverObjectsMap catalogABC) coverB (tokenOf "target" "med" ["A.svg"; "C.svg"])
  = (true, tokenOf "target" "med" ["C.svg"; "B.svg"])
  /\ addToToken (coverObjectsMap catalogABC) coverC (tokenOf "target" "med" ["A.svg"])
    = (true, tokenOf "target" "med" ["A.svg"; "C.svg"]).
Proof. split; vm_compute; reflexivity. Qed.

(** C8: a token carries the icon of a condition that is no cover
    category, beside the icon of a desired cover type.  The method's
    comment has it remove the cover types that are not wanted and its
    docstring has it return a boolean; it removes the foreign icon too,
    with a non-empty desired set and with the empty one, and returns
    the number of icons removed, 1 here, and the number 0 on a token
    that needs no change. *)
Theorem replaceCoverTypes_wipes_foreign_icon :
  let catalog := coverObjectsMap catalogABC in
  let token := tokenOf "target" "med" ["poison.svg"; "A.svg"] in
  (forall ct, In ct catalog -> icon (document ct) <> "poison.svg")
  /\ replaceCoverTypes catalog token [coverA]
     = (JS.VNum 1, tokenOf "target" "med" ["A.svg"])
  /\ replaceCoverTypes catalog token []
     = (JS.VBool true, tokenOf "target" "med" [])
  /\ replaceCoverTypes catalog (tokenOf "target" "med" ["A.svg"]) [coverA]
     = (JS.VNum 0, tokenOf "target" "med" ["A.svg"]).
Proof.
  intros catalog token. split; [| repeat split; vm_compute; reflexivity].
  intros ct Hct. vm_compute in Hct.
  destruct Hct as [<- | [<- | [<- | []]]]; vm_compute; discriminate.
Qed.

(** The frame property fails on that token: an icon of no cover
    category does not survive the call. *)
Lemma replaceCoverTypes_counterexample :
  let catalog := coverObjectsMap catalogABC in
  let token := tokenOf "target" "med" ["poison.svg"; "A.svg"] in
  ~ (forall e, In e (effects token) ->
               (forall ct, In ct catalog -> icon (document ct) <> e) ->
               In e (effects (snd (replaceCoverTypes catalog token [coverA]))))
  /\ effects (snd (replaceCoverTypes catalog token [coverA])) = ["A.svg"]
  /\ effects (snd (replaceCoverTypes catalog token [])) = []
  /\ fst (replaceCoverTypes catalog (tokenOf "target" "med" ["A.svg"]) [coverA])
     = JS.VNum 0.
Proof.
  intros catalog token.
  split; [| repeat split; vm_compute; reflexivity].
  intros Hframe.
  specialize (Hframe "poison.svg" (or_introl eq_refl)).
  assert (Hin : In "poison.svg" ["A.svg"]).
  { apply Hframe. intros ct Hct. vm_compute in Hct.
    destruct Hct as [<- | [<- | [<- | []]]]; vm_compute; discriminate. }
  destruct Hin as [Heq | []]. discriminate Heq.
Qed.

Lemma replaceCoverTypes_reconciles_witness :
  let catalog := coverObjectsMap catalogABC in
  let token := tokenOf "target" "med" ["A.svg"; "C.svg"] in
  snd (replaceCoverTypes catalog token [coverA; coverC]) = token
  /\ JS.truthy (fst (replaceCoverTypes catalog token [coverA; coverC])) = false.
Proof.
  intros catalog token.
  destruct (replaceCoverTypes_reconciles catalog token [coverA; coverC]) as [_ Hidem].
  apply Hidem. intros e. vm_compute. tauto.
Defined.

(** C5: with the ids the module gives its pf2e cover types the two
    lookups find nothing, and lesser cover stays although a huge token
    blocks a medium attacker and a medium target. *)
Theorem pf2e_lesser_not_upgraded :
  let blocking := tokenOf "ogre" "huge" [] in
  let calc := flat (3 # 10) [blocking] in
  let s := pf2eCatalog "tokencover.pf2e.lesser" "tokencover.pf2e.standard" in
  let lesser := coverType "tokencover.pf2e.lesser" (1 # 4) (Some 1) false in
  @coverTypesForToken calc s attacker target = [lesser]
  /\ toNumber (sizeOf attacker) = Some 3
  /\ toNumber (sizeOf target) = Some 3
  /\ toNumber (sizeOf blocking) = Some 5
  /\ @coverTypesForToken_PF2E calc s attacker target = [lesser].
Proof. vm_compute. repeat split; reflexivity. Qed.

(** The same catalog under the keys the code looks up is upgraded. *)
Example pf2e_upgraded_under_literal_keys :
  @coverTypesForToken_PF2E (flat (3 # 10) [tokenOf "ogre" "huge" []])
    (pf2eCatalog lesserKey standardKey) attacker target
  = [coverType standardKey (1 # 2) (Some 2) false].
Proof. vm_compute. reflexivity. Qed.

End SampleProofs.

(** ** Properties of the other polygon methods *)

Module PolygonOpsProofs.
Import Polygon PolygonOps PolygonProofs.

Lemma coordinates_length (vs : list Point) :
  List.length (coordinates vs) = (2 * List.length vs)%nat.
Proof. induction vs as [| v vs IH]; simpl; [reflexivity | rewrite IH; lia]. Qed.

Lemma coordinates_app (a b : list Point) :
  coordinates (a ++ b) = coordinates a ++ coordinates b.
Proof. induction a as [| v a IH]; simpl; [reflexivity | rewrite IH; reflexivity]. Qed.

Lemma vertices_coordinates (vs : list Point) : vertices (coordinates vs) = vs.
Proof.
  induction vs as [| [vx vy] vs IH]; simpl; [reflexivity | rewrite IH; reflexivity].
Qed.

Lemma even_coordinates (pts : list Z) :
  Nat.even (List.length pts) = true -> pts = coordinates (vertices pts).
Proof.
  intros Hev. symmetry.
  apply (coordinates_vertices (List.length pts)); [lia | exact Hev].
Qed.

(** *** iterateEdges *)

Lemma iterateEdges_from_unfold pts ln i a :
  iterateEdges_from pts ln i a =
  if i <? ln
  then
    let b := PIXI_Point (JS.index pts i) (JS.index pts (i + 1)) in
    (mkEdge a b :: fst (iterateEdges_from pts ln (i + 2) b),
     snd (iterateEdges_from pts ln (i + 2) b))
  else ([], a).
Proof.
  rewrite iterateEdges_from_equation_1.
  destruct (Z_lt_dec i ln) as [Hlt | Hge]; simpl;
    destruct (Z.ltb_spec i ln); try lia; reflexivity.
Qed.

Lemma last_nonempty {T : Type} (v : T) (l : list T) (d1 d2 : T) :
  last (v :: l) d1 = last (v :: l) d2.
Proof.
  revert v. induction l as [| w l IH]; intros v; [reflexivity |].
  change (last (w :: l) d1 = last (w :: l) d2). apply IH.
Qed.

(** The edges from [a] through the vertices [vs]. *)
Lemma iterateEdges_from_chain (vs : list Point) :
  forall (pre : list Z) (a : Point),
    iterateEdges_from (pre ++ coordinates vs)
      (Z.of_nat (List.length pre) + 2 * Z.of_nat (List.length vs))
      (Z.of_nat (List.length pre)) a
    = (edgesBetween (a :: vs), last vs a).
Proof.
  induction vs as [| [vx vy] vs IH]; intros pre a.
  - rewrite iterateEdges_from_unfold. simpl List.length.
    destruct (Z.ltb_spec (Z.of_nat (List.length pre))
                (Z.of_nat (List.length pre) + 2 * Z.of_nat 0)); [lia | reflexivity].
  - rewrite iterateEdges_from_unfold.
    destruct (Z.ltb_spec (Z.of_nat (List.length pre))
                (Z.of_nat (List.length pre)
                 + 2 * Z.of_nat (List.length (mkPoint vx vy :: vs)))) as [_ | Hc];
      [| simpl List.length in Hc; lia].
    cbn [coordinates x y]. rewrite index_first, index_second. simpl nth_error.
    cbn [PIXI_Point].
    specialize (IH (pre ++ [vx; vy]) (mkPoint vx vy)).
    rewrite <- app_assoc in IH. simpl app in IH.
    rewrite length_app in IH. simpl List.length in IH.
    replace (Z.of_nat (List.length pre) + 2)
      with (Z.of_nat (List.length pre + 2)) by lia.
    replace (Z.of_nat (List.length pre) + 2 * Z.of_nat (List.length (mkPoint vx vy :: vs)))
      with (Z.of_nat (List.length pre + 2) + 2 * Z.of_nat (List.length vs))
      by (simpl List.length; lia).
    cbv zeta. change (PIXI_Point (Some vx) (Some vy)) with (mkPoint vx vy).
    rewrite IH. simpl fst. simpl snd.
    destruct vs as [| p vs]; [reflexivity |].
    f_equal. change (last (mkPoint vx vy :: p :: vs) a) with (last (p :: vs) a).
    apply last_nonempty.
Qed.

(** X1: the edges of a polygon with at least two vertices join consecutive
    vertices; with [close] one more edge joins the last vertex to the
    first.  The host's [isClosed] plays no part: on a polygon whose last
    vertex repeats the first, that closing edge joins the vertex to
    itself. *)
Theorem iterateEdges_edges (isClosed : PIXIPolygon -> bool) (v0 v1 : Point)
    (vs : list Point) (close : bool) :
  iterateEdges isClosed (mkPolygon (coordinates (v0 :: v1 :: vs))) close
  = edgesBetween (v0 :: v1 :: vs)
    ++ (if close then [mkEdge (last (v1 :: vs) v0) v0] else []).
Proof.
  pose proof (iterateEdges_from_chain (v1 :: vs) [x v0; y v0] v0) as Hchain.
  change ([x v0; y v0] ++ coordinates (v1 :: vs))
    with (x v0 :: y v0 :: coordinates (v1 :: vs)) in Hchain.
  change (Z.of_nat (List.length [x v0; y v0])) with 2 in Hchain.
  unfold iterateEdges. cbn [points].
  change (coordinates (v0 :: v1 :: vs)) with (x v0 :: y v0 :: coordinates (v1 :: vs)).
  assert (Hlen : Z.of_nat (List.length (x v0 :: y v0 :: coordinates (v1 :: vs)))
                 = 2 + 2 * Z.of_nat (List.length (v1 :: vs))).
  { simpl List.length. rewrite coordinates_length. simpl List.length. lia. }
  rewrite Hlen. clear Hlen.
  remember (coordinates (v1 :: vs)) as tail eqn:Htail in *.
  destruct (Z.ltb_spec (2 + 2 * Z.of_nat (List.length (v1 :: vs))) 4) as [Hc | _];
    [simpl List.length in Hc; lia |].
  change (JS.index (x v0 :: y v0 :: tail) 0) with (Some (x v0)).
  change (JS.index (x v0 :: y v0 :: tail) 1) with (Some (y v0)).
  replace (PIXI_Point (Some (x v0)) (Some (y v0))) with v0 by (destruct v0; reflexivity).
  rewrite Hchain. reflexivity.
Qed.

(** *** reverseOrientation, isClockwise, translate *)

Lemma reverse_from_unfold pts i :
  reverse_from pts i =
  if 0 <=? i
  then (match JS.index pts i with Some v => [v] | None => [] end)
       ++ (match JS.index pts (i + 1) with Some v => [v] | None => [] end)
       ++ reverse_from pts (i - 2)
  else [].
Proof.
  rewrite reverse_from_equation_1.
  destruct (Z_le_dec 0 i) as [Hle | Hgt]; simpl;
    destruct (Z.leb_spec 0 i); try lia; reflexivity.
Qed.

Lemma reverse_from_vertices (pre : list Point) :
  forall suffix,
    reverse_from (coordinates pre ++ suffix) (2 * Z.of_nat (List.length pre) - 2)
    = coordinates (rev pre).
Proof.
  induction pre as [| v pre IH] using rev_ind; intros suffix.
  - rewrite reverse_from_unfold. reflexivity.
  - rewrite reverse_from_unfold, length_app. simpl List.length.
    destruct (Z.leb_spec 0 (2 * Z.of_nat (List.length pre + 1) - 2)); [| lia].
    rewrite coordinates_app, <- app_assoc. cbn [coordinates app].
    replace (2 * Z.of_nat (List.length pre + 1) - 2)
      with (Z.of_nat (List.length (coordinates pre)))
      by (rewrite coordinates_length; lia).
    rewrite index_first, index_second. simpl nth_error.
    rewrite rev_app_distr. cbn [rev app coordinates].
    do 2 f_equal.
    replace (Z.of_nat (List.length (coordinates pre)) - 2)
      with (2 * Z.of_nat (List.length pre) - 2)
      by (rewrite coordinates_length; lia).
    apply IH.
Qed.

Lemma reverseOrientation_points (P : PolygonObject) :
  Nat.even (List.length (points (shape P))) = true ->
  points (shape (reverseOrientation P)) = coordinates (rev (vertices (points (shape P)))).
Proof.
  intros Hev. unfold reverseOrientation. cbn [shape points].
  rewrite (even_coordinates _ Hev) at 1 2.
  rewrite coordinates_length.
  pose proof (reverse_from_vertices (vertices (points (shape P))) []) as H.
  rewrite app_nil_r in H.
  replace (Z.of_nat (2 * List.length (vertices (points (shape P)))) - 2)
    with (2 * Z.of_nat (List.length (vertices (points (shape P)))) - 2) by lia.
  exact H.
Qed.

(** X2: [reverseOrientation] reverses the order of the vertices and negates a
    cached orientation; done twice it gives the polygon back. *)
Theorem reverseOrientation_involutive (P : PolygonObject) :
  Nat.even (List.length (points (shape P))) = true ->
  vertices (points (shape (reverseOrientation P))) = rev (vertices (points (shape P)))
  /\ _isClockwise (reverseOrientation P) = option_map negb (_isClockwise P)
  /\ reverseOrientation (reverseOrientation P) = P.
Proof.
  intros Hev.
  pose proof (reverseOrientation_points P Hev) as Hpts.
  split; [rewrite Hpts; apply vertices_coordinates |].
  split; [unfold reverseOrientation; simpl; destruct (_isClockwise P); reflexivity |].
  assert (Hev' : Nat.even (List.length (points (shape (reverseOrientation P)))) = true).
  { rewrite Hpts, coordinates_length. apply Nat.even_spec. exists (List.length (rev (vertices (points (shape P))))). lia. }
  pose proof (reverseOrientation_points (reverseOrientation P) Hev') as Hpts2.
  rewrite Hpts, vertices_coordinates, rev_involutive, <- (even_coordinates _ Hev) in Hpts2.
  destruct P as [[pts] cw bd].
  unfold reverseOrientation in *. cbn [shape points _isClockwise bounds] in *.
  rewrite Hpts2. destruct cw as [[|] |]; reflexivity.
Qed.

Lemma reverseOrientation_involutive_witness :
  let P := mkPolygonObject (mkPolygon [0; 0; 4; 0; 4; 3]) (Some true) None in
  vertices (points (shape (reverseOrientation P))) = [mkPoint 4 3; mkPoint 4 0; mkPoint 0 0]
  /\ _isClockwise (reverseOrientation P) = Some false
  /\ reverseOrientation (reverseOrientation P) = P.
Proof.
  intros P. apply (reverseOrientation_involutive P). reflexivity.
Defined.

(** X3: once [isClockwise] has been read the value is kept on the object and
    Clipper is not asked again: a later read gives the same value
    whatever Clipper would answer, a read after [reverseOrientation]
    gives its negation, and [translate] hands it to the new polygon. *)
Theorem isClockwise_cached (g1 g2 : Geometry) (P : PolygonObject) (dx dy : Z) :
  let v := fst (@isClockwise g1 P) in
  let P1 := snd (@isClockwise g1 P) in
  @isClockwise g2 P1 = (v, P1)
  /\ fst (@isClockwise g2 (reverseOrientation P1)) = negb v
  /\ newIsClockwise (@translate g2 P1 dx dy) = Some v
  /\ shape P1 = shape P.
Proof.
  unfold isClockwise. destruct (_isClockwise P) as [c |] eqn:Ec; simpl.
  - rewrite Ec. simpl. repeat split; reflexivity.
  - repeat split; reflexivity.
Qed.

Lemma translate_from_unfold pts dx dy ln i :
  translate_from pts dx dy ln i =
  if i <? ln
  then plus (JS.index pts i) dx :: plus (JS.index pts (i + 1)) dy
       :: translate_from pts dx dy ln (i + 2)
  else [].
Proof.
  rewrite translate_from_equation_1.
  destruct (Z_lt_dec i ln) as [Hlt | Hge]; simpl;
    destruct (Z.ltb_spec i ln); try lia; reflexivity.
Qed.

Lemma translate_from_vertices (dx dy : Z) (vs : list Point) :
  (forall v, In v vs ->
             Z.abs (x v + dx) <= maxExact /\ Z.abs (y v + dy) <= maxExact) ->
  forall pre,
    translate_from (pre ++ coordinates vs) dx dy
      (Z.of_nat (List.length pre) + 2 * Z.of_nat (List.length vs))
      (Z.of_nat (List.length pre))
    = map Exact (coordinates (map (shift dx dy) vs)).
Proof.
  induction vs as [| [vx vy] vs IH]; intros Hsafe pre.
  - rewrite translate_from_unfold. simpl List.length.
    destruct (Z.ltb_spec (Z.of_nat (List.length pre))
                (Z.of_nat (List.length pre) + 2 * Z.of_nat 0)); [lia | reflexivity].
  - rewrite translate_from_unfold.
    destruct (Z.ltb_spec (Z.of_nat (List.length pre))
                (Z.of_nat (List.length pre)
                 + 2 * Z.of_nat (List.length (mkPoint vx vy :: vs)))) as [_ | Hc];
      [| simpl List.length in Hc; lia].
    cbn [coordinates x y]. rewrite index_first, index_second. simpl nth_error.
    destruct (Hsafe (mkPoint vx vy) (or_introl eq_refl)) as [Hx Hy].
    cbn [x y] in Hx, Hy.
    cbn [plus map shift coordinates x y].
    destruct (Z.leb_spec (Z.abs (vx + dx)) maxExact); [| lia].
    destruct (Z.leb_spec (Z.abs (vy + dy)) maxExact); [| lia].
    do 2 f_equal.
    specialize (IH (fun v Hv => Hsafe v (or_intror Hv)) (pre ++ [vx; vy])).
    rewrite <- app_assoc in IH. simpl app in IH.
    rewrite length_app in IH. simpl List.length in IH.
    replace (Z.of_nat (List.length pre) + 2)
      with (Z.of_nat (List.length pre + 2)) by lia.
    replace (Z.of_nat (List.length pre) + 2 * Z.of_nat (List.length (mkPoint vx vy :: vs)))
      with (Z.of_nat (List.length pre + 2) + 2 * Z.of_nat (List.length vs))
      by (simpl List.length; lia).
    exact IH.
Qed.

Lemma numbers_Some (l : list Z) : numbers (map Exact l) = Some l.
Proof. induction l as [| v l IH]; simpl; [reflexivity | rewrite IH; reflexivity]. Qed.

Lemma translate_points `{Geometry} (P : PolygonObject) (dx dy : Z) :
  Nat.even (List.length (points (shape P))) = true ->
  (forall v, In v (vertices (points (shape P))) ->
             Z.abs (x v + dx) <= maxExact /\ Z.abs (y v + dy) <= maxExact) ->
  newPoints (translate P dx dy)
  = map Exact (coordinates (map (shift dx dy) (vertices (points (shape P))))).
Proof.
  intros Hev Hsafe. unfold translate. cbn [newPoints].
  rewrite (even_coordinates _ Hev) at 1 2. rewrite coordinates_length.
  pose proof (translate_from_vertices dx dy (vertices (points (shape P))) Hsafe [])
    as Ht.
  simpl app in Ht. simpl (List.length []) in Ht.
  replace (Z.of_nat (2 * List.length (vertices (points (shape P)))))
    with (Z.of_nat 0 + 2 * Z.of_nat (List.length (vertices (points (shape P))))) by lia.
  exact Ht.
Qed.

Lemma coordinates_In (vs : list Point) (v : Point) :
  In v vs -> In (x v) (coordinates vs) /\ In (y v) (coordinates vs).
Proof.
  induction vs as [| w vs IH]; intros Hin; [destruct Hin |].
  cbn [coordinates]. destruct Hin as [-> | Hin]; [simpl; tauto |].
  destruct (IH Hin). simpl. tauto.
Qed.

(** X4: on integer coordinates and offsets of at most 2^51 in absolute
    value, where the additions are exact, [translate] moves every
    vertex by [(dx, dy)] and keeps their number and order; moving by
    [(dx, dy)] and then by [(dx', dy')] gives the polygon that moving
    by the sums gives, orientation cache and bounds included. *)
Theorem translate_compose `{Geometry} (P : PolygonObject) (dx dy dx' dy' : Z) :
  Nat.even (List.length (points (shape P))) = true ->
  Forall small (points (shape P)) ->
  small dx -> small dy -> small dx' -> small dy' ->
  exists P1,
    asObject (translate P dx dy) = Some P1
    /\ vertices (points (shape P1)) = map (shift dx dy) (vertices (points (shape P)))
    /\ asObject (translate P1 dx' dy') = asObject (translate P (dx + dx') (dy + dy')).
Proof.
  intros Hev Hsmall Hdx Hdy Hdx' Hdy'.
  assert (Hvs : forall v, In v (vertices (points (shape P))) -> small (x v) /\ small (y v)).
  { intros v Hv. apply coordinates_In in Hv. rewrite <- (even_coordinates _ Hev) in Hv.
    split; apply (proj1 (Forall_forall _ _) Hsmall); tauto. }
  unfold small, maxExact in *.
  assert (Hsafe : forall v, In v (vertices (points (shape P))) ->
                            Z.abs (x v + dx) <= 9007199254740992
                            /\ Z.abs (y v + dy) <= 9007199254740992).
  { intros v Hv. destruct (Hvs v Hv). lia. }
  assert (Hsafe2 : forall v, In v (vertices (points (shape P))) ->
                             Z.abs (x v + (dx + dx')) <= 9007199254740992
                             /\ Z.abs (y v + (dy + dy')) <= 9007199254740992).
  { intros v Hv. destruct (Hvs v Hv). lia. }
  pose proof (translate_points P dx dy Hev Hsafe) as Hp.
  set (vs := vertices (points (shape P))) in *.
  exists (mkPolygonObject (mkPolygon (coordinates (map (shift dx dy) vs)))
            (newIsClockwise (translate P dx dy)) (newBounds (translate P dx dy))).
  split; [unfold asObject; rewrite Hp, numbers_Some; reflexivity |].
  split; [cbn [shape points]; apply vertices_coordinates |].
  set (P1 := mkPolygonObject _ _ _).
  assert (Hev1 : Nat.even (List.length (points (shape P1))) = true).
  { cbn [P1 shape points]. rewrite coordinates_length.
    apply Nat.even_spec. exists (List.length (map (shift dx dy) vs)). lia. }
  assert (Hsafe1 : forall v, In v (vertices (points (shape P1))) ->
                             Z.abs (x v + dx') <= 9007199254740992
                             /\ Z.abs (y v + dy') <= 9007199254740992).
  { cbn [P1 shape points]. rewrite vertices_coordinates. intros v Hv.
    apply in_map_iff in Hv. destruct Hv as (w & <- & Hw).
    destruct (Hvs w Hw). unfold shift. cbn [x y]. lia. }
  assert (Hsum : newPoints (translate P1 dx' dy') = newPoints (translate P (dx + dx') (dy + dy'))).
  { rewrite (translate_points P1 dx' dy' Hev1 Hsafe1), (translate_points P _ _ Hev Hsafe2).
    cbn [P1 shape points]. rewrite vertices_coordinates, map_map. fold vs.
    do 2 f_equal. apply map_ext. intros [vx vy]. unfold shift. simpl. f_equal; lia. }
  unfold asObject. rewrite Hsum.
  destruct (numbers (newPoints (translate P (dx + dx') (dy + dy')))) as [l |]; [| reflexivity].
  f_equal. f_equal.
  unfold translate at 1 2. cbn [newBounds bounds P1 newIsClockwise].
  unfold translate in Hsum. cbn [newPoints] in Hsum.
  unfold translate. cbn [newBounds newIsClockwise].
  destruct (bounds P); [| reflexivity].
  f_equal. f_equal. exact Hsum.
Qed.

Lemma translate_compose_witness :
  let g := Build_Geometry (fun _ => true) (fun l => []) (fun _ _ _ _ => false)
             (fun _ _ _ _ => false) in
  let P := mkPolygonObject (mkPolygon [0; 0; 4; 0; 4; 3]) (Some true) None in
  exists P1,
    asObject (@translate g P 1 2) = Some P1
    /\ vertices (points (shape P1)) = [mkPoint 1 2; mkPoint 5 2; mkPoint 5 5]
    /\ asObject (@translate g P1 10 20) = asObject (@translate g P 11 22).
Proof.
  intros g P. apply (@translate_compose g P 1 2 10 20).
  - reflexivity.
  - unfold small. repeat constructor; simpl; lia.
  - unfold small. simpl. lia.
  - unfold small. simpl. lia.
  - unfold small. simpl. lia.
  - unfold small. simpl. lia.
Defined.

(** With an odd number of coordinates the last [y] read is undefined and
    the translated array ends in NaN; a sum beyond 2^53 is not given. *)
Example translate_odd :
  newPoints (@translate (Build_Geometry (fun _ => true) (fun l => [])
                           (fun _ _ _ _ => false) (fun _ _ _ _ => false))
               (mkPolygonObject (mkPolygon [0; 0; 4]) None None) 1 2)
  = [Exact 1; Exact 2; Exact 5; NotANumber]
  /\ newPoints (@translate (Build_Geometry (fun _ => true) (fun l => [])
                              (fun _ _ _ _ => false) (fun _ _ _ _ => false))
                  (mkPolygonObject (mkPolygon [maxExact; 0]) None None) 1 2)
     = [Inexact; Exact 2].
Proof. split; reflexivity. Qed.

(** *** linesCross *)

Section LinesCross.

Context `{Geometry}.

Lemma anyLine_spec (edge : Edge) (lines : list Edge) :
  anyLine edge lines = true
  <-> exists line, In line lines
                   /\ lineSegmentCrosses (A edge) (B edge) (A line) (B line) = true.
Proof.
  induction lines as [| l lines IH]; simpl.
  - split; [discriminate | intros [line [[] _]]].
  - destruct (lineSegmentCrosses (A edge) (B edge) (A l) (B l)) eqn:El.
    + split; [intros _; exists l; auto | reflexivity].
    + rewrite IH. split.
      * intros [line [Hin Hc]]. exists line. auto.
      * intros [line [[<- | Hin] Hc]]; [congruence | exists line; auto].
Qed.

Lemma anyEdge_spec (edges lines : list Edge) :
  anyEdge edges lines = true
  <-> exists edge line, In edge edges /\ In line lines
        /\ lineSegmentCrosses (A edge) (B edge) (A line) (B line) = true.
Proof.
  induction edges as [| e edges IH]; simpl.
  - split; [discriminate | intros (edge & line & [] & _)].
  - destruct (anyLine e lines) eqn:Ee.
    + split; [| reflexivity]. intros _.
      apply anyLine_spec in Ee. destruct Ee as [line [Hin Hc]].
      exists e, line. auto.
    + rewrite IH. split.
      * intros (edge & line & Hin & Hl & Hc). exists edge, line. auto.
      * intros (edge & line & [<- | Hin] & Hl & Hc).
        -- assert (Ht : anyLine e lines = true) by (apply anyLine_spec; exists line; auto).
           congruence.
        -- exists edge, line. auto.
Qed.

(** X5: [linesCross] answers true exactly when one of the lines crosses one
    of the edges [iterateEdges] yields with the closing edge; so never
    for a polygon of fewer than two vertices, and never for no line. *)
Theorem linesCross_spec (isClosed : PIXIPolygon -> bool) (P : PIXIPolygon)
    (lines : list Edge) :
  (linesCross isClosed P lines = true
   <-> exists edge line,
         In edge (iterateEdges isClosed P true) /\ In line lines
         /\ lineSegmentCrosses (A edge) (B edge) (A line) (B line) = true)
  /\ ((List.length (points P) < 4)%nat -> linesCross isClosed P lines = false)
  /\ linesCross isClosed P [] = false.
Proof.
  split; [apply anyEdge_spec |]. split.
  - intros Hshort. unfold linesCross, iterateEdges.
    destruct (Z.ltb_spec (Z.of_nat (List.length (points P))) 4); [reflexivity | lia].
  - destruct (linesCross isClosed P []) eqn:El; [| reflexivity].
    apply anyEdge_spec in El. destruct El as (_ & line & _ & [] & _).
Qed.

End LinesCross.

Lemma linesCross_spec_witness :
  @linesCross sampleGeometry firstEqualsLast (mkPolygon [7; 9])
    [mkEdge (mkPoint 0 0) (mkPoint 9 9)] = false
  /\ (@linesCross sampleGeometry firstEqualsLast (mkPolygon [0; 0; 4; 0; 4; 4; 0; 4])
        [mkEdge (mkPoint 2 (-1)) (mkPoint 2 1)] = true
      <-> exists edge line,
            In edge (iterateEdges firstEqualsLast (mkPolygon [0; 0; 4; 0; 4; 4; 0; 4]) true)
            /\ In line [mkEdge (mkPoint 2 (-1)) (mkPoint 2 1)]
            /\ @lineSegmentCrosses sampleGeometry (A edge) (B edge) (A line) (B line)
               = true).
Proof.
  split.
  - apply (proj1 (proj2 (@linesCross_spec sampleGeometry firstEqualsLast
                           (mkPolygon [7; 9]) [mkEdge (mkPoint 0 0) (mkPoint 9 9)]))).
    simpl. lia.
  - exact (proj1 (@linesCross_spec sampleGeometry firstEqualsLast
                    (mkPolygon [0; 0; 4; 0; 4; 4; 0; 4])
                    [mkEdge (mkPoint 2 (-1)) (mkPoint 2 1)])).
Defined.

(** *** convexhull *)

Lemma convexHullCmpFn_le (a b : Point) : convexHullCmpFn a b <= 0 <-> lexLe a b.
Proof.
  unfold convexHullCmpFn, lexLe.
  destruct (Z.eqb_spec (x a - x b) 0); simpl; lia.
Qed.

Lemma lexLe_trans (a b c : Point) : lexLe a b -> lexLe b c -> lexLe a c.
Proof. unfold lexLe. lia. Qed.

Lemma lexLe_total (a b : Point) : lexLe a b \/ lexLe b a.
Proof. unfold lexLe. lia. Qed.

Lemma sortInsert_lex (v : Point) (l : list Point) :
  StronglySorted lexLe l ->
  StronglySorted lexLe (CoverType.sortInsert convexHullCmpFn v l).
Proof.
  induction l as [| w l IH]; intros Hs; simpl.
  - constructor; constructor.
  - inversion Hs as [| w' l' Hl Hw]; subst.
    destruct (Z.leb_spec (convexHullCmpFn v w) 0) as [Hle | Hgt].
    + apply convexHullCmpFn_le in Hle.
      constructor; [exact Hs |].
      constructor; [exact Hle |].
      eapply Forall_impl; [| exact Hw]. intros z Hz. exact (lexLe_trans _ _ _ Hle Hz).
    + assert (Hwv : lexLe w v).
      { destruct (lexLe_total v w) as [Hvw | Hwv]; [| exact Hwv].
        apply convexHullCmpFn_le in Hvw. lia. }
      constructor; [apply IH; exact Hl |].
      apply (Permutation_Forall
               (Permutation_sym (CoverTypeProofs.sortInsert_perm convexHullCmpFn v l))).
      constructor; assumption.
Qed.

Lemma Array_sort_lex (l : list Point) :
  StronglySorted lexLe (CoverType.Array_sort convexHullCmpFn l).
Proof.
  induction l as [| v l IH]; simpl; [constructor | apply sortInsert_lex, IH].
Qed.

(** What the loop of [testHullPoint] leaves: a bottom part of the stack,
    never empty if the stack was not, whose two top points turn
    strictly towards [p]. *)
Lemma popWhile_spec (p : Point) (stack : list Point) :
  exists dropped,
    stack = dropped ++ popWhile stack p
    /\ (forall q r rest, popWhile stack p = q :: r :: rest -> strictTurn r q p)
    /\ (stack <> [] -> popWhile stack p <> []).
Proof.
  induction stack as [| q stack IH].
  - exists []. repeat split; [discriminate | tauto].
  - destruct stack as [| r stack].
    + exists []. repeat split; [discriminate | discriminate].
    + cbn [popWhile].
      destruct (Z.geb_spec ((x q - x r) * (y p - y r)) ((y q - y r) * (x p - x r)))
        as [Hpop | Hkeep].
      * destruct IH as (dropped & Heq & Hturn & Hne).
        exists (q :: dropped). repeat split.
        -- simpl. f_equal. exact Heq.
        -- exact Hturn.
        -- intros _. apply Hne. discriminate.
      * exists []. repeat split; [| discriminate].
        intros q' r' rest Heq. inversion Heq; subst. unfold strictTurn. lia.
Qed.

Lemma testHullPoint_spec (hull : list Point) (p : Point) :
  exists keep dropped,
    hull = keep ++ dropped
    /\ testHullPoint hull p = keep ++ [p]
    /\ (forall front r q, keep = front ++ [r; q] -> strictTurn r q p)
    /\ (hull <> [] -> keep <> []).
Proof.
  destruct (popWhile_spec p (rev hull)) as (dropped & Heq & Hturn & Hne).
  exists (rev (popWhile (rev hull) p)), (rev dropped).
  split; [| split; [| split]].
  - rewrite <- rev_app_distr, <- Heq, rev_involutive. reflexivity.
  - unfold testHullPoint. reflexivity.
  - intros front r q Hk.
    apply (f_equal (@rev Point)) in Hk.
    rewrite rev_involutive, rev_app_distr in Hk. simpl in Hk.
    exact (Hturn q r (rev front) Hk).
  - intros Hh Hk. apply Hne.
    + intros Hr. apply Hh. apply (f_equal (@rev Point)) in Hr.
      rewrite rev_involutive in Hr. exact Hr.
    + apply (f_equal (@rev Point)) in Hk. rewrite rev_involutive in Hk. exact Hk.
Qed.

Lemma turning_prefix (a b : list Point) : turning (a ++ b) -> turning a.
Proof.
  revert b. induction a as [| r a IH]; intros b Ht; [exact I |].
  destruct a as [| q a]; [exact I |].
  destruct a as [| p a]; [exact I |].
  destruct Ht as [Hr Ht]. split; [exact Hr |].
  exact (IH b Ht).
Qed.

Lemma turning_snoc (l : list Point) (p : Point) :
  turning l ->
  (forall front r q, l = front ++ [r; q] -> strictTurn r q p) ->
  turning (l ++ [p]).
Proof.
  induction l as [| r l IH]; intros Ht Hlast; [exact I |].
  destruct l as [| q l]; [exact I |].
  destruct l as [| p' l].
  - split; [| exact I]. apply (Hlast [] r q). reflexivity.
  - destruct Ht as [Hr Ht]. split; [exact Hr |].
    apply IH; [exact Ht |].
    intros front r0 q0 Heq. apply (Hlast (r :: front) r0 q0).
    rewrite Heq. reflexivity.
Qed.

Lemma chain_step (input hull : list Point) (p : Point) :
  chainOf input hull -> chainOf (input ++ [p]) (testHullPoint hull p).
Proof.
  intros (Ht & Hincl & Hhead & Hlast & Hlen).
  destruct (testHullPoint_spec hull p) as (keep & dropped & Hh & Heq & Hturn & Hne).
  rewrite Heq. repeat split.
  - apply turning_snoc; [| exact Hturn].
    apply (turning_prefix keep dropped). rewrite <- Hh. exact Ht.
  - intros v Hv. apply in_app_or in Hv. apply in_or_app.
    destruct Hv as [Hv | Hv]; [left | right; exact Hv].
    apply Hincl. rewrite Hh. apply in_or_app. left. exact Hv.
  - intros a rest Hin. destruct input as [| a' input'].
    + simpl in Hin. injection Hin as Ha Hr. subst a.
      assert (Hhull : hull = []).
      { destruct hull as [| h hull']; [reflexivity |].
        exfalso. exact (Hincl h (or_introl eq_refl)). }
      rewrite Hhull in Hh. destruct keep; [| discriminate Hh].
      exists []. reflexivity.
    + simpl in Hin. injection Hin as Ha Hr. subst a'.
      destruct (Hhead a input' eq_refl) as [more Hm].
      assert (Hk : keep <> []) by (apply Hne; rewrite Hm; discriminate).
      destruct keep as [| k keep']; [contradiction |].
      rewrite Hm in Hh. simpl in Hh. inversion Hh; subst k.
      exists (keep' ++ [p]). reflexivity.
  - intros front z Hin. apply app_inj_tail in Hin. destruct Hin as [_ <-].
    exists keep. reflexivity.
  - intros Hl. rewrite length_app in *. simpl List.length in *.
    destruct input as [| a input']; [simpl in Hl; lia |].
    destruct (Hhead a input' eq_refl) as [more Hm].
    assert (Hk : keep <> []) by (apply Hne; rewrite Hm; discriminate).
    destruct keep; [contradiction | simpl; lia].
Qed.

Lemma chain_fold (l : list Point) :
  forall input hull,
    chainOf input hull -> chainOf (input ++ l) (fold_left testHullPoint l hull).
Proof.
  induction l as [| p l IH]; intros input hull Hc; simpl.
  - rewrite app_nil_r. exact Hc.
  - replace (input ++ p :: l) with ((input ++ [p]) ++ l)
      by (rewrite <- app_assoc; reflexivity).
    apply IH, chain_step, Hc.
Qed.

Lemma chain_all (l : list Point) : chainOf l (fold_left testHullPoint l []).
Proof.
  apply (chain_fold l [] []).
  repeat split; try exact I.
  - intros v [].
  - intros a rest Hn. discriminate Hn.
  - intros front z Hn. destruct front; discriminate Hn.
  - simpl. lia.
Qed.

(** A chain after its [pop()]: still turning, still among the input,
    and, for two points or more, still starting at the first one. *)
Lemma popped_chain (l : list Point) :
  (2 <= List.length l)%nat ->
  let chain := removelast (fold_left testHullPoint l []) in
  turning chain
  /\ incl chain l
  /\ exists more, chain = hd (mkPoint 0 0) l :: more.
Proof.
  intros Hl chain.
  destruct (chain_all l) as (Ht & Hincl & Hhead & _ & Hlen).
  specialize (Hlen Hl).
  destruct (fold_left testHullPoint l []) as [| h hull] eqn:Ef using rev_ind;
    [simpl in Hlen; lia |].
  clear IHhull. subst chain. rewrite removelast_last.
  repeat split.
  - exact (turning_prefix _ _ Ht).
  - intros v Hv. apply Hincl. apply in_or_app. left. exact Hv.
  - destruct l as [| a rest]; [simpl in Hl; lia |].
    destruct (Hhead a rest eq_refl) as [more Hm]. simpl hd.
    destruct hull as [| k hull'].
    + rewrite length_app in Hlen. simpl in Hlen. lia.
    + simpl in Hm. inversion Hm. exists hull'. reflexivity.
Qed.

(** X6: the hull of two points or more: its vertices are the upper chain
    followed by the lower one (or the single point both reduce to), all
    of them input points; in each chain every three consecutive vertices
    turn strictly, so no vertex lies on the line through its
    neighbours. *)
Theorem convexhull_chains (pts : list Point) :
  (2 <= List.length pts)%nat ->
  let sorted := CoverType.Array_sort convexHullCmpFn pts in
  let upper := upperHull sorted in
  let lower := lowerHull sorted in
  exists P,
    convexhull pts = HullPolygon P
    /\ (vertices (points P) = upper ++ lower
        \/ (vertices (points P) = upper /\ upper = lower /\ List.length upper = 1%nat))
    /\ (forall v, In v (vertices (points P)) -> In v pts)
    /\ turning upper /\ turning lower.
Proof.
  intros Hl sorted upper lower.
  assert (Hperm : Permutation sorted pts) by apply CoverTypeProofs.Array_sort_perm.
  assert (Hls : (2 <= List.length sorted)%nat)
    by (rewrite (Permutation_length Hperm); exact Hl).
  assert (Hlr : (2 <= List.length (rev sorted))%nat) by (rewrite length_rev; exact Hls).
  destruct (popped_chain sorted Hls) as (Htu & Hiu & _).
  destruct (popped_chain (rev sorted) Hlr) as (Htl & Hil & _).
  fold (upperHull sorted) in Htu, Hiu. fold (lowerHull sorted) in Htl, Hil.
  fold upper in Htu, Hiu. fold lower in Htl, Hil.
  assert (Hin : forall v, In v (upper ++ lower) -> In v pts).
  { intros v Hv. apply (Permutation_in v Hperm).
    apply in_app_or in Hv. destruct Hv as [Hv | Hv]; [exact (Hiu v Hv) |].
    apply in_rev. exact (Hil v Hv). }
  unfold convexhull.
  destruct (Z.leb_spec (Z.of_nat (List.length pts)) 1); [lia |].
  fold sorted. fold upper. fold lower.
  assert (Hgen : exists P,
             HullPolygon (polygonOf (upper ++ lower)) = HullPolygon P
             /\ (vertices (points P) = upper ++ lower
                 \/ (vertices (points P) = upper /\ upper = lower
                     /\ List.length upper = 1%nat))
             /\ (forall v, In v (vertices (points P)) -> In v pts)
             /\ turning upper /\ turning lower).
  { exists (polygonOf (upper ++ lower)). unfold polygonOf. cbn [points].
    rewrite vertices_coordinates. repeat split; auto. }
  destruct upper as [| u [| u2 upper']] eqn:Eu; try exact Hgen.
  destruct lower as [| l [| l2 lower']] eqn:El; try exact Hgen.
  destruct ((x u =? x l) && (y u =? y l)) eqn:Esame; [| exact Hgen].
  apply andb_prop in Esame. destruct Esame as [Hx Hy].
  apply Z.eqb_eq in Hx. apply Z.eqb_eq in Hy.
  assert (Hul : u = l) by (destruct u, l; simpl in *; congruence).
  subst l. exists (polygonOf [u]). unfold polygonOf. cbn [points].
  rewrite vertices_coordinates. repeat split; auto.
  intros v Hv. apply Hin. apply in_or_app. left. exact Hv.
Qed.

Lemma convexhull_chains_witness :
  let pts := [mkPoint 0 0; mkPoint 4 0; mkPoint 2 1; mkPoint 4 4; mkPoint 0 4; mkPoint 2 0] in
  exists P,
    convexhull pts = HullPolygon P
    /\ vertices (points P) = [mkPoint 0 0; mkPoint 0 4; mkPoint 4 4; mkPoint 4 0].
Proof.
  intros pts.
  destruct (convexhull_chains pts) as (P & Hc & _); [simpl; lia |].
  exists P. split; [exact Hc |].
  vm_compute in Hc. inversion Hc. reflexivity.
Defined.

(** X7: the upper chain starts at the input point that is least in the order
    by [x] then [y], the lower chain at the greatest. *)
Theorem convexhull_extremes (pts : list Point) :
  (2 <= List.length pts)%nat ->
  let sorted := CoverType.Array_sort convexHullCmpFn pts in
  exists least greatest restUpper restLower,
    upperHull sorted = least :: restUpper
    /\ lowerHull sorted = greatest :: restLower
    /\ In least pts /\ In greatest pts
    /\ (forall p, In p pts -> lexLe least p /\ lexLe p greatest).
Proof.
  intros Hl sorted.
  assert (Hperm : Permutation sorted pts) by apply CoverTypeProofs.Array_sort_perm.
  assert (Hls : (2 <= List.length sorted)%nat)
    by (rewrite (Permutation_length Hperm); exact Hl).
  assert (Hlr : (2 <= List.length (rev sorted))%nat) by (rewrite length_rev; exact Hls).
  destruct (popped_chain sorted Hls) as (_ & _ & restU & Hu).
  destruct (popped_chain (rev sorted) Hlr) as (_ & _ & restL & Hlo).
  pose proof (Array_sort_lex pts) as Hsorted. fold sorted in Hsorted.
  destruct sorted as [| least sorted'] eqn:Es; [simpl in Hls; lia |].
  destruct (rev (least :: sorted')) as [| greatest revrest] eqn:Er;
    [simpl in Hlr; lia |].
  simpl hd in Hu, Hlo.
  exists least, greatest, restU, restL.
  assert (Hgin : In greatest (least :: sorted')).
  { apply in_rev. rewrite Er. left. reflexivity. }
  repeat split.
  - exact Hu.
  - unfold lowerHull. rewrite Er. exact Hlo.
  - apply (Permutation_in _ Hperm). left. reflexivity.
  - apply (Permutation_in _ Hperm). exact Hgin.
  - apply (Permutation_in _ (Permutation_sym Hperm)) in H.
    inversion Hsorted as [| a l Hs' Hall]; subst.
    destruct H as [<- | Hin]; [unfold lexLe; lia |].
    exact (proj1 (Forall_forall _ _) Hall p Hin).
  - apply (Permutation_in _ (Permutation_sym Hperm)) in H.
    assert (Hrs : least :: sorted' = rev revrest ++ [greatest]).
    { rewrite <- (rev_involutive (least :: sorted')), Er. reflexivity. }
    rewrite Hrs in Hsorted, H.
    apply in_app_or in H. destruct H as [Hin | [<- | []]]; [| unfold lexLe; lia].
    clear - Hsorted Hin. induction (rev revrest) as [| a l IH]; [destruct Hin |].
    simpl in Hsorted. inversion Hsorted as [| a' l' Hs' Hall]; subst.
    destruct Hin as [<- | Hin]; [| exact (IH Hs' Hin)].
    apply (proj1 (Forall_forall _ _) Hall). apply in_or_app. right. left. reflexivity.
Qed.

Lemma convexhull_extremes_witness :
  let pts := [mkPoint 2 1; mkPoint 4 0; mkPoint 0 4; mkPoint 0 0; mkPoint 4 4] in
  exists least greatest restUpper restLower,
    upperHull (CoverType.Array_sort convexHullCmpFn pts) = least :: restUpper
    /\ lowerHull (CoverType.Array_sort convexHullCmpFn pts) = greatest :: restLower
    /\ In least pts /\ In greatest pts
    /\ (forall p, In p pts -> lexLe least p /\ lexLe p greatest).
Proof.
  intros pts. apply (convexhull_extremes pts). simpl. lia.
Defined.

(** At most one point comes back as it was given, points on one line
    leave their two ends, and copies of one point leave that point. *)
Example convexhull_degenerate :
  convexhull [mkPoint 3 5] = HullPoints [mkPoint 3 5]
  /\ convexhull [mkPoint 0 0; mkPoint 2 2; mkPoint 1 1; mkPoint 3 3]
     = HullPolygon (mkPolygon [0; 0; 3; 3])
  /\ convexhull [mkPoint 3 5; mkPoint 3 5; mkPoint 3 5] = HullPolygon (mkPolygon [3; 5]).
Proof. repeat split; reflexivity. Qed.

(** *** viewablePoints *)

Section KeyLoop.

Variable test : Point -> bool.

(** After a refused point that follows accepted ones, and with an
    accepted first point: every later accepted index goes to [endKeys]. *)
Lemma keyLoop_after (pts : list Point) :
  forall i start finish,
    keyLoop test i pts (mkKeyState start finish false true true)
    = mkKeyState start (finish ++ indicesOf test i pts) false true true.
Proof.
  induction pts as [| pt pts IH]; intros i start finish; simpl.
  - rewrite app_nil_r. reflexivity.
  - destruct (test pt); simpl.
    + rewrite IH, <- app_assoc. reflexivity.
    + apply IH.
Qed.

(** In the run of accepted points that opens the array. *)
Lemma keyLoop_leading (pts : list Point) :
  forall i start,
    let st := keyLoop test i pts (mkKeyState start [] false false true) in
    let r := List.length (runOf test i pts) in
    endKeys st ++ startKeys st
    = indicesOf test (i + r) (skipn r pts) ++ (start ++ runOf test i pts).
Proof.
  induction pts as [| pt pts IH]; intros i start; simpl.
  - rewrite app_nil_r. reflexivity.
  - destruct (test pt) eqn:Et; simpl.
    + specialize (IH (S i) (start ++ [i])). simpl in IH. rewrite IH.
      rewrite <- app_assoc. simpl.
      replace (i + S (List.length (runOf test (S i) pts)))%nat
        with (S i + List.length (runOf test (S i) pts))%nat by lia.
      reflexivity.
    + rewrite keyLoop_after. simpl. rewrite Et, Nat.add_0_r, app_nil_r. reflexivity.
Qed.

(** In the first run of accepted points after refused ones: the loop
    stops at the end of the run. *)
Lemma keyLoop_run (pts : list Point) :
  forall i start,
    let st := keyLoop test i pts (mkKeyState start [] true false true) in
    endKeys st ++ startKeys st = start ++ runOf test i pts.
Proof.
  induction pts as [| pt pts IH]; intros i start; simpl.
  - rewrite app_nil_r. reflexivity.
  - destruct (test pt); simpl.
    + specialize (IH (S i) (start ++ [i])). simpl in IH. rewrite IH, <- app_assoc.
      reflexivity.
    + rewrite app_nil_r. reflexivity.
Qed.

Lemma keyLoop_refused (pts : list Point) :
  forall i,
    let st := keyLoop test i pts (mkKeyState [] [] true false false) in
    endKeys st ++ startKeys st = firstRunOf test i pts.
Proof.
  induction pts as [| pt pts IH]; intros i; simpl; [reflexivity |].
  destruct (test pt) eqn:Et; simpl.
  - pose proof (keyLoop_run pts (S i) [i]) as Hr. simpl in Hr. exact Hr.
  - apply IH.
Qed.

Lemma keyLoop_keys (pts : list Point) :
  let st := keyLoop test 0 pts (mkKeyState [] [] false false false) in
  endKeys st ++ startKeys st
  = match pts with
    | [] => []
    | pt :: _ =>
        if test pt
        then let r := List.length (runOf test 0 pts) in
             indicesOf test r (skipn r pts) ++ runOf test 0 pts
        else firstRunOf test 0 pts
    end.
Proof.
  destruct pts as [| pt pts]; [reflexivity |].
  simpl. destruct (test pt) eqn:Et; simpl.
  - pose proof (keyLoop_leading pts 1 [0%nat]) as Hl. simpl in Hl. exact Hl.
  - pose proof (keyLoop_refused pts 1) as Hr. simpl in Hr. exact Hr.
Qed.

Lemma indicesOf_split (pts : list Point) :
  forall i,
    let r := List.length (runOf test i pts) in
    indicesOf test i pts = runOf test i pts ++ indicesOf test (i + r) (skipn r pts).
Proof.
  induction pts as [| pt pts IH]; intros i; simpl; [reflexivity |].
  destruct (test pt) eqn:Et; simpl.
  - rewrite (IH (S i)). simpl.
    replace (i + S (List.length (runOf test (S i) pts)))%nat
      with (S i + List.length (runOf test (S i) pts))%nat by lia.
    reflexivity.
  - rewrite Et, Nat.add_0_r. reflexivity.
Qed.

Lemma indicesOf_spec (pts : list Point) :
  forall i k,
    In k (indicesOf test i pts)
    <-> (i <= k)%nat /\ exists pt, nth_error pts (k - i) = Some pt /\ test pt = true.
Proof.
  induction pts as [| pt pts IH]; intros i k; simpl.
  - split; [tauto |]. intros [_ [p [Hn _]]]. destruct (k - i)%nat; discriminate.
  - assert (Hrest : In k (indicesOf test (S i) pts)
                    <-> (i < k)%nat
                        /\ exists p, nth_error (pt :: pts) (k - i) = Some p /\ test p = true).
    { rewrite IH. split.
      - intros [Hle [p [Hn Hp]]]. split; [lia |]. exists p. split; [| exact Hp].
        replace (k - i)%nat with (S (k - S i)) by lia. exact Hn.
      - intros [Hlt [p [Hn Hp]]]. split; [lia |]. exists p. split; [| exact Hp].
        replace (k - i)%nat with (S (k - S i)) in Hn by lia. exact Hn. }
    destruct (test pt) eqn:Et.
    + simpl. rewrite Hrest. split.
      * intros [<- | [Hlt Hex]].
        -- split; [lia |]. exists pt. rewrite Nat.sub_diag. auto.
        -- split; [lia | exact Hex].
      * intros [Hle Hex]. destruct (Nat.eq_dec i k) as [-> | Hne]; [left; reflexivity |].
        right. split; [lia | exact Hex].
    + rewrite Hrest. split.
      * intros [Hlt Hex]. split; [lia | exact Hex].
      * intros [Hle [p [Hn Hp]]]. split.
        -- destruct (Nat.eq_dec i k) as [-> | Hne]; [| lia].
           rewrite Nat.sub_diag in Hn. simpl in Hn. congruence.
        -- exists p. auto.
Qed.

Lemma indicesOf_NoDup (pts : list Point) : forall i, NoDup (indicesOf test i pts).
Proof.
  induction pts as [| pt pts IH]; intros i; simpl; [constructor |].
  destruct (test pt); [| apply IH].
  constructor; [| apply IH].
  intros Hin. apply indicesOf_spec in Hin. lia.
Qed.

Lemma runOf_incl (pts : list Point) :
  forall i, incl (runOf test i pts) (indicesOf test i pts).
Proof.
  induction pts as [| pt pts IH]; intros i; simpl; [apply incl_refl |].
  destruct (test pt); [| intros k []].
  apply incl_cons; [left; reflexivity | apply incl_tl, IH].
Qed.

Lemma runOf_NoDup (pts : list Point) : forall i, NoDup (runOf test i pts).
Proof.
  induction pts as [| pt pts IH]; intros i; simpl; [constructor |].
  destruct (test pt); [| constructor].
  constructor; [| apply IH].
  intros Hin. apply runOf_incl, indicesOf_spec in Hin. lia.
Qed.

Lemma firstRunOf_incl (pts : list Point) :
  forall i, incl (firstRunOf test i pts) (indicesOf test i pts).
Proof.
  induction pts as [| pt pts IH]; intros i; [apply incl_refl |].
  cbn [firstRunOf]. destruct (test pt) eqn:Et.
  - apply runOf_incl.
  - simpl. rewrite Et. apply IH.
Qed.

Lemma firstRunOf_NoDup (pts : list Point) : forall i, NoDup (firstRunOf test i pts).
Proof.
  induction pts as [| pt pts IH]; intros i; [constructor |].
  cbn [firstRunOf]. destruct (test pt); [apply runOf_NoDup | apply IH].
Qed.

Lemma runOf_all (pts : list Point) :
  (forall pt, In pt pts -> test pt = true) ->
  forall i, runOf test i pts = seq i (List.length pts).
Proof.
  induction pts as [| pt pts IH]; intros Hall i; simpl; [reflexivity |].
  rewrite (Hall pt (or_introl eq_refl)). f_equal.
  apply IH. intros p Hp. apply Hall. right. exact Hp.
Qed.

Lemma firstRunOf_none (pts : list Point) :
  (forall pt, In pt pts -> test pt = false) ->
  forall i, firstRunOf test i pts = [].
Proof.
  induction pts as [| pt pts IH]; intros Hall i; [reflexivity |].
  cbn [firstRunOf]. rewrite (Hall pt (or_introl eq_refl)).
  apply IH. intros p Hp. apply Hall. right. exact Hp.
Qed.

End KeyLoop.

Section Viewable.

Context `{Geometry}.
Variable isClosed : PIXIPolygon -> bool.
Variable P : PIXIPolygon.
Variable origin : Point.

Local Abbreviation pts := (iteratePoints isClosed P false).
Local Abbreviation isKey :=
  (fun pt => isKeyLoop origin pt (iterateEdges isClosed P true)).

(** X8: every index [viewablePoints] keeps is the index of a point that
    passes the key test, and none is kept twice.  When the first point
    passes, all the points that pass are kept: the run that opens the
    array is moved behind the others.  When the first point fails, only
    the first run of points that pass is kept. *)
Theorem viewableKeys_spec :
  let keys := viewableKeys isClosed P origin in
  (forall k, In k keys -> exists pt, nth_error pts k = Some pt /\ isKey pt = true)
  /\ NoDup keys
  /\ (forall pt0 rest, pts = pt0 :: rest -> isKey pt0 = true ->
        let r := List.length (runOf isKey 0 pts) in
        keys = indicesOf isKey r (skipn r pts) ++ runOf isKey 0 pts
        /\ Permutation keys (indicesOf isKey 0 pts))
  /\ (forall pt0 rest, pts = pt0 :: rest -> isKey pt0 = false ->
        keys = firstRunOf isKey 0 pts).
Proof.
  intros keys.
  assert (Hkeys : keys
                  = match pts with
                    | [] => []
                    | pt :: _ =>
                        if isKey pt
                        then let r := List.length (runOf isKey 0 pts) in
                             indicesOf isKey r (skipn r pts) ++ runOf isKey 0 pts
                        else firstRunOf isKey 0 pts
                    end).
  { unfold keys, viewableKeys. apply (keyLoop_keys isKey pts). }
  assert (Hsub : incl keys (indicesOf isKey 0 pts) /\ NoDup keys).
  { rewrite Hkeys. destruct pts as [| pt0 rest] eqn:Ep; [split; [apply incl_refl | constructor] |].
    destruct (isKeyLoop origin pt0 (iterateEdges isClosed P true)) eqn:E0.
    - pose proof (indicesOf_split isKey (pt0 :: rest) 0) as Hs. simpl Nat.add in Hs.
      cbv zeta in Hs |- *.
      assert (Hperm : Permutation
                        (indicesOf isKey (List.length (runOf isKey 0 (pt0 :: rest)))
                           (skipn (List.length (runOf isKey 0 (pt0 :: rest))) (pt0 :: rest))
                         ++ runOf isKey 0 (pt0 :: rest))
                        (indicesOf isKey 0 (pt0 :: rest))).
      { rewrite Hs at 1. apply Permutation_app_comm. }
      split.
      + intros k Hk. exact (Permutation_in k Hperm Hk).
      + apply (Permutation_NoDup (Permutation_sym Hperm)), indicesOf_NoDup.
    - split; [apply firstRunOf_incl | apply firstRunOf_NoDup]. }
  destruct Hsub as [Hincl Hnd].
  split.
  { intros k Hk. apply Hincl, indicesOf_spec in Hk. destruct Hk as [_ [pt [Hn Ht]]].
    rewrite Nat.sub_0_r in Hn. exists pt. auto. }
  split; [exact Hnd |].
  split.
  - intros pt0 rest Hp H0 r. subst r. cbv beta in H0. rewrite Hkeys, Hp, H0. rewrite <- Hp.
    split; [reflexivity |].
    pose proof (indicesOf_split isKey pts 0) as Hs. simpl Nat.add in Hs. cbv zeta in Hs.
    rewrite Hs at 1. apply Permutation_app_comm.
  - intros pt0 rest Hp H0. cbv beta in H0. rewrite Hkeys, Hp, H0. reflexivity.
Qed.

(** X9: without two vertices there is no edge, and every point is kept, in
    order; when no point passes the key test, nothing is kept, and with
    [outermostOnly] the two entries returned are undefined. *)
Theorem viewablePoints_edge_cases :
  ((List.length (points P) < 4)%nat ->
   viewableKeys isClosed P origin = seq 0 (List.length pts))
  /\ ((forall pt, In pt pts -> isKey pt = false) ->
      viewableKeys isClosed P origin = []
      /\ viewablePoints isClosed P origin true true = ViewKeys [None; None]
      /\ viewablePoints isClosed P origin false true = ViewPoints [None; None]).
Proof.
  assert (Hkeys : viewableKeys isClosed P origin
                  = match pts with
                    | [] => []
                    | pt :: _ =>
                        if isKey pt
                        then let r := List.length (runOf isKey 0 pts) in
                             indicesOf isKey r (skipn r pts) ++ runOf isKey 0 pts
                        else firstRunOf isKey 0 pts
                    end).
  { unfold viewableKeys. apply (keyLoop_keys isKey pts). }
  split.
  - intros Hshort. rewrite Hkeys.
    assert (He : iterateEdges isClosed P true = []).
    { unfold iterateEdges.
      destruct (Z.ltb_spec (Z.of_nat (List.length (points P))) 4); [reflexivity | lia]. }
    rewrite He. cbn [isKeyLoop].
    destruct pts as [| pt0 rest]; [reflexivity |].
    rewrite (runOf_all (fun _ => true) (pt0 :: rest) (fun _ _ => eq_refl) 0).
    rewrite length_seq, skipn_all. simpl indicesOf. reflexivity.
  - intros Hnone.
    assert (Hk : viewableKeys isClosed P origin = []).
    { rewrite Hkeys. destruct pts as [| pt0 rest] eqn:Ep; [reflexivity |].
      rewrite (Hnone pt0 (or_introl eq_refl)).
      apply firstRunOf_none. exact Hnone. }
    split; [exact Hk |].
    unfold viewablePoints. rewrite Hk. split; reflexivity.
Qed.

End Viewable.

Example viewablePoints_square :
  @viewablePoints sampleGeometry firstEqualsLast (mkPolygon [0; 0; 4; 0; 4; 4; 0; 4])
     (mkPoint (-5) 2) true false
  = ViewKeys [Some 3%nat; Some 0%nat]
  /\ @viewablePoints sampleGeometry firstEqualsLast (mkPolygon [0; 0; 4; 0; 4; 4; 0; 4])
       (mkPoint (-5) 2) false true
     = ViewPoints [Some (mkPoint 0 4); Some (mkPoint 0 0)].
Proof. split; vm_compute; reflexivity. Qed.

Lemma viewablePoints_edge_cases_witness :
  @viewableKeys sampleGeometry firstEqualsLast (mkPolygon [7; 9]) (mkPoint 0 0) = [0%nat].
Proof.
  destruct (@viewablePoints_edge_cases sampleGeometry firstEqualsLast (mkPolygon [7; 9])
              (mkPoint 0 0)) as [Hshort _].
  rewrite Hshort by (simpl; lia). reflexivity.
Defined.

Lemma viewableKeys_spec_witness :
  let P := mkPolygon [0; 0; 4; 0; 4; 4; 0; 4] in
  let keys := @viewableKeys sampleGeometry firstEqualsLast P (mkPoint (-5) 2) in
  keys = [3%nat; 0%nat]
  /\ Permutation keys
       (indicesOf (fun pt => @isKeyLoop sampleGeometry (mkPoint (-5) 2) pt
                               (iterateEdges firstEqualsLast P true))
          0 (iteratePoints firstEqualsLast P false)).
Proof.
  intros P keys.
  destruct (@viewableKeys_spec sampleGeometry firstEqualsLast P (mkPoint (-5) 2))
    as (_ & _ & Hfirst & _).
  destruct (Hfirst (mkPoint 0 0) [mkPoint 4 0; mkPoint 4 4; mkPoint 0 4]) as [_ Hperm];
    [reflexivity | reflexivity |].
  split; [reflexivity | exact Hperm].
Defined.

End PolygonOpsProofs.

(** ** Cover types: ties, membership, several attackers *)

Module CoverTypeOpsProofs.
Import CoverType Samples CoverTypeOps CoverTypeProofs.
Local Open Scope string_scope.
Local Open Scope list_scope.
Local Open Scope Z_scope.

(** *** Ties in the ordered list *)

Lemma sortInsert_ties (k : Z) (x : CoverType) (l : list CoverType) :
  filter (fun c => priorityNumber c =? k) (sortInsert byPriority x l)
  = filter (fun c => priorityNumber c =? k) (x :: l).
Proof.
  induction l as [| y l IH]; [reflexivity |].
  cbn [sortInsert]. unfold byPriority at 1.
  destruct (Z.leb_spec (priorityNumber y - priorityNumber x) 0) as [Hle | Hgt];
    [reflexivity |].
  cbn [filter] in *. rewrite IH.
  destruct (Z.eqb_spec (priorityNumber x) k), (Z.eqb_spec (priorityNumber y) k);
    try reflexivity.
  lia.
Qed.

Lemma Array_sort_ties (k : Z) (l : list CoverType) :
  filter (fun c => priorityNumber c =? k) (Array_sort byPriority l)
  = filter (fun c => priorityNumber c =? k) l.
Proof.
  induction l as [| x l IH]; [reflexivity |].
  cbn [Array_sort]. rewrite sortInsert_ties. cbn [filter]. rewrite IH. reflexivity.
Qed.

Lemma filter_filter {T : Type} (f g : T -> bool) (l : list T) :
  filter f (filter g l) = filter (fun v => g v && f v) l.
Proof.
  induction l as [| v l IH]; [reflexivity |].
  cbn [filter]. destruct (g v); cbn [filter andb]; rewrite IH; reflexivity.
Qed.

Lemma ordered_of_reachable (s : Catalog) :
  reachable s -> fst (coverTypesOrdered s) = rebuiltOrdered (coverObjectsMap s).
Proof.
  intros Hr. pose proof (read_state s (reachable_consistent s Hr)) as [_ Hs'].
  change (fst (coverTypesOrdered s)) with (coverTypesOrdered_ (snd (coverTypesOrdered s))).
  rewrite Hs'. reflexivity.
Qed.

(** X10: in the ordered list the categories of one priority stand in
    the order in which the catalog holds them: the sort is stable. *)
Theorem ordered_ties_in_catalog_order (s : Catalog) (k : Z) :
  reachable s ->
  filter (fun c => priorityNumber c =? k) (fst (coverTypesOrdered s))
  = filter (fun c => prioritized c && (priorityNumber c =? k)) (coverObjectsMap s).
Proof.
  intros Hr. rewrite (ordered_of_reachable s Hr). unfold rebuiltOrdered.
  rewrite Array_sort_ties. apply filter_filter.
Qed.

Lemma ordered_ties_in_catalog_order_witness :
  let s := catalogOf [coverType "first" (1 # 2) (Some 5) false; coverA;
                      coverType "second" (1 # 4) (Some 5) false; coverC] in
  filter (fun c => priorityNumber c =? 5) (fst (coverTypesOrdered s))
  = [coverType "first" (1 # 2) (Some 5) false; coverType "second" (1 # 4) (Some 5) false].
Proof.
  intros s.
  rewrite (ordered_ties_in_catalog_order s 5 (SampleProofs.catalogOf_reachable _)).
  reflexivity.
Defined.

(** *** Members of a classification *)

Lemma Set_add_In (c ct : CoverType) (l : list CoverType) :
  In ct (Set_add c l) <-> In ct l \/ ct = c.
Proof.
  unfold Set_add. destruct (Set_has l c) eqn:Eh.
  - apply Set_has_In in Eh. split; [tauto |]. intros [Hin | ->]; assumption.
  - rewrite in_app_iff. simpl. split.
    + intros [Hin | [<- | []]]; auto.
    + intros [Hin | ->]; auto.
Qed.

Lemma sorted_after {T : Type} (R : T -> T -> Prop) (pre : list T) (c : T) (post : list T) :
  StronglySorted R (pre ++ c :: post) -> forall x, In x post -> R c x.
Proof.
  induction pre as [| p pre IH]; simpl; intros Hs x Hx.
  - inversion Hs as [| ? ? _ Hall]. subst.
    exact (proj1 (Forall_forall _ _) Hall x Hx).
  - inversion Hs. subst. apply IH; assumption.
Qed.

Section Members.

Context `{Calculator}.
Variables attackingToken targetToken : Token.

Local Abbreviation applies ct := (coverTypeApplies ct attackingToken targetToken).

Lemma orderedLoop_members (l types : list CoverType) (ct : CoverType) :
  In ct (fst (orderedLoop l attackingToken targetToken types)) ->
  In ct types \/ (In ct l /\ applies ct = true).
Proof.
  destruct (orderedLoop_cases attackingToken targetToken l types)
    as [[_ Heq] | (pre & c & post & Hl & _ & Hc & Heq)]; rewrite Heq; simpl.
  - tauto.
  - intros Hin. apply Set_add_In in Hin. destruct Hin as [Hin | ->]; [tauto |].
    right. split; [| exact Hc]. rewrite Hl. apply in_or_app. right. left. reflexivity.
Qed.

Lemma unorderedLoop_members (l : list CoverType) (ct : CoverType) :
  forall types,
    In ct (fst (unorderedLoop l attackingToken targetToken types)) ->
    In ct types \/ (In ct l /\ applies ct = true).
Proof.
  induction l as [| c l IH]; intros types; simpl; [tauto |].
  rewrite andb_false_r. simpl. intros Hin. apply IH in Hin.
  destruct Hin as [Hin | [Hin Happ]]; [| tauto].
  destruct (coverTypeApplies c attackingToken targetToken) eqn:Ec; [| tauto].
  apply Set_add_In in Hin. destruct Hin as [Hin | ->]; [tauto |].
  right. split; [left; reflexivity | exact Ec].
Qed.

Lemma rebuiltOrdered_In (m : list CoverType) (ct : CoverType) :
  In ct (rebuiltOrdered m) <-> In ct m /\ prioritized ct = true.
Proof.
  unfold rebuiltOrdered. rewrite <- filter_In. split; intros Hin.
  - eapply Permutation_in; [apply Array_sort_perm | exact Hin].
  - eapply Permutation_in; [apply Permutation_sym, Array_sort_perm | exact Hin].
Qed.

Lemma rebuiltUnordered_In (m : list CoverType) (ct : CoverType) :
  In ct (rebuiltUnordered m) <-> In ct m /\ prioritized ct = false.
Proof.
  unfold rebuiltUnordered, unprioritized. rewrite filter_In.
  destruct (prioritized ct); simpl; intuition congruence.
Qed.

Lemma result_of_reachable (s : Catalog) :
  reachable s ->
  coverTypesForToken s attackingToken targetToken
  = fst (unorderedLoop (rebuiltUnordered (coverObjectsMap s)) attackingToken targetToken
           (fst (orderedLoop (rebuiltOrdered (coverObjectsMap s))
                   attackingToken targetToken []))).
Proof.
  intros Hr. unfold coverTypesForToken.
  rewrite (coverTypesForToken_run_eq _ _ s (reachable_consistent s Hr)). reflexivity.
Qed.

Lemma result_members (s : Catalog) (ct : CoverType) :
  reachable s ->
  In ct (coverTypesForToken s attackingToken targetToken) ->
  In ct (coverObjectsMap s) /\ applies ct = true.
Proof.
  intros Hr Hin. rewrite (result_of_reachable s Hr) in Hin.
  apply unorderedLoop_members in Hin. destruct Hin as [Hin | [Hin Happ]].
  - apply orderedLoop_members in Hin. destruct Hin as [[] | [Hin Happ]].
    apply rebuiltOrdered_In in Hin. tauto.
  - apply rebuiltUnordered_In in Hin. tauto.
Qed.

(** X11: every category [coverTypesForToken] returns is in the catalog
    and applies to the pair; a category without priority is returned
    exactly when it is in the catalog and applies. *)
Theorem coverTypesForToken_members (s : Catalog) :
  reachable s ->
  (forall ct, In ct (coverTypesForToken s attackingToken targetToken) ->
              In ct (coverObjectsMap s) /\ applies ct = true)
  /\ (forall ct, prioritized ct = false ->
        (In ct (coverTypesForToken s attackingToken targetToken)
         <-> In ct (coverObjectsMap s) /\ applies ct = true)).
Proof.
  intros Hr. split.
  - intros ct. apply result_members, Hr.
  - intros ct Hun. split; [apply result_members, Hr |].
    intros [Hin Happ]. apply unprioritized_always_added; assumption.
Qed.

(** X12: when some prioritized category of the catalog applies, the
    result holds exactly one prioritized category; it applies, and no
    applying category of the catalog has a higher priority. *)
Theorem coverTypesForToken_highest (s : Catalog) (ct : CoverType) :
  reachable s ->
  In ct (coverObjectsMap s) -> prioritized ct = true -> applies ct = true ->
  exists p,
    In p (coverTypesForToken s attackingToken targetToken)
    /\ prioritized p = true
    /\ applies p = true
    /\ priorityNumber ct <= priorityNumber p
    /\ (forall q, In q (coverTypesForToken s attackingToken targetToken) ->
                  prioritized q = true -> q = p).
Proof.
  intros Hr Hin Hp Happ. rewrite (result_of_reachable s Hr).
  set (ordered := rebuiltOrdered (coverObjectsMap s)).
  set (unordered := rebuiltUnordered (coverObjectsMap s)).
  assert (Hord : In ct ordered) by (apply rebuiltOrdered_In; tauto).
  pose proof (Array_sort_descending (filter prioritized (coverObjectsMap s))) as Hdesc.
  fold (rebuiltOrdered (coverObjectsMap s)) in Hdesc. fold ordered in Hdesc.
  destruct (unorderedLoop_spec attackingToken targetToken unordered
              (fst (orderedLoop ordered attackingToken targetToken [])))
    as [_ (extra & Hres & Hincl & _ & _)].
  rewrite Hres.
  destruct (orderedLoop_cases attackingToken targetToken ordered [])
    as [[Hnone _] | (pre & c & post & Hl & Hpre & Hc & Heq)].
  - pose proof (proj1 (Forall_forall _ _) Hnone ct Hord) as Hf. simpl in Hf. congruence.
  - rewrite Heq. simpl. exists c.
    assert (Hcin : In c ordered)
      by (rewrite Hl; apply in_or_app; right; left; reflexivity).
    split; [left; reflexivity |].
    split; [apply (rebuiltOrdered_In (coverObjectsMap s)), Hcin |].
    split; [exact Hc |].
    split.
    + rewrite Hl in Hord. apply in_app_or in Hord.
      destruct Hord as [Hord | [<- | Hord]].
      * pose proof (proj1 (Forall_forall _ _) Hpre ct Hord) as Hf. simpl in Hf. congruence.
      * lia.
      * rewrite Hl in Hdesc. exact (sorted_after _ pre c post Hdesc ct Hord).
    + intros q [<- | Hq] Hqp; [reflexivity |].
      apply Hincl in Hq. apply rebuiltUnordered_In in Hq. destruct Hq as [_ Hq]. congruence.
Qed.

End Members.

Lemma coverTypesForToken_members_witness :
  In coverB (coverObjectsMap catalogABC)
  /\ @coverTypeApplies (flat (3 # 5) []) coverB attacker target = true.
Proof.
  apply (proj1 (@coverTypesForToken_members (flat (3 # 5) []) attacker target catalogABC
                  (SampleProofs.catalogOf_reachable _)) coverB).
  left. reflexivity.
Defined.

Lemma coverTypesForToken_highest_witness :
  exists p,
    In p (@coverTypesForToken (flat (3 # 5) []) catalogABC attacker target)
    /\ prioritized p = true
    /\ @coverTypeApplies (flat (3 # 5) []) p attacker target = true
    /\ priorityNumber coverB <= priorityNumber p
    /\ (forall q, In q (@coverTypesForToken (flat (3 # 5) []) catalogABC attacker target) ->
                  prioritized q = true -> q = p).
Proof.
  apply (@coverTypesForToken_highest (flat (3 # 5) []) attacker target catalogABC coverB).
  - apply SampleProofs.catalogOf_reachable.
  - simpl. tauto.
  - reflexivity.
  - reflexivity.
Defined.

(** *** Several attackers *)

Section Attackers.

Context `{Calculator}.
Variable targetToken : Token.

Lemma splitCoverTypes_eq (coverTypes : list CoverType) :
  forall m o,
    fold_left
      (fun (acc : option CoverType * list CoverType) ct =>
         let '(minCoverType, otherTypes) := acc in
         if negb (JS.truthy (priorityValue ct)) then (minCoverType, Set_add ct otherTypes)
         else
           match minCoverType with
           | None => (Some ct, otherTypes)
           | Some m =>
               if priorityNumber m >? priorityNumber ct
               then (Some ct, otherTypes) else (minCoverType, otherTypes)
           end)
      coverTypes (m, o)
    = (fold_left pickMin coverTypes m, fold_left pickOther coverTypes o).
Proof.
  induction coverTypes as [| ct cts IH]; intros m o; [reflexivity |].
  cbn [fold_left]. unfold pickMin at 2, pickOther at 2.
  destruct (negb (JS.truthy (priorityValue ct))); [apply IH |].
  destruct m as [m0 |]; [| apply IH].
  destruct (priorityNumber m0 >? priorityNumber ct); apply IH.
Qed.

Lemma run_after (s : Catalog) (attackingToken : Token) :
  consistent s ->
  let s1 := after (coverTypesForToken_run s attackingToken targetToken) in
  consistent s1
  /\ forall a, coverTypesForToken s1 a targetToken = coverTypesForToken s a targetToken.
Proof.
  intros Hc s1.
  assert (Hs1 : s1 = mkCatalog (coverObjectsMap s) (rebuiltOrdered (coverObjectsMap s))
                       (rebuiltUnordered (coverObjectsMap s)) false).
  { unfold s1. rewrite (coverTypesForToken_run_eq _ _ s Hc). reflexivity. }
  assert (Hc1 : consistent s1).
  { rewrite Hs1. intros _. split; reflexivity. }
  split; [exact Hc1 |].
  intros a. unfold coverTypesForToken.
  rewrite (coverTypesForToken_run_eq _ _ s1 Hc1), (coverTypesForToken_run_eq _ _ s Hc).
  rewrite Hs1. reflexivity.
Qed.

Lemma attackersLoop_results (attackingTokens : list Token) :
  forall s m o,
    consistent s ->
    fst (attackersLoop s targetToken attackingTokens m o)
    = resultsLoop (map (fun a => coverTypesForToken s a targetToken) attackingTokens) m o.
Proof.
  induction attackingTokens as [| a rest IH]; intros s m o Hc; [reflexivity |].
  cbn [attackersLoop map resultsLoop]. unfold coverTypesFromAttacker, splitCoverTypes.
  fold (coverTypesForToken s a targetToken).
  rewrite splitCoverTypes_eq.
  destruct (run_after s a Hc) as [Hc1 Hsame].
  rewrite (IH _ _ _ Hc1).
  rewrite (map_ext _ _ Hsame). reflexivity.
Qed.

End Attackers.

Lemma pickMin_least (m : option CoverType) (seen : list CoverType) (ct : CoverType) :
  leastOf m seen -> leastOf (pickMin m ct) (seen ++ [ct]).
Proof.
  intros Hm. unfold pickMin.
  destruct (JS.truthy (priorityValue ct)) eqn:Ep; cbn [negb].
  - destruct m as [p |]; cbn [leastOf] in *.
    + destruct Hm as (Hin & Hp & Hle).
      destruct (Z.gtb_spec (priorityNumber p) (priorityNumber ct)) as [Hgt | Hngt];
        cbn [leastOf].
      * split; [apply in_or_app; right; left; reflexivity |].
        split; [exact Ep |].
        intros q Hq Hqp. apply in_app_or in Hq. destruct Hq as [Hq | [<- | []]]; [| lia].
        pose proof (Hle q Hq Hqp). lia.
      * split; [apply in_or_app; left; exact Hin |].
        split; [exact Hp |].
        intros q Hq Hqp. apply in_app_or in Hq. destruct Hq as [Hq | [<- | []]]; [| lia].
        apply Hle; assumption.
    + split; [apply in_or_app; right; left; reflexivity |].
      split; [exact Ep |].
      intros q Hq Hqp. apply in_app_or in Hq. destruct Hq as [Hq | [<- | []]]; [| lia].
      pose proof (Hm q Hq). congruence.
  - destruct m as [p |]; cbn [leastOf] in *.
    + destruct Hm as (Hin & Hp & Hle).
      split; [apply in_or_app; left; exact Hin |].
      split; [exact Hp |].
      intros q Hq Hqp. apply in_app_or in Hq. destruct Hq as [Hq | [<- | []]].
      * apply Hle; assumption.
      * unfold prioritized in Hqp. congruence.
    + intros q Hq. apply in_app_or in Hq. destruct Hq as [Hq | [<- | []]];
        [apply Hm, Hq | exact Ep].
Qed.

Lemma fold_pickMin_least (coverTypes : list CoverType) :
  forall m seen, leastOf m seen -> leastOf (fold_left pickMin coverTypes m) (seen ++ coverTypes).
Proof.
  induction coverTypes as [| ct cts IH]; intros m seen Hm; cbn [fold_left].
  - rewrite app_nil_r. exact Hm.
  - replace (seen ++ ct :: cts) with ((seen ++ [ct]) ++ cts)
      by (rewrite <- app_assoc; reflexivity).
    apply IH, pickMin_least, Hm.
Qed.

Lemma fold_pickOther_In (coverTypes : list CoverType) (ct : CoverType) :
  forall o,
    In ct (fold_left pickOther coverTypes o)
    <-> In ct o \/ (In ct coverTypes /\ prioritized ct = false).
Proof.
  induction coverTypes as [| c cts IH]; intros o; cbn [fold_left]; [simpl; tauto |].
  rewrite IH. unfold pickOther.
  destruct (JS.truthy (priorityValue c)) eqn:Ep; cbn [negb].
  - simpl. split; [tauto |].
    intros [Ho | [[<- | Hin] Hun]]; auto. unfold prioritized in Hun. congruence.
  - rewrite Set_add_In. simpl. split.
    + intros [[Ho | ->] | [Hin Hun]]; auto.
    + intros [Ho | [[<- | Hin] Hun]]; auto.
Qed.

Lemma Set_intersection_In (a b : list CoverType) (ct : CoverType) :
  In ct (Set_intersection a b) <-> In ct a /\ In ct b.
Proof. unfold Set_intersection. rewrite filter_In, Set_has_In. tauto. Qed.

Lemma resultsLoop_least (results : list (list CoverType)) :
  forall m o seen,
    leastOf m seen -> leastOf (fst (resultsLoop results m o)) (seen ++ List.concat results).
Proof.
  induction results as [| r rest IH]; intros m o seen Hm; cbn [resultsLoop List.concat].
  - rewrite app_nil_r. exact Hm.
  - rewrite app_assoc. apply IH, fold_pickMin_least, Hm.
Qed.

Lemma resultsLoop_others (results : list (list CoverType)) :
  forall m o,
    exists o',
      snd (resultsLoop results m (Some o)) = Some o'
      /\ forall ct,
           In ct o'
           <-> In ct o /\ forall r, In r results -> In ct r /\ prioritized ct = false.
Proof.
  induction results as [| r rest IH]; intros m o; cbn [resultsLoop].
  - exists o. split; [reflexivity |]. intros ct. simpl. tauto.
  - destruct (IH (fold_left pickMin r m)
                 (Set_intersection o (fold_left pickOther r []))) as (o' & Heq & Ho').
    exists o'. split; [exact Heq |].
    intros ct. rewrite Ho', Set_intersection_In, fold_pickOther_In. simpl.
    split.
    + intros [[Ho [[] | Hr]] Hrest]. split; [exact Ho |].
      intros r' [<- | Hr']; [exact Hr | apply Hrest, Hr'].
    + intros [Ho Hall]. split; [split; [exact Ho | right; apply Hall; left; reflexivity] |].
      intros r' Hr'. apply Hall. right. exact Hr'.
Qed.

Section Minimum.

Context `{Calculator}.
Variable targetToken : Token.

(** X13: with at least one attacker [minimumCoverFromAttackers]
    returns a set.  A category without priority is in it exactly when
    every attacker's classification has it; its prioritized member, if
    any, comes from some attacker's classification and has the least
    priority among all the prioritized categories the attackers give;
    there is one as soon as some attacker gives one, and never two. *)
Theorem minimumCover_several (s : Catalog) (attackingTokens : list Token) :
  reachable s ->
  attackingTokens <> [] ->
  exists r,
    minimumCoverFromAttackers s targetToken attackingTokens = Returned r
    /\ (forall ct, prioritized ct = false ->
          (In ct r <-> forall a, In a attackingTokens ->
                                 In ct (coverTypesForToken s a targetToken)))
    /\ (forall p, In p r -> prioritized p = true ->
          (exists a, In a attackingTokens /\ In p (coverTypesForToken s a targetToken))
          /\ forall a q, In a attackingTokens ->
                         In q (coverTypesForToken s a targetToken) ->
                         prioritized q = true -> priorityNumber p <= priorityNumber q)
    /\ ((exists a q, In a attackingTokens
                     /\ In q (coverTypesForToken s a targetToken)
                     /\ prioritized q = true) ->
        exists p, In p r /\ prioritized p = true)
    /\ (forall p q, In p r -> In q r -> prioritized p = true -> prioritized q = true ->
                    p = q).
Proof.
  intros Hr Hne.
  pose proof (reachable_consistent s Hr) as Hc.
  destruct attackingTokens as [| a0 rest]; [congruence |]. clear Hne.
  set (attackers := a0 :: rest).
  set (results := map (fun a => coverTypesForToken s a targetToken) attackers).
  assert (Hin_results : forall ct,
             In ct (List.concat results)
             <-> exists a, In a attackers /\ In ct (coverTypesForToken s a targetToken)).
  { intros ct. rewrite in_concat. unfold results. split.
    - intros (r & Hrin & Hct). apply in_map_iff in Hrin.
      destruct Hrin as (a & <- & Ha). exists a. tauto.
    - intros (a & Ha & Hct). exists (coverTypesForToken s a targetToken).
      split; [| exact Hct].
      apply in_map_iff. exists a. split; [reflexivity | exact Ha]. }
  pose proof (attackersLoop_results targetToken attackers s None None Hc) as Hloop.
  fold results in Hloop.
  pose proof (resultsLoop_least results None None [] (fun q Hq => match Hq with end))
    as Hleast.
  cbn [app] in Hleast.
  assert (Hothers : exists o',
             snd (resultsLoop results None None) = Some o'
             /\ forall ct, In ct o'
                  <-> prioritized ct = false
                      /\ forall a, In a attackers ->
                                   In ct (coverTypesForToken s a targetToken)).
  { unfold results, attackers. cbn [map resultsLoop].
    destruct (resultsLoop_others
                (map (fun a => coverTypesForToken s a targetToken) rest)
                (fold_left pickMin (coverTypesForToken s a0 targetToken) None)
                (fold_left pickOther (coverTypesForToken s a0 targetToken) []))
      as (o' & Heq & Ho').
    exists o'. split; [exact Heq |].
    intros ct. rewrite Ho', fold_pickOther_In. simpl. split.
    - intros [[[] | [H0 Hun]] Hall]. split; [exact Hun |].
      intros a [<- | Ha]; [exact H0 |].
      apply (Hall (coverTypesForToken s a targetToken)).
      apply in_map_iff. exists a. split; [reflexivity | exact Ha].
    - intros [Hun Hall]. split; [right; split; [apply Hall; left; reflexivity | exact Hun] |].
      intros r Hrin. apply in_map_iff in Hrin. destruct Hrin as (a & <- & Ha).
      split; [apply Hall; right; exact Ha | exact Hun]. }
  destruct Hothers as (o' & Hsnd & Ho').
  unfold minimumCoverFromAttackers. fold attackers.
  destruct (attackersLoop s targetToken attackers None None) as [[m o] s'] eqn:El.
  cbn [fst] in Hloop.
  destruct (resultsLoop results None None) as [m' o''] eqn:Er.
  cbn [fst snd] in Hleast, Hsnd. inversion Hloop. subst m o o''. clear Hloop.
  exists (Set_union (match m' with Some m0 => [m0] | None => [] end) o').
  split; [reflexivity |].
  assert (Hmem : forall ct,
             In ct (Set_union (match m' with Some m0 => [m0] | None => [] end) o')
             <-> m' = Some ct \/ In ct o').
  { intros ct. unfold Set_union. rewrite fold_Set_add_In.
    destruct m' as [m0 |]; simpl; split.
    - intros [[<- | []] | Ho]; auto.
    - intros [Hm | Ho]; [inversion Hm; auto | auto].
    - intros [[] | Ho]; auto.
    - intros [Hm | Ho]; [discriminate | auto]. }
  split; [| split; [| split]].
  - intros ct Hun. rewrite Hmem, Ho'. split.
    + intros [Hm | [_ Hall]]; [| exact Hall].
      subst m'. cbn [leastOf] in Hleast. destruct Hleast as (_ & Hp & _). congruence.
    + intros Hall. right. split; assumption.
  - intros p Hp Hprio. apply Hmem in Hp. destruct Hp as [-> | Hp];
      [| apply Ho' in Hp; destruct Hp as [Hun _]; congruence].
    cbn [leastOf] in Hleast. destruct Hleast as (Hin & _ & Hle).
    split; [apply Hin_results, Hin |].
    intros a q Ha Hq Hqp. apply Hle; [| exact Hqp].
    apply Hin_results. exists a. tauto.
  - intros (a & q & Ha & Hq & Hqp).
    destruct m' as [m0 |]; cbn [leastOf] in Hleast.
    + exists m0. split; [apply Hmem; left; reflexivity | apply Hleast].
    + exfalso. assert (Hf : prioritized q = false)
        by (apply Hleast, Hin_results; exists a; tauto).
      congruence.
  - intros p q Hp Hq Hpp Hqp. apply Hmem in Hp. apply Hmem in Hq.
    destruct Hp as [Hp | Hp]; [| apply Ho' in Hp; destruct Hp; congruence].
    destruct Hq as [Hq | Hq]; [| apply Ho' in Hq; destruct Hq; congruence].
    congruence.
Qed.

End Minimum.

Lemma minimumCover_several_witness :
  exists r,
    @minimumCoverFromAttackers twoViews catalogABC target
      [attacker; tokenOf "other" "med" []] = Returned r
    /\ (forall ct, prioritized ct = false ->
          (In ct r <-> forall a, In a [attacker; tokenOf "other" "med" []] ->
                                 In ct (@coverTypesForToken twoViews catalogABC a target))).
Proof.
  destruct (@minimumCover_several twoViews target catalogABC
              [attacker; tokenOf "other" "med" []]
              (SampleProofs.catalogOf_reachable _)
              (fun E => match E with eq_refl => I end))
    as (r & Hr & Hothers & _).
  exists r. split; [exact Hr | exact Hothers].
Defined.

(** *** Icons on a token *)

Lemma setEffects_same (token : Token) : setEffects token (effects token) = token.
Proof. destruct token. reflexivity. Qed.

Lemma filter_all {T : Type} (f : T -> bool) (l : list T) :
  (forall v, In v l -> f v = true) <-> filter f l = l.
Proof.
  induction l as [| v l IH]; cbn [filter]; [simpl; tauto |].
  destruct (f v) eqn:Ev; split.
  - intros Hall. f_equal. apply IH. intros w Hw. apply Hall. right. exact Hw.
  - intros Heq w [<- | Hw]; [exact Ev |].
    injection Heq as Heq. apply (proj2 IH Heq w Hw).
  - intros Hall. rewrite (Hall v (or_introl eq_refl)) in Ev. discriminate.
  - intros Heq. exfalso.
    assert (Hin : In v (filter f l)) by (rewrite Heq; left; reflexivity).
    apply filter_In in Hin. destruct Hin as [_ Hf]. congruence.
Qed.

Lemma count_occ_filter_other (i e : string) (l : list string) :
  i <> e ->
  count_occ string_dec (filter (fun x => negb (String.eqb i x)) l) e
  = count_occ string_dec l e.
Proof.
  intros Hne. induction l as [| x l IH]; [reflexivity |].
  cbn [filter]. destruct (String.eqb_spec i x) as [<- | Hx]; cbn [negb count_occ].
  - destruct (string_dec i e); [congruence | exact IH].
  - destruct (string_dec x e); [f_equal |]; exact IH.
Qed.

Lemma removeFromToken_eq (ct : CoverType) (token : Token) :
  removeFromToken ct token
  = (icons_has (effects token) (icon (document ct)),
     setEffects token
       (filter (fun e => negb (String.eqb (icon (document ct)) e)) (effects token))).
Proof.
  unfold removeFromToken, findSpliceAll, icons_has.
  destruct (existsb (String.eqb (icon (document ct))) (effects token)) eqn:Ex;
    [reflexivity |].
  f_equal. rewrite (proj1 (filter_all _ (effects token))); [symmetry; apply setEffects_same |].
  intros e He. destruct (String.eqb_spec (icon (document ct)) e) as [Heq |]; [| reflexivity].
  rewrite <- Heq in He.
  apply (icons_has_In (effects token)) in He. unfold icons_has in He. congruence.
Qed.

(** X14: [removeFromToken] takes every occurrence of the type's icon
    off the token and leaves every other icon; it returns true exactly
    when the icon was there, and a second call changes nothing. *)
Theorem removeFromToken_clears (ct : CoverType) (token : Token) :
  let r := removeFromToken ct token in
  (fst r = true <-> In (icon (document ct)) (effects token))
  /\ ~ In (icon (document ct)) (effects (snd r))
  /\ (forall e, e <> icon (document ct) ->
                count_occ string_dec (effects (snd r)) e
                = count_occ string_dec (effects token) e)
  /\ (fst r = false -> snd r = token)
  /\ removeFromToken ct (snd r) = (false, snd r).
Proof.
  intros r. subst r. rewrite removeFromToken_eq. cbn [fst snd].
  set (eff := filter (fun e => negb (String.eqb (icon (document ct)) e)) (effects token)).
  assert (Habsent : ~ In (icon (document ct)) eff).
  { unfold eff. intros Hin. apply filter_In in Hin. destruct Hin as [_ Hf].
    rewrite String.eqb_refl in Hf. discriminate. }
  split; [apply icons_has_In |].
  split; [exact Habsent |].
  split.
  { intros e He. unfold eff. cbn [effects setEffects].
    apply count_occ_filter_other. congruence. }
  split.
  { intros Hf. unfold eff.
    rewrite (proj1 (filter_all _ (effects token))); [apply setEffects_same |].
    intros e He. destruct (String.eqb_spec (icon (document ct)) e) as [Heq |]; [| reflexivity].
    rewrite <- Heq in He.
    apply (icons_has_In (effects token)) in He. congruence. }
  unfold removeFromToken. cbn [effects setEffects].
  destruct (existsb (String.eqb (icon (document ct))) eff) eqn:Ex; [| reflexivity].
  exfalso. apply Habsent. apply (icons_has_In eff). exact Ex.
Qed.

Lemma removeFromToken_clears_witness :
  let token := tokenOf "target" "med" ["A.svg"; "C.svg"; "A.svg"] in
  effects (snd (removeFromToken coverA token)) = ["C.svg"]
  /\ ~ In (icon (document coverA)) (effects (snd (removeFromToken coverA token)))
  /\ removeFromToken coverA (snd (removeFromToken coverA token))
     = (false, snd (removeFromToken coverA token)).
Proof.
  intros token. split; [reflexivity |].
  destruct (removeFromToken_clears coverA token) as (_ & Habsent & _ & _ & Hagain).
  split; [exact Habsent | exact Hagain].
Defined.

Lemma removal_loop_eq (test : CoverType -> bool) (others : list CoverType) :
  forall token,
    fold_left
      (fun tk other => if test other then snd (removeFromToken other tk) else tk)
      others token
    = setEffects token
        (filter (fun e => negb (existsb (fun o => test o
                                                  && String.eqb (icon (document o)) e)
                                        others))
                (effects token)).
Proof.
  induction others as [| o others IH]; intros token; cbn [fold_left].
  - cbn [existsb negb]. rewrite (proj1 (filter_all _ _)); [| reflexivity].
    symmetry. apply setEffects_same.
  - rewrite IH. destruct (test o) eqn:Et.
    + rewrite removeFromToken_eq. cbn [snd effects setEffects].
      unfold setEffects at 1. cbn [tokenName sizeValue setEffects].
      unfold setEffects. f_equal.
      rewrite filter_filter. apply filter_ext. intros e. cbn [existsb andb].
      rewrite negb_orb, Et. reflexivity.
    + f_equal. apply filter_ext. intros e. cbn [existsb]. rewrite Et. reflexivity.
Qed.

(** X15: after [addToToken] the type's icon is on the token; the call
    returns true exactly when it was not there before, leaves the token
    alone otherwise, puts no other icon on it, and a second call
    changes nothing. *)
Theorem addToToken_adds (catalog : list CoverType) (ct : CoverType) (token : Token) :
  let r := addToToken catalog ct token in
  (fst r = true <-> ~ In (icon (document ct)) (effects token))
  /\ In (icon (document ct)) (effects (snd r))
  /\ (fst r = false -> snd r = token)
  /\ (forall e, In e (effects (snd r)) -> In e (effects token) \/ e = icon (document ct))
  /\ addToToken catalog ct (snd r) = (false, snd r).
Proof.
  intros r.
  assert (Hin : In (icon (document ct)) (effects (snd r))).
  { subst r. unfold addToToken.
    destruct (existsb (String.eqb (icon (document ct))) (effects token)) eqn:Ex.
    - apply (icons_has_In (effects token)). exact Ex.
    - destruct (canOverlap (document ct)); cbn [snd effects setEffects];
        apply in_or_app; right; left; reflexivity. }
  split; [| split; [exact Hin | split; [| split]]].
  - subst r. unfold addToToken.
    destruct (existsb (String.eqb (icon (document ct))) (effects token)) eqn:Ex.
    + apply (icons_has_In (effects token)) in Ex. cbn [fst]. split; [discriminate | tauto].
    + assert (Hno : ~ In (icon (document ct)) (effects token)).
      { intros Hi. apply (icons_has_In (effects token)) in Hi.
        unfold icons_has in Hi. congruence. }
      destruct (canOverlap (document ct)); cbn [fst]; tauto.
  - subst r. unfold addToToken.
    destruct (existsb (String.eqb (icon (document ct))) (effects token)) eqn:Ex;
      [reflexivity |].
    destruct (canOverlap (document ct)); cbn [fst]; discriminate.
  - intros e. apply addToToken_effects.
  - apply addToToken_present. exact Hin.
Qed.

Lemma addToToken_adds_witness :
  let catalog := coverObjectsMap catalogABC in
  let token := tokenOf "target" "med" ["A.svg"] in
  In (icon (document coverB)) (effects (snd (addToToken catalog coverB token)))
  /\ addToToken catalog coverB (snd (addToToken catalog coverB token))
     = (false, snd (addToToken catalog coverB token)).
Proof.
  intros catalog token.
  destruct (addToToken_adds catalog coverB token) as (_ & Hin & _ & _ & Hagain).
  split; [exact Hin | exact Hagain].
Defined.

(** X16: a type that can overlap is added at the end of the token's
    icons, and taking it off again gives the token back. *)
Theorem addToToken_overlapping (catalog : list CoverType) (ct : CoverType) (token : Token) :
  canOverlap (document ct) = true ->
  ~ In (icon (document ct)) (effects token) ->
  effects (snd (addToToken catalog ct token)) = effects token ++ [icon (document ct)]
  /\ removeFromToken ct (snd (addToToken catalog ct token)) = (true, token).
Proof.
  intros Hov Hno.
  assert (Hex : existsb (String.eqb (icon (document ct))) (effects token) = false).
  { destruct (existsb _ _) eqn:Ex; [| reflexivity].
    exfalso. apply Hno. apply (icons_has_In (effects token)). exact Ex. }
  unfold addToToken. rewrite Hex, Hov. cbn [snd].
  split; [reflexivity |].
  rewrite removeFromToken_eq. cbn [effects setEffects]. f_equal.
  - apply icons_has_In. apply in_or_app. right. left. reflexivity.
  - rewrite filter_app. cbn [filter]. rewrite String.eqb_refl. cbn [negb].
    rewrite app_nil_r.
    rewrite (proj1 (filter_all _ (effects token))).
    + unfold setEffects. cbn [tokenName sizeValue]. destruct token. reflexivity.
    + intros e He. destruct (String.eqb_spec (icon (document ct)) e) as [Heq |];
        [rewrite <- Heq in He; tauto | reflexivity].
Qed.

Lemma addToToken_overlapping_witness :
  effects (snd (addToToken (coverObjectsMap catalogABC) coverC
                  (tokenOf "target" "med" ["A.svg"])))
  = ["A.svg"; "C.svg"]
  /\ removeFromToken coverC
       (snd (addToToken (coverObjectsMap catalogABC) coverC
               (tokenOf "target" "med" ["A.svg"])))
     = (true, tokenOf "target" "med" ["A.svg"]).
Proof.
  apply (addToToken_overlapping (coverObjectsMap catalogABC) coverC
           (tokenOf "target" "med" ["A.svg"])).
  - reflexivity.
  - simpl. intros [Hf | []]. discriminate Hf.
Defined.

(** X17: a type that cannot overlap, when added, first takes off the
    token every icon that a non-overlapping category of the catalog
    uses; the other icons stay in their order and the type's icon
    comes last. *)
Theorem addToToken_exclusive (catalog : list CoverType) (ct : CoverType) (token : Token) :
  canOverlap (document ct) = false ->
  ~ In (icon (document ct)) (effects token) ->
  effects (snd (addToToken catalog ct token))
  = filter (fun e => negb (exclusiveIcon catalog e)) (effects token)
    ++ [icon (document ct)].
Proof.
  intros Hov Hno.
  assert (Hex : existsb (String.eqb (icon (document ct))) (effects token) = false).
  { destruct (existsb _ _) eqn:Ex; [| reflexivity].
    exfalso. apply Hno. apply (icons_has_In (effects token)). exact Ex. }
  unfold addToToken. rewrite Hex, Hov. cbn [snd].
  rewrite removal_loop_eq. cbn [effects setEffects]. f_equal.
  apply filter_ext_in. intros e He. f_equal.
  apply Bool.eq_iff_eq_true. unfold exclusiveIcon. rewrite !existsb_exists. split.
  - intros (o & Ho & Hc). apply filter_In in Ho. destruct Ho as [Ho Hf].
    apply andb_true_iff in Hc. destruct Hc as [_ Hicon].
    apply andb_true_iff in Hf. destruct Hf as [_ Hf].
    exists o. split; [exact Ho |]. rewrite Hf, Hicon. reflexivity.
  - intros (c & Hc & Hb). apply andb_true_iff in Hb. destruct Hb as [Hnov Hicon].
    exists c. split.
    + apply filter_In. split; [exact Hc |]. rewrite Hnov, andb_true_r.
      apply String.eqb_eq in Hicon.
      destruct (String.eqb_spec (icon (document c)) (icon (document ct))) as [Heq |];
        [| reflexivity].
      exfalso. apply Hno. rewrite <- Heq, Hicon. exact He.
    + rewrite Hicon, andb_true_r. apply String.eqb_eq in Hicon. rewrite Hicon.
      apply icons_has_In, iconSet_In. exact He.
Qed.

Lemma addToToken_exclusive_witness :
  effects (snd (addToToken (coverObjectsMap catalogABC) coverB
                  (tokenOf "target" "med" ["A.svg"; "poison.svg"; "C.svg"])))
  = ["poison.svg"; "C.svg"; "B.svg"].
Proof.
  rewrite (addToToken_exclusive (coverObjectsMap catalogABC) coverB
             (tokenOf "target" "med" ["A.svg"; "poison.svg"; "C.svg"])).
  - reflexivity.
  - reflexivity.
  - simpl. intros [Hf | [Hf | [Hf | []]]]; discriminate Hf.
Defined.

(** *** Replacing the cover types of a token *)

Lemma setEffects_twice (token : Token) (a b : list string) :
  setEffects (setEffects token a) b = setEffects token b.
Proof. reflexivity. Qed.

Lemma filter_nil_iff {T : Type} (f : T -> bool) (l : list T) :
  filter f l = [] <-> forall v, In v l -> f v = false.
Proof.
  split.
  - intros Hnil v Hv. destruct (f v) eqn:Ev; [| reflexivity].
    assert (Hin : In v (filter f l)) by (apply filter_In; tauto).
    rewrite Hnil in Hin. destruct Hin.
  - intros Hall. apply filter_none. apply Forall_forall. exact Hall.
Qed.

Lemma add_loop_overlapping (catalog coverTypes : list CoverType) :
  (forall ct, In ct coverTypes -> canOverlap (document ct) = true) ->
  forall b token,
    exists extra,
      fold_left
        (fun (a : bool * Token) ct =>
           let out := addToToken catalog ct (snd a) in
           (fst a || fst out, snd out))
        coverTypes (b, token)
      = (b || match extra with [] => false | _ :: _ => true end,
         setEffects token (effects token ++ extra))
      /\ (forall e, In e extra -> In e (iconsOf coverTypes) /\ ~ In e (effects token))
      /\ (forall ct, In ct coverTypes -> In (icon (document ct)) (effects token ++ extra)).
Proof.
  induction coverTypes as [| ct cts IH]; intros Hov b token.
  - exists []. cbn [fold_left]. rewrite orb_false_r, app_nil_r, setEffects_same.
    split; [reflexivity |]. split; [intros e [] | intros ct []].
  - assert (Hov' : forall c, In c cts -> canOverlap (document c) = true)
      by (intros c Hc; apply Hov; right; exact Hc).
    cbn [fold_left]. cbv zeta. cbn [fst snd].
    destruct (existsb (String.eqb (icon (document ct))) (effects token)) eqn:Ex.
    + assert (Hin : In (icon (document ct)) (effects token))
        by (apply (icons_has_In (effects token)); exact Ex).
      rewrite (addToToken_present catalog ct token Hin). cbn [fst snd].
      destruct (IH Hov' (b || false) token) as (extra & Heq & Hextra & Hall).
      cbv zeta in Heq. exists extra. rewrite Heq, orb_false_r.
      split; [reflexivity |]. split.
      * intros e He. destruct (Hextra e He) as [Hi Hn]. split; [right; exact Hi | exact Hn].
      * intros c [<- | Hc]; [apply in_or_app; left; exact Hin | apply Hall, Hc].
    + assert (Hno : ~ In (icon (document ct)) (effects token)).
      { intros Hi. apply (icons_has_In (effects token)) in Hi.
        unfold icons_has in Hi. congruence. }
      assert (Hadd : addToToken catalog ct token
                     = (true, setEffects token (effects token ++ [icon (document ct)]))).
      { unfold addToToken. rewrite Ex, (Hov ct (or_introl eq_refl)). reflexivity. }
      rewrite Hadd. cbn [fst snd].
      destruct (IH Hov' (b || true)
                  (setEffects token (effects token ++ [icon (document ct)])))
        as (extra & Heq & Hextra & Hall).
      cbv zeta in Heq. exists (icon (document ct) :: extra). rewrite Heq.
      cbn [effects setEffects]. rewrite setEffects_twice, <- app_assoc.
      rewrite !orb_true_r. cbn [orb app].
      split; [reflexivity |]. split.
      * intros e [<- | He]; [split; [left; reflexivity | exact Hno] |].
        destruct (Hextra e He) as [Hi Hn]. split; [right; exact Hi |].
        intros Hin. apply Hn. cbn [effects setEffects]. apply in_or_app. left. exact Hin.
      * intros c [<- | Hc]; [apply in_or_app; right; left; reflexivity |].
        pose proof (Hall c Hc) as Hin. cbn [effects setEffects] in Hin.
        rewrite <- app_assoc in Hin. exact Hin.
Qed.

Lemma kept_In (coverTypes : list CoverType) (token : Token) (e : string) :
  In e (kept coverTypes token) <-> In e (effects token) /\ In e (iconsOf coverTypes).
Proof. unfold kept. rewrite filter_In, icons_has_In. tauto. Qed.

Lemma kept_all (coverTypes : list CoverType) (token : Token) :
  kept coverTypes token = effects token
  <-> forall e, In e (effects token) -> In e (iconsOf coverTypes).
Proof.
  unfold kept. rewrite <- filter_all. split; intros Hall e He.
  - apply icons_has_In, Hall, He.
  - apply icons_has_In, Hall, He.
Qed.

Lemma replace_overlapping_shape (catalog : list CoverType) (token : Token)
    (coverTypes : list CoverType) :
  (forall ct, In ct coverTypes -> canOverlap (document ct) = true) ->
  exists extra,
    snd (replaceCoverTypes catalog token coverTypes)
    = setEffects token (kept coverTypes token ++ extra)
    /\ (forall e, In e extra -> In e (iconsOf coverTypes) /\ ~ In e (effects token))
    /\ (forall e, In e (iconsOf coverTypes) -> In e (kept coverTypes token ++ extra))
    /\ (JS.truthy (fst (replaceCoverTypes catalog token coverTypes)) = false
        <-> kept coverTypes token = effects token /\ extra = []).
Proof.
  intros Hov. unfold replaceCoverTypes.
  destruct (Set_union [] coverTypes) as [| c0 cs] eqn:Eu.
  - assert (Hnil : coverTypes = []).
    { destruct coverTypes as [| c l]; [reflexivity |].
      assert (Hin : In c (Set_union [] (c :: l)))
        by (apply Set_union_nil_In; left; reflexivity).
      rewrite Eu in Hin. destruct Hin. }
    subst coverTypes. exists [].
    assert (Hk : kept [] token = []).
    { unfold kept. apply filter_nil_iff. reflexivity. }
    rewrite Hk. cbn [app].
    destruct (effects token) as [| e0 es] eqn:Ee; cbn [fst snd JS.truthy].
    + split; [rewrite <- Ee; symmetry; apply setEffects_same |].
      split; [intros e [] |]. split; [intros e [] |]. tauto.
    + split; [reflexivity |].
      split; [intros e [] |]. split; [intros e [] |].
      split; [discriminate | intros [Hf _]; discriminate Hf].
  - set (cts := c0 :: cs) in *.
    set (toKeep := iconSet (map (fun ct => icon (document ct)) cts)).
    set (toRemove := filter (fun e => negb (icons_has toKeep e)) (iconSet (effects token))).
    assert (HtoKeep : forall e, In e toKeep <-> In e (iconsOf coverTypes)).
    { intros e. unfold toKeep. rewrite iconSet_In.
      fold (iconsOf cts). rewrite <- Eu. apply iconsOf_union. }
    assert (Hhas : forall e, icons_has toKeep e = icons_has (iconsOf coverTypes) e).
    { intros e. apply Bool.eq_iff_eq_true. rewrite !icons_has_In. apply HtoKeep. }
    assert (Hrem : toRemove = [] <-> kept coverTypes token = effects token).
    { unfold toRemove. rewrite filter_nil_iff, kept_all. split; intros Hall e He.
      - apply (proj2 (iconSet_In _ _)) in He. apply Hall in He.
        apply HtoKeep, icons_has_In. destruct (icons_has toKeep e); [reflexivity | discriminate].
      - apply (proj1 (iconSet_In _ _)) in He. apply Hall in He.
        apply HtoKeep, icons_has_In in He. rewrite He. reflexivity. }
    set (token1 := if JS.truthy (JS.VNum (Z.of_nat (List.length toRemove)))
                   then setEffects token
                          (findSpliceAll (effects token) (icons_has toRemove))
                   else token).
    assert (H1 : token1 = setEffects token (kept coverTypes token)).
    { unfold token1. cbn [JS.truthy].
      destruct (Z.eqb_spec (Z.of_nat (List.length toRemove)) 0) as [Hz | Hnz]; cbn [negb].
      - assert (Hnone : toRemove = []) by (destruct toRemove; [reflexivity | simpl in Hz; lia]).
        rewrite (proj1 Hrem Hnone). symmetry. apply setEffects_same.
      - f_equal. unfold findSpliceAll, kept. apply filter_ext_in. intros e He.
        rewrite <- Hhas. apply Bool.eq_iff_eq_true.
        rewrite negb_true_iff, <- not_true_iff_false, icons_has_In.
        unfold toRemove. rewrite filter_In, iconSet_In, negb_true_iff.
        destruct (icons_has toKeep e); intuition congruence. }
    assert (Hcts : forall ct, In ct cts <-> In ct coverTypes).
    { intros ct. rewrite <- Eu. apply Set_union_nil_In. }
    destruct (add_loop_overlapping catalog cts
                (fun ct Hct => Hov ct (proj1 (Hcts ct) Hct)) false token1)
      as (extra & Heq & Hextra & Hall).
    cbv zeta in Heq. fold token1. clearbody cts token1. rewrite Heq.
    subst token1. cbn [effects setEffects fst snd orb] in *.
    exists extra.
    assert (HiconsOf : forall e, In e (iconsOf cts) <-> In e (iconsOf coverTypes)).
    { intros e. unfold iconsOf. rewrite !in_map_iff.
      split; intros (ct & He & Hct); exists ct; (split; [exact He |]); apply Hcts, Hct. }
    split; [apply setEffects_twice |].
    split.
    { intros e He. destruct (Hextra e He) as [Hi Hn]. apply HiconsOf in Hi.
      split; [exact Hi |]. intros Hin. apply Hn. apply kept_In. tauto. }
    split.
    { intros e He. apply HiconsOf in He. unfold iconsOf in He. apply in_map_iff in He.
      destruct He as (ct & <- & Hct). apply Hall, Hct. }
    rewrite <- Hrem. unfold JS.or. cbn [JS.truthy].
    destruct extra as [| x extra]; cbn [JS.truthy].
    + rewrite negb_false_iff, Z.eqb_eq. split.
      * intros Hz. split; [| reflexivity].
        destruct toRemove; [reflexivity | simpl in Hz; lia].
      * intros [-> _]. reflexivity.
    + split; [discriminate | intros [_ Hf]; discriminate Hf].
Qed.

(** X18: when every desired cover type can overlap,
    [replaceCoverTypes] leaves on the token exactly the icons of the
    desired types: those it had among them, in their order, then the
    missing ones.  The value returned is falsy exactly when the token
    is unchanged, and replacing again changes nothing. *)
Theorem replaceCoverTypes_overlapping (catalog : list CoverType) (token : Token)
    (coverTypes : list CoverType) :
  (forall ct, In ct coverTypes -> canOverlap (document ct) = true) ->
  let r := replaceCoverTypes catalog token coverTypes in
  (forall e, In e (effects (snd r)) <-> In e (iconsOf coverTypes))
  /\ (exists extra, effects (snd r) = kept coverTypes token ++ extra)
  /\ (JS.truthy (fst r) = false <-> snd r = token)
  /\ snd (replaceCoverTypes catalog (snd r) coverTypes) = snd r.
Proof.
  intros Hov r.
  destruct (replace_overlapping_shape catalog token coverTypes Hov)
    as (extra & Hsnd & Hextra & Hall & Htruthy).
  fold r in Hsnd, Htruthy.
  assert (Hiff : forall e, In e (effects (snd r)) <-> In e (iconsOf coverTypes)).
  { intros e. rewrite Hsnd. cbn [effects setEffects]. split; [| apply Hall].
    intros Hin. apply in_app_or in Hin. destruct Hin as [Hin | Hin].
    - apply kept_In in Hin. tauto.
    - apply Hextra, Hin. }
  split; [exact Hiff |].
  split; [exists extra; rewrite Hsnd; reflexivity |].
  split.
  - rewrite Htruthy. split.
    + intros [Hk ->]. rewrite Hsnd, Hk, app_nil_r. apply setEffects_same.
    + intros Heq. rewrite Hsnd in Heq.
      assert (Heff : kept coverTypes token ++ extra = effects token).
      { rewrite <- Heq at 2. reflexivity. }
      assert (Hnil : extra = []).
      { destruct extra as [| x extra]; [reflexivity |]. exfalso.
        destruct (Hextra x (or_introl eq_refl)) as [_ Hn]. apply Hn.
        rewrite <- Heff. apply in_or_app. right. left. reflexivity. }
      subst extra. rewrite app_nil_r in Heff. tauto.
  - destruct (replace_overlapping_shape catalog (snd r) coverTypes Hov)
      as (extra2 & Hsnd2 & Hextra2 & _ & _).
    rewrite Hsnd2.
    assert (Hnil : extra2 = []).
    { destruct extra2 as [| x extra2]; [reflexivity |]. exfalso.
      destruct (Hextra2 x (or_introl eq_refl)) as [Hi Hn]. apply Hn, Hiff, Hi. }
    subst extra2. rewrite app_nil_r.
    rewrite (proj2 (kept_all coverTypes (snd r))); [apply setEffects_same |].
    intros e He. apply Hiff, He.
Qed.

Lemma replaceCoverTypes_overlapping_witness :
  let catalog := coverObjectsMap catalogABC in
  let token := tokenOf "target" "med" ["poison.svg"; "C.svg"] in
  let cover := coverType "E" (1 # 8) None true in
  let r := replaceCoverTypes catalog token [cover; coverC] in
  (forall e, In e (effects (snd r)) <-> In e ["E.svg"; "C.svg"])
  /\ effects (snd r) = ["C.svg"; "E.svg"].
Proof.
  intros catalog token cover r. split; [| reflexivity].
  apply (replaceCoverTypes_overlapping catalog token [cover; coverC]).
  intros ct [<- | [<- | []]]; reflexivity.
Defined.

(** Two desired types that cannot overlap: the one added last takes
    the other's icon off again, and the call reports a change although
    the token ends as it began. *)
Example replaceCoverTypes_exclusive_pair :
  let catalog := coverObjectsMap catalogABC in
  let token := tokenOf "target" "med" ["A.svg"] in
  replaceCoverTypes catalog token [coverB; coverA] = (JS.VBool true, token).
Proof. reflexivity. Qed.

(** *** The pf2e variant *)

Lemma Set_delete_In (c ct : CoverType) (l : list CoverType) :
  In ct (Set_delete c l) <-> In ct l /\ ct <> c.
Proof.
  unfold Set_delete. rewrite filter_In. unfold same.
  destruct (CoverType_eq_dec c ct) as [-> | Hne]; simpl; split; intros [Hin Hx];
    try (split; [exact Hin |]); congruence.
Qed.

Lemma sizeOf_range (token : Token) (n : Z) :
  toNumber (sizeOf token) = Some n -> 1 <= n <= 6.
Proof.
  unfold sizeOf, ACTOR_SIZES.
  repeat (destruct (String.eqb (sizeValue token) _);
          [cbn; intros Hn; try discriminate Hn; injection Hn as <-; lia |]).
  destruct (existsb _ inheritedKeys); cbn; intros Hn; [discriminate Hn |].
  injection Hn as <-. lia.
Qed.

Section PF2EVariant.

Context `{Calculator}.

Lemma upgradeLoop_cases (tokens : list Token) (upgradeSize : option Z)
    (lesserCover standardCover : CoverType) (types : list CoverType) :
  upgradeLoop tokens upgradeSize lesserCover standardCover types = types
  \/ (exists blocking,
         In blocking tokens
         /\ greater (sizeOf blocking) upgradeSize = true
         /\ upgradeLoop tokens upgradeSize lesserCover standardCover types
            = Set_add standardCover (Set_delete lesserCover types)).
Proof.
  induction tokens as [| tk tokens IH]; [left; reflexivity |].
  cbn [upgradeLoop]. destruct (greater (sizeOf tk) upgradeSize) eqn:Eg.
  - right. exists tk. split; [left; reflexivity |]. split; [exact Eg | reflexivity].
  - destruct IH as [IH | (blocking & Hin & Hg & IH)]; [left; exact IH |].
    right. exists blocking. split; [right; exact Hin |]. split; [exact Hg | exact IH].
Qed.

Lemma pf2e_cases (s : Catalog) (attackingToken targetToken : Token) :
  let base := coverTypesForToken s attackingToken targetToken in
  let out := coverTypesForToken_PF2E s attackingToken targetToken in
  out = base
  \/ (exists standardCover lesserCover blocking t a b,
         Map_get standardKey (coverObjectsMap s) = Some standardCover
         /\ Map_get lesserKey (coverObjectsMap s) = Some lesserCover
         /\ In lesserCover base
         /\ In blocking (blockingTokens attackingToken)
         /\ toNumber (sizeOf targetToken) = Some t
         /\ toNumber (sizeOf attackingToken) = Some a
         /\ toNumber (sizeOf blocking) = Some b
         /\ Z.max t a + 2 <= b
         /\ out = Set_add standardCover (Set_delete lesserCover base)
         /\ In standardCover out
         /\ (lesserCover <> standardCover -> ~ In lesserCover out)).
Proof.
  intros base out. subst out. unfold coverTypesForToken_PF2E. fold base.
  destruct base as [| c0 cs] eqn:Eb; [left; reflexivity |].
  destruct (Map_get standardKey (coverObjectsMap s)) as [standardCover |];
    [| left; reflexivity].
  destruct (Map_get lesserKey (coverObjectsMap s)) as [lesserCover |];
    [| left; reflexivity].
  destruct (Set_has (c0 :: cs) lesserCover) eqn:Eh; cbn [negb]; [| left; reflexivity].
  destruct (upgradeLoop_cases (blockingTokens attackingToken)
              (upgradeSizeOf (sizeOf targetToken) (sizeOf attackingToken))
              lesserCover standardCover (c0 :: cs))
    as [Heq | (blocking & Hin & Hg & Heq)]; [left; exact Heq |].
  right. unfold greater, upgradeSizeOf in Hg.
  destruct (toNumber (sizeOf blocking)) as [b |] eqn:Enb; [| discriminate Hg].
  destruct (toNumber (sizeOf targetToken)) as [t |] eqn:Ent; [| discriminate Hg].
  destruct (toNumber (sizeOf attackingToken)) as [a |] eqn:Ena; [| discriminate Hg].
  apply Z.gtb_lt in Hg.
  exists standardCover, lesserCover, blocking, t, a, b.
  repeat (split; [first [reflexivity | assumption | lia
                        | apply Set_has_In; exact Eh] |]).
  rewrite Heq. split.
  - apply Set_add_In. right. reflexivity.
  - intros Hne Hl. apply Set_add_In in Hl. destruct Hl as [Hl | Hl]; [| congruence].
    apply Set_delete_In in Hl. destruct Hl as [_ Hl]. congruence.
Qed.

(** X19: the pf2e classification upgrades exactly when the catalog has
    entries under both looked-up keys, the inherited result holds the
    lesser one, and some blocking token is at least two size steps
    above the larger of attacker and target, all three sizes being
    numbers.  Then the lesser entry is taken out of the inherited
    result and the standard entry put in; otherwise the result is the
    inherited one. *)
Theorem pf2e_upgrade_exactly (s : Catalog) (attackingToken targetToken : Token) :
  let base := coverTypesForToken s attackingToken targetToken in
  let out := coverTypesForToken_PF2E s attackingToken targetToken in
  (forall standardCover lesserCover,
      upgradable s attackingToken targetToken standardCover lesserCover ->
      out = Set_add standardCover (Set_delete lesserCover base)
      /\ In standardCover out
      /\ (lesserCover <> standardCover -> ~ In lesserCover out))
  /\ ((forall standardCover lesserCover,
          ~ upgradable s attackingToken targetToken standardCover lesserCover) ->
      out = base).
Proof.
  intros base out. split.
  - intros standardCover lesserCover
      (Hst & Hle & Hin & blocking & t & a & b & Hb & Ht & Ha & Hbs & Hsize).
    assert (Heq : out = Set_add standardCover (Set_delete lesserCover base))
      by (apply (pf2e_upgrade_when_found s attackingToken targetToken blocking
                   standardCover lesserCover t a b); assumption).
    split; [exact Heq |]. rewrite Heq. split.
    + apply Set_add_In. right. reflexivity.
    + intros Hne Hl. apply Set_add_In in Hl. destruct Hl as [Hl | Hl]; [| congruence].
      apply Set_delete_In in Hl. destruct Hl as [_ Hl]. congruence.
  - intros Hnot.
    destruct (pf2e_cases s attackingToken targetToken)
      as [Heq | (st & le & blocking & t & a & b & Hst & Hle & Hin & Hb & Ht & Ha & Hbs
                 & Hsize & _)];
      [exact Heq |].
    exfalso. apply (Hnot st le). unfold upgradable.
    split; [exact Hst |]. split; [exact Hle |]. split; [exact Hin |].
    exists blocking, t, a, b. repeat split; assumption.
Qed.

(** X20: sizes run from 1 (tiny) to 6 (gargantuan), so with a huge or
    gargantuan attacker or target nothing is ever upgraded. *)
Theorem pf2e_no_upgrade_for_large (s : Catalog) (attackingToken targetToken : Token)
    (n : Z) :
  toNumber (sizeOf attackingToken) = Some n \/ toNumber (sizeOf targetToken) = Some n ->
  5 <= n ->
  coverTypesForToken_PF2E s attackingToken targetToken
  = coverTypesForToken s attackingToken targetToken.
Proof.
  intros Hn Hlarge.
  destruct (pf2e_cases s attackingToken targetToken)
    as [Heq | (st & le & blocking & t & a & b & _ & _ & _ & _ & Ht & Ha & Hb & Hsize & _)];
    [exact Heq |].
  exfalso. pose proof (sizeOf_range blocking b Hb) as Hrange.
  destruct Hn as [Hn | Hn]; [rewrite Hn in Ha; injection Ha as <-
                            | rewrite Hn in Ht; injection Ht as <-]; lia.
Qed.

End PF2EVariant.

Lemma pf2e_upgrade_exactly_witness :
  @coverTypesForToken_PF2E (flat (3 # 10) [tokenOf "ogre" "huge" []])
    (pf2eCatalog lesserKey standardKey) attacker target
  = [coverType standardKey (1 # 2) (Some 2) false].
Proof.
  apply (proj1 (@pf2e_upgrade_exactly (flat (3 # 10) [tokenOf "ogre" "huge" []])
                  (pf2eCatalog lesserKey standardKey) attacker target)
           (coverType standardKey (1 # 2) (Some 2) false)
           (coverType lesserKey (1 # 4) (Some 1) false)).
  unfold upgradable.
  split; [reflexivity |]. split; [reflexivity |]. split; [left; reflexivity |].
  exists (tokenOf "ogre" "huge" []), 3, 3, 5.
  split; [left; reflexivity |]. repeat split; reflexivity || lia.
Defined.

(** A size label that names a member every object inherits gives a
    function, which is kept by [??] and is no number: nothing is
    upgraded.  A label the table does not know at all counts as medium. *)
Example pf2e_inherited_label :
  toNumber (sizeOf (tokenOf "odd" "constructor" [])) = None
  /\ toNumber (sizeOf (tokenOf "odd" "colossal" [])) = Some 3
  /\ @coverTypesForToken_PF2E (flat (3 # 10) [tokenOf "dragon" "grg" []])
       (pf2eCatalog lesserKey standardKey) (tokenOf "odd" "constructor" []) target
     = [coverType lesserKey (1 # 4) (Some 1) false]
  /\ @coverTypesForToken_PF2E (flat (3 # 10) [tokenOf "odd" "toString" []])
       (pf2eCatalog lesserKey standardKey) attacker target
     = [coverType lesserKey (1 # 4) (Some 1) false].
Proof. repeat split; reflexivity. Qed.

Lemma pf2e_no_upgrade_for_large_witness :
  @coverTypesForToken_PF2E (flat (3 # 10) [tokenOf "dragon" "grg" []])
    (pf2eCatalog lesserKey standardKey) (tokenOf "giant" "huge" []) target
  = [coverType lesserKey (1 # 4) (Some 1) false].
Proof.
  rewrite (@pf2e_no_upgrade_for_large (flat (3 # 10) [tokenOf "dragon" "grg" []])
             (pf2eCatalog lesserKey standardKey) (tokenOf "giant" "huge" []) target 5).
  - reflexivity.
  - left. reflexivity.
  - lia.
Defined.

(** *** The dnd5e variant *)

Section Dnd5eVariant.

Import Dnd5e.

Context `{Calculator} `{IgnoresCover}.

Lemma orderedLoopWith_members (applies : CoverType -> bool) (l types : list CoverType)
    (ct : CoverType) :
  In ct (orderedLoopWith applies l types) -> In ct types \/ (In ct l /\ applies ct = true).
Proof.
  induction l as [| c l IH]; cbn [orderedLoopWith]; [tauto |].
  destruct (applies c) eqn:Ec.
  - intros Hin. apply Set_add_In in Hin. destruct Hin as [Hin | ->]; [tauto |].
    right. split; [left; reflexivity | exact Ec].
  - intros Hin. apply IH in Hin. simpl. tauto.
Qed.

Lemma unorderedLoopWith_members (applies : CoverType -> bool) (l : list CoverType)
    (ct : CoverType) :
  forall types,
    In ct (unorderedLoopWith applies l types) ->
    In ct types \/ (In ct l /\ applies ct = true).
Proof.
  induction l as [| c l IH]; intros types; cbn [unorderedLoopWith]; [tauto |].
  cbn [Set_length JS.truthy]. rewrite andb_false_r. intros Hin. apply IH in Hin.
  destruct Hin as [Hin | [Hin Happ]]; [| simpl; tauto].
  destruct (applies c) eqn:Ec; [| tauto].
  apply Set_add_In in Hin. destruct Hin as [Hin | ->]; [tauto |].
  right. split; [left; reflexivity | exact Ec].
Qed.

Lemma coverTypesForTokenWith_members (applies : CoverType -> bool) (s : Catalog)
    (ct : CoverType) :
  In ct (fst (coverTypesForTokenWith applies s)) -> applies ct = true.
Proof.
  unfold coverTypesForTokenWith.
  destruct (coverTypesOrdered s) as [ordered s1].
  destruct (coverTypesUnordered s1) as [unordered s2]. cbn [fst].
  intros Hin. apply unorderedLoopWith_members in Hin.
  destruct Hin as [Hin | [_ Happ]]; [| exact Happ].
  apply orderedLoopWith_members in Hin. destruct Hin as [[] | [_ Happ]]. exact Happ.
Qed.

Lemma orderedLoopWith_eq (attackingToken targetToken : Token) (l types : list CoverType) :
  orderedLoopWith (fun ct => coverTypeApplies ct attackingToken targetToken) l types
  = fst (orderedLoop l attackingToken targetToken types).
Proof.
  induction l as [| c l IH]; [reflexivity |].
  cbn [orderedLoopWith orderedLoop].
  destruct (coverTypeApplies c attackingToken targetToken); [reflexivity | exact IH].
Qed.

Lemma unorderedLoopWith_eq (attackingToken targetToken : Token) (l : list CoverType) :
  forall types,
    unorderedLoopWith (fun ct => coverTypeApplies ct attackingToken targetToken) l types
    = fst (unorderedLoop l attackingToken targetToken types).
Proof.
  induction l as [| c l IH]; intros types; [reflexivity |].
  cbn [unorderedLoopWith unorderedLoop].
  destruct (negb (canOverlap (document c)) && JS.truthy (Set_length types));
    [apply IH |].
  cbv zeta. cbn [fst]. apply IH.
Qed.

Lemma coverTypesForTokenWith_ext (f g : CoverType -> bool) (s : Catalog) :
  (forall ct, f ct = g ct) -> coverTypesForTokenWith f s = coverTypesForTokenWith g s.
Proof.
  intros Hfg.
  assert (Ho : forall l types, orderedLoopWith f l types = orderedLoopWith g l types).
  { induction l as [| c l IH]; intros types; [reflexivity |].
    cbn [orderedLoopWith]. rewrite Hfg, IH. reflexivity. }
  assert (Hu : forall l types, unorderedLoopWith f l types = unorderedLoopWith g l types).
  { induction l as [| c l IH]; intros types; [reflexivity |].
    cbn [unorderedLoopWith]. rewrite Hfg, !IH. reflexivity. }
  unfold coverTypesForTokenWith.
  destruct (coverTypesOrdered s) as [ordered s1].
  destruct (coverTypesUnordered s1) as [unordered s2].
  rewrite Ho, Hu. reflexivity.
Qed.

Lemma coverTypesForTokenWith_base (s : Catalog) (attackingToken targetToken : Token) :
  fst (coverTypesForTokenWith
         (fun ct => coverTypeApplies ct attackingToken targetToken) s)
  = coverTypesForToken s attackingToken targetToken.
Proof.
  unfold coverTypesForTokenWith, coverTypesForToken, coverTypesForToken_run.
  destruct (coverTypesOrdered s) as [ordered s1].
  rewrite orderedLoopWith_eq.
  destruct (orderedLoop ordered attackingToken targetToken []) as [types tested1].
  destruct (coverTypesUnordered s1) as [unordered s2]. cbn [fst].
  rewrite unorderedLoopWith_eq.
  destruct (unorderedLoop unordered attackingToken targetToken types) as [types' tested2].
  reflexivity.
Qed.

(** X21: when the attacker ignores cover up to a level for the action,
    the dnd5e classification returns no category whose threshold is at
    or below that level, whichever class the catalog's objects have;
    what it returns, the inherited classification returns. *)
Theorem dnd5e_ignored_levels (applies : CoverType -> bool) (s : Catalog)
    (attackingToken : Token) (actionType : option string) (level : Q) :
  ignoreLevel attackingToken actionType = Some level ->
  ~ level == 0 ->
  forall ct,
    In ct (coverTypesForToken_DND5E applies s attackingToken actionType) ->
    (level < percentThreshold (document ct))%Q
    /\ In ct (fst (coverTypesForTokenWith applies s)).
Proof.
  intros Hlevel Hnz ct. unfold coverTypesForToken_DND5E.
  destruct (fst (coverTypesForTokenWith applies s)) as [| c0 cs]; [intros [] |].
  rewrite Hlevel. cbn [isSet].
  destruct (Qeq_bool level 0) eqn:Ez; [apply Qeq_bool_iff in Ez; tauto |].
  cbn [negb]. intros Hin. apply filter_In in Hin. destruct Hin as [Hin Hthr].
  split; [| exact Hin].
  cbn [atMost] in Hthr. apply negb_true_iff in Hthr.
  apply Qnot_le_lt. intros Hle. apply Qle_bool_iff in Hle. congruence.
Qed.

(** X22: when the attacker has no level for the action, or level 0,
    the overriding [coverTypeApplies] is the inherited test and the
    dnd5e classification is the inherited classification. *)
Theorem dnd5e_unset_level (s : Catalog) (attackingToken targetToken : Token)
    (actionType : option string) :
  isSet (ignoreLevel attackingToken actionType) = false ->
  (forall ct, coverTypeApplies_DND5E ct attackingToken targetToken actionType
              = coverTypeApplies ct attackingToken targetToken)
  /\ coverTypesForToken_DND5E
       (fun ct => coverTypeApplies_DND5E ct attackingToken targetToken actionType)
       s attackingToken actionType
     = coverTypesForToken s attackingToken targetToken.
Proof.
  intros Hunset.
  assert (Happ : forall ct,
             coverTypeApplies_DND5E ct attackingToken targetToken actionType
             = coverTypeApplies ct attackingToken targetToken).
  { intros ct. unfold coverTypeApplies_DND5E. cbv zeta. rewrite Hunset. reflexivity. }
  split; [exact Happ |].
  unfold coverTypesForToken_DND5E. rewrite Hunset. cbn [negb].
  assert (Hsame : coverTypesForTokenWith
                    (fun ct => coverTypeApplies_DND5E ct attackingToken targetToken
                                 actionType) s
                  = coverTypesForTokenWith
                      (fun ct => coverTypeApplies ct attackingToken targetToken) s).
  { apply coverTypesForTokenWith_ext. exact Happ. }
  rewrite Hsame, coverTypesForTokenWith_base.
  destruct (coverTypesForToken s attackingToken targetToken); reflexivity.
Qed.

(** X23: with the overriding [coverTypeApplies] the loop after the
    inherited classification removes nothing, and every category
    returned passes the inherited test. *)
Theorem dnd5e_filter_idle (s : Catalog) (attackingToken targetToken : Token)
    (actionType : option string) :
  let applies := fun ct =>
                   coverTypeApplies_DND5E ct attackingToken targetToken actionType in
  coverTypesForToken_DND5E applies s attackingToken actionType
  = fst (coverTypesForTokenWith applies s)
  /\ forall ct,
       In ct (coverTypesForToken_DND5E applies s attackingToken actionType) ->
       coverTypeApplies ct attackingToken targetToken = true.
Proof.
  intros applies.
  assert (Hmem : forall ct, In ct (fst (coverTypesForTokenWith applies s)) ->
                            applies ct = true)
    by (intros ct; apply coverTypesForTokenWith_members).
  assert (Heq : coverTypesForToken_DND5E applies s attackingToken actionType
                = fst (coverTypesForTokenWith applies s)).
  { unfold coverTypesForToken_DND5E.
    destruct (fst (coverTypesForTokenWith applies s)) as [| c0 cs] eqn:Er;
      [reflexivity |].
    destruct (isSet (ignoreLevel attackingToken actionType)) eqn:Es; cbn [negb];
      [| reflexivity].
    apply filter_all. intros ct Hin. apply Hmem in Hin.
    unfold applies, coverTypeApplies_DND5E in Hin. cbv zeta in Hin.
    rewrite Es in Hin. cbn [andb] in Hin.
    destruct (atMost (percentThreshold (document ct))
                (ignoreLevel attackingToken actionType)); [discriminate Hin | reflexivity]. }
  split; [exact Heq |].
  intros ct Hin. rewrite Heq in Hin. apply Hmem in Hin.
  unfold applies, coverTypeApplies_DND5E in Hin. cbv zeta in Hin.
  destruct (isSet _ && atMost _ _); [discriminate Hin | exact Hin].
Qed.

End Dnd5eVariant.

Lemma dnd5e_ignored_levels_witness :
  @Dnd5e.coverTypesForToken_DND5E
    (fun ct => @coverTypeApplies (flat (4 # 5) []) ct attacker target)
    (Dnd5e.sharpshooter (1 # 4)) catalogABC attacker (Some "rwak")
  = [coverA]
  /\ (1 # 4 < percentThreshold (document coverA))%Q.
Proof.
  split; [reflexivity |].
  refine (proj1 (@dnd5e_ignored_levels (Dnd5e.sharpshooter (1 # 4))
                   (fun ct => @coverTypeApplies (flat (4 # 5) []) ct attacker target)
                   catalogABC attacker (Some "rwak") (1 # 4) _ _ coverA _)).
  - reflexivity.
  - intros E. unfold Qeq in E. simpl in E. discriminate E.
  - left. reflexivity.
Defined.

Lemma dnd5e_unset_level_witness :
  @Dnd5e.coverTypesForToken_DND5E
    (fun ct => @Dnd5e.coverTypeApplies_DND5E (flat (4 # 5) []) (Dnd5e.sharpshooter (3 # 4))
                 ct attacker target (Some "mwak"))
    (Dnd5e.sharpshooter (3 # 4)) catalogABC attacker (Some "mwak")
  = [coverA; coverC].
Proof.
  rewrite (proj2 (@dnd5e_unset_level (flat (4 # 5) []) (Dnd5e.sharpshooter (3 # 4))
                    catalogABC attacker target (Some "mwak") eq_refl)).
  reflexivity.
Defined.

(** The sharpshooter's ranged attack against 80% cover: the categories
    with thresholds 3/4 and 1/4 are ignored, and so is the one with
    1/2, which the inherited classification never reached. *)
Example dnd5e_sharpshooter :
  @Dnd5e.coverTypesForToken_DND5E
    (fun ct => @Dnd5e.coverTypeApplies_DND5E (flat (4 # 5) []) (Dnd5e.sharpshooter (3 # 4))
                 ct attacker target (Some "rwak"))
    (Dnd5e.sharpshooter (3 # 4)) catalogABC attacker (Some "rwak")
  = []
  /\ @Dnd5e.coverTypesForToken_DND5E
       (fun ct => @coverTypeApplies (flat (4 # 5) []) ct attacker target)
       (Dnd5e.sharpshooter (3 # 4)) catalogABC attacker (Some "rwak")
     = [].
Proof. split; reflexivity. Qed.

End CoverTypeOpsProofs.

(** ** Terrain walls: regions, warnings, the viewer's side *)

Module WallOpsProofs.
Import Polygon WallPoints3d WallProofs.
Local Open Scope Z_scope.

Section Walls.

Context `{Host}.

Lemma addRegions_app (c : ClipperPaths) (r1 r2 : list ClipperPaths) :
  addRegions c (r1 ++ r2) = addRegions (addRegions c r1) r2.
Proof. unfold addRegions. apply fold_left_app. Qed.

Lemma fold_pairStep_regions (v : Point) (ps : list (WallPoints3d * WallPoints3d)) :
  forall st,
    fst (fold_left (pairStep v) ps st)
    = addRegions (fst st) (flat_map (fun p => clippedRegions v (fst p) (snd p)) ps).
Proof.
  induction ps as [| [wi wj] ps IH]; intros [c log]; [reflexivity |].
  cbn [fold_left flat_map]. rewrite IH, addRegions_app.
  rewrite pairStep_regions. reflexivity.
Qed.

(** X24: the result of [combineTerrainWalls] is made of the clipped
    regions of all pairs of walls, taken in the order of the two loops:
    each region that has paths is added, and the sum is combined and
    cleaned; the result is null when nothing was added. *)
Theorem combineTerrainWalls_regions (walls : list WallPoints3d) (viewerLoc : Point3d) :
  let v := mkPoint (x3 viewerLoc) (y3 viewerLoc) in
  let combined :=
    addRegions newClipperPaths
      (flat_map (fun p => clippedRegions v (fst p) (snd p)) (pairs walls)) in
  fst (combineTerrainWalls walls viewerLoc)
  = if hasPaths combined then Some (clean (combine combined)) else None.
Proof.
  intros v combined. unfold combineTerrainWalls. fold v.
  pose proof (fold_pairStep_regions v (pairs walls) (newClipperPaths, [])) as Hfst.
  rewrite <- outerLoop_pairs in Hfst. cbn [fst] in Hfst. fold combined in Hfst.
  destruct (outerLoop v walls (newClipperPaths, [])) as [c log]. cbn [fst] in Hfst.
  subst c. destruct (hasPaths combined); reflexivity.
Qed.

(** *** Warnings *)

Lemma frontBack_none (wi wj : WallPoints3d) (ccwABV ccwCDV : Z) :
  let a := wallA (object wi) in
  let b := wallB (object wi) in
  let c := wallA (object wj) in
  let d := wallB (object wj) in
  frontBack wi wj ccwABV ccwCDV (ccw a b c) (ccw a b d) (ccw c d a) (ccw c d b) = None ->
  strictlyCross a b c d.
Proof.
  intros a b c d. unfold frontBack, strictlyCross.
  destruct (Z.eqb_spec (ccw a b c) (ccw a b d)); cbn [orb];
    [destruct (_ =? ccwABV); discriminate |].
  destruct (Z.eqb_spec (ccw a b d) 0); cbn [orb];
    [destruct (_ =? ccwABV); discriminate |].
  destruct (Z.eqb_spec (ccw a b c) 0); cbn [orb];
    [destruct (_ =? ccwABV); discriminate |].
  destruct (Z.eqb_spec (ccw c d a) (ccw c d b)); cbn [orb];
    [destruct (_ =? ccwCDV); discriminate |].
  destruct (Z.eqb_spec (ccw c d a) 0); cbn [orb];
    [destruct (_ =? ccwCDV); discriminate |].
  destruct (Z.eqb_spec (ccw c d b) 0); cbn [orb];
    [destruct (_ =? ccwCDV); discriminate |].
  intros _. tauto.
Qed.

Lemma pairStep_log (v : Point) (st : State) (wi wj : WallPoints3d) :
  snd (pairStep v st (wi, wj)) = snd st
  \/ (snd (pairStep v st (wi, wj)) = snd st ++ [warnNoIntersection]
      /\ strictlyCross (wallA (object wi)) (wallB (object wi))
                       (wallA (object wj)) (wallB (object wj))
      /\ lineLineIntersection (wallA (object wi)) (wallB (object wi))
                              (wallA (object wj)) (wallB (object wj)) = None).
Proof.
  destruct st as [combined log]. unfold pairStep, innerBody. cbn [fst snd].
  destruct (ccw (wallA (object wi)) (wallB (object wi)) v =? 0); [left; reflexivity |].
  destruct (ccw (wallA (object wj)) (wallB (object wj)) v =? 0); [left; reflexivity |].
  destruct (negb _); [left; reflexivity |].
  destruct (frontBack _ _ _ _ _ _ _ _) as [[wFront wBack] |] eqn:Efb.
  - destruct (hasPaths _); left; reflexivity.
  - apply frontBack_none in Efb. unfold handleTerrainWallsCross.
    destruct (lineLineIntersection _ _ _ _) as [ix |] eqn:Eix.
    + left. destruct (_ =? -1), (_ =? -1); cbn [snd]; apply app_nil_r.
    + right. cbn [snd]. split; [reflexivity |]. split; [exact Efb | reflexivity].
Qed.

Lemma fold_pairStep_log (v : Point) (ps : list (WallPoints3d * WallPoints3d)) :
  forall st,
    exists extra,
      snd (fold_left (pairStep v) ps st) = snd st ++ extra
      /\ (List.length extra <= List.length ps)%nat
      /\ (forall m, In m extra -> m = warnNoIntersection)
      /\ ((forall wi wj,
              In (wi, wj) ps ->
              strictlyCross (wallA (object wi)) (wallB (object wi))
                            (wallA (object wj)) (wallB (object wj)) ->
              lineLineIntersection (wallA (object wi)) (wallB (object wi))
                                   (wallA (object wj)) (wallB (object wj)) <> None) ->
          extra = []).
Proof.
  induction ps as [| [wi wj] ps IH]; intros st.
  - exists []. cbn [fold_left]. rewrite app_nil_r.
    split; [reflexivity |]. split; [simpl; lia |]. split; [intros m [] | reflexivity].
  - cbn [fold_left].
    destruct (IH (pairStep v st (wi, wj))) as (extra & Heq & Hlen & Hall & Hnone).
    destruct (pairStep_log v st wi wj) as [Hs | (Hs & Hcross & Hix)]; rewrite Hs in Heq.
    + exists extra. split; [exact Heq |]. split; [simpl; lia |].
      split; [exact Hall |].
      intros Hok. apply Hnone. intros wi' wj' Hin. apply Hok. right. exact Hin.
    + exists (warnNoIntersection :: extra). rewrite <- app_assoc in Heq.
      split; [exact Heq |]. split; [simpl; lia |].
      split; [intros m [<- | Hm]; [reflexivity | apply Hall, Hm] |].
      intros Hok. exfalso. apply (Hok wi wj); [left; reflexivity | exact Hcross | exact Hix].
Qed.

(** X25: [combineTerrainWalls] logs nothing but the warning about a
    missing intersection, at most once for each pair of walls, and
    logs nothing at all when every strictly crossing pair has an
    intersection. *)
Theorem warnings_from_crossings (walls : list WallPoints3d) (viewerLoc : Point3d) :
  let log := snd (combineTerrainWalls walls viewerLoc) in
  (forall m, In m log -> m = warnNoIntersection)
  /\ (List.length log <= List.length (pairs walls))%nat
  /\ ((forall wi wj,
          In (wi, wj) (pairs walls) ->
          strictlyCross (wallA (object wi)) (wallB (object wi))
                        (wallA (object wj)) (wallB (object wj)) ->
          lineLineIntersection (wallA (object wi)) (wallB (object wi))
                               (wallA (object wj)) (wallB (object wj)) <> None) ->
      log = []).
Proof.
  intros log.
  assert (Hlog : log = snd (fold_left (pairStep (mkPoint (x3 viewerLoc) (y3 viewerLoc)))
                              (pairs walls) (newClipperPaths, []))).
  { unfold log, combineTerrainWalls. rewrite outerLoop_pairs.
    destruct (fold_left _ _ _) as [c l]. destruct (negb (hasPaths c)); reflexivity. }
  destruct (fold_pairStep_log (mkPoint (x3 viewerLoc) (y3 viewerLoc)) (pairs walls)
              (newClipperPaths, []))
    as (extra & Heq & Hlen & Hall & Hnone).
  cbn [snd app] in Heq. rewrite <- Hlog in Heq. rewrite Heq.
  split; [exact Hall |]. split; [exact Hlen | exact Hnone].
Qed.

(** *** A wall in line with the viewer *)

Lemma fold_unchanged {S T : Type} (f : S -> T -> S) (l : list T) :
  (forall st x, In x l -> f st x = st) -> forall st, fold_left f l st = st.
Proof.
  induction l as [| x l IH]; intros Hid st; [reflexivity |].
  cbn [fold_left]. rewrite (Hid st x (or_introl eq_refl)).
  apply IH. intros st' x' Hx'. apply Hid. right. exact Hx'.
Qed.

Lemma fold_pairs_skip {S : Type} (f : S -> WallPoints3d * WallPoints3d -> S)
    (w : WallPoints3d) :
  (forall st x, f st (x, w) = st) ->
  (forall st x, f st (w, x) = st) ->
  forall pre post st,
    fold_left f (pairs (pre ++ w :: post)) st = fold_left f (pairs (pre ++ post)) st.
Proof.
  intros Hsecond Hfirst pre post.
  induction pre as [| p pre IH]; intros st.
  - cbn [app pairs]. rewrite fold_left_app. f_equal.
    apply fold_unchanged. intros st' x Hx. apply in_map_iff in Hx.
    destruct Hx as (y & <- & _). apply Hfirst.
  - cbn [app pairs]. rewrite !map_app, !fold_left_app. cbn [map fold_left].
    rewrite Hsecond, IH. reflexivity.
Qed.

(** X26: a wall in line with the viewer takes no part in the result:
    the walls without it give the same paths and the same warnings. *)
Theorem collinear_wall_ignored (pre post : list WallPoints3d) (w : WallPoints3d)
    (viewerLoc : Point3d) :
  ccw (wallA (object w)) (wallB (object w)) (mkPoint (x3 viewerLoc) (y3 viewerLoc)) = 0 ->
  combineTerrainWalls (pre ++ w :: post) viewerLoc
  = combineTerrainWalls (pre ++ post) viewerLoc.
Proof.
  intros Hline. unfold combineTerrainWalls. rewrite !outerLoop_pairs.
  rewrite (fold_pairs_skip (pairStep (mkPoint (x3 viewerLoc) (y3 viewerLoc))) w);
    [reflexivity | |].
  - intros [c log] x. unfold pairStep, innerBody. cbn [fst snd].
    rewrite Hline. cbn [Z.eqb].
    destruct (ccw (wallA (object x)) (wallB (object x)) _ =? 0); reflexivity.
  - intros st x. unfold pairStep. cbn [fst snd]. rewrite Hline. reflexivity.
Qed.

(** *** The viewer's side *)

Lemma ccw_range (a b c : Point) : ccw a b c = -1 \/ ccw a b c = 0 \/ ccw a b c = 1.
Proof.
  unfold ccw. destruct (Z.sgn_spec (orient2dFast a b c)) as [[_ ->] | [[_ ->] | [_ ->]]];
    tauto.
Qed.

(** X27: for two walls that do not strictly cross and are not in line
    with each other, a viewer on the opposite side of both walls sees
    them in the opposite order: front and back are exchanged. *)
Theorem frontBack_viewer_flip (wi wj : WallPoints3d) (v v' : Point) :
  let a := wallA (object wi) in
  let b := wallB (object wi) in
  let c := wallA (object wj) in
  let d := wallB (object wj) in
  ccw a b v <> 0 ->
  ccw c d v <> 0 ->
  ccw a b v' = - ccw a b v ->
  ccw c d v' = - ccw c d v ->
  ~ (ccw a b c = 0 /\ ccw a b d = 0) ->
  ~ (ccw c d a = 0 /\ ccw c d b = 0) ->
  frontBack wi wj (ccw a b v') (ccw c d v') (ccw a b c) (ccw a b d) (ccw c d a) (ccw c d b)
  = match frontBack wi wj (ccw a b v) (ccw c d v)
            (ccw a b c) (ccw a b d) (ccw c d a) (ccw c d b) with
    | Some (wFront, wBack) => Some (wBack, wFront)
    | None => None
    end.
Proof.
  intros a b c d Hv1 Hv2 Hf1 Hf2 Hab Hcd. rewrite Hf1, Hf2.
  pose proof (ccw_range a b v) as R1. pose proof (ccw_range c d v) as R2.
  pose proof (ccw_range a b c) as R3. pose proof (ccw_range a b d) as R4.
  pose proof (ccw_range c d a) as R5. pose proof (ccw_range c d b) as R6.
  unfold frontBack.
  generalize dependent (ccw a b v). generalize dependent (ccw c d v).
  generalize dependent (ccw a b c). generalize dependent (ccw a b d).
  generalize dependent (ccw c d a). generalize dependent (ccw c d b).
  intros k6 R6 k5 Hcd R5 k4 R4 k3 Hab R3 k2 Hv2 _ R2 k1 Hv1 _ R1.
  destruct R1 as [-> | [-> | ->]]; [| congruence |];
    (destruct R2 as [-> | [-> | ->]]; [| congruence |]);
    destruct R3 as [-> | [-> | ->]], R4 as [-> | [-> | ->]];
    try (exfalso; apply Hab; split; reflexivity);
    try reflexivity;
    destruct R5 as [-> | [-> | ->]], R6 as [-> | [-> | ->]];
    try (exfalso; apply Hcd; split; reflexivity);
    reflexivity.
Qed.

End Walls.

Lemma warnings_from_crossings_witness :
  snd (@combineTerrainWalls (testHost true (Some (mkPoint 2 2)))
         [wallOf 0 0 4 4; wallOf 0 4 4 0; wallOf 0 6 4 6] (mkPoint3d 2 (-3) 5)) = [].
Proof.
  apply (@warnings_from_crossings (testHost true (Some (mkPoint 2 2)))).
  intros wi wj _ _. discriminate.
Defined.

Lemma collinear_wall_ignored_witness :
  @combineTerrainWalls (testHost true None)
    [wallOf 0 0 4 0; wallOf 2 0 2 4; wallOf 0 2 4 2] (mkPoint3d 2 (-3) 5)
  = @combineTerrainWalls (testHost true None)
      [wallOf 0 0 4 0; wallOf 0 2 4 2] (mkPoint3d 2 (-3) 5).
Proof.
  apply (@collinear_wall_ignored (testHost true None)
           [wallOf 0 0 4 0] [wallOf 0 2 4 2] (wallOf 2 0 2 4) (mkPoint3d 2 (-3) 5)).
  reflexivity.
Defined.

Lemma frontBack_viewer_flip_witness :
  let h := testHost true None in
  let w1 := wallOf 0 0 4 0 in
  let w2 := wallOf 0 2 4 2 in
  let k (w : WallPoints3d) (p : Point) := @ccw h (wallA (object w)) (wallB (object w)) p in
  @frontBack w1 w2 (k w1 (mkPoint 2 5)) (k w2 (mkPoint 2 5))
    (k w1 (wallA (object w2))) (k w1 (wallB (object w2)))
    (k w2 (wallA (object w1))) (k w2 (wallB (object w1)))
  = Some (w2, w1)
  /\ @frontBack w1 w2 (k w1 (mkPoint 2 (-3))) (k w2 (mkPoint 2 (-3)))
       (k w1 (wallA (object w2))) (k w1 (wallB (object w2)))
       (k w2 (wallA (object w1))) (k w2 (wallB (object w1)))
     = Some (w1, w2).
Proof.
  intros h w1 w2 k. split; [| reflexivity].
  apply (@frontBack_viewer_flip h w1 w2 (mkPoint 2 (-3)) (mkPoint 2 5));
    try reflexivity; try discriminate.
  - intros [Hf _]; discriminate Hf.
  - intros [Hf _]; discriminate Hf.
Defined.

End WallOpsProofs.
